(** * Monte Carlo CFR (leduc/cfr/mccfr.py): a shallow embedding

    The traversals of [MonteCarloCFR] are embedded as functions in a
    state-and-exception monad over the object's mutable fields (the node map,
    the sub-game strategy map, the random generator).  Python numbers are kept
    behind an arithmetic interface with two instances: IEEE binary64, which
    is what CPython and numpy compute with, and exact rationals. *)

From Stdlib Require Import ZArith QArith Floats Lqa.
From stdpp Require Import gmap strings list fin_maps.

Set Warnings "-register-all,-inexact-float,-clear-no-such-hyp".

Set Default Proof Using "Type*".

(** ** Numbers *)

(** The operations [mccfr.py] and the library functions it calls apply to
    their numbers. [ltb x y] is Python's [x < y] ([y > x]), [leb x y] is
    [x <= y], [of_Z] the conversion of an [int] that takes part in float
    arithmetic, [isfinite] is [math.isfinite]. *)
Class Arith (num : Type) := {
  zero : num;
  one : num;
  add : num → num → num;
  sub : num → num → num;
  mul : num → num → num;
  div : num → num → num;
  ltb : num → num → bool;
  leb : num → num → bool;
  eqb : num → num → bool;
  of_Z : Z → num;
  isfinite : num → bool
}.

(** The order facts the pruning test relies on: [x <= y] excludes [x > y]. *)
Class ArithOrder (num : Type) `{!Arith num} : Prop := {
  leb_not_gt : ∀ x y : num, leb x y = true → ltb y x = false
}.

(** Python floats: IEEE 754 binary64. [of_Z] is exact below [2^53], which
    covers every integer constant and counter of the program. *)
Definition float_of_Z (z : Z) : float :=
  if (z <? 0)%Z
  then PrimFloat.opp (PrimFloat.of_uint63 (Uint63.of_Z (- z)))
  else PrimFloat.of_uint63 (Uint63.of_Z z).

Definition binary64 : Arith float := {|
  zero := 0%float;
  one := 1%float;
  add := PrimFloat.add;
  sub := PrimFloat.sub;
  mul := PrimFloat.mul;
  div := PrimFloat.div;
  ltb := PrimFloat.ltb;
  leb := PrimFloat.leb;
  eqb := PrimFloat.eqb;
  of_Z := float_of_Z;
  isfinite := PrimFloat.is_finite
|}.

(** Exact arithmetic on rationals, the numbers the algorithm is specified
    over. *)
Definition exact : Arith Q := {|
  zero := 0%Q;
  one := 1%Q;
  add := Qplus;
  sub := Qminus;
  mul := Qmult;
  div := Qdiv;
  ltb := fun x y => negb (Qle_bool y x);
  leb := Qle_bool;
  eqb := Qeq_bool;
  of_Z := inject_Z;
  isfinite := fun _ => true
|}.

(** Python's [max(x, y)]: the first argument unless the second is greater. *)
Definition pymax {num : Type} `{!Arith num} (x y : num) : num := if ltb x y then y else x.

(** ** Exceptions and outcomes *)

Inductive exn :=
  | KeyError
  | IndexError
  | ValueError
  | NotImplementedError
  | UserWarning.

Inductive outcome (A : Type) :=
  | Return (a : A)
  | Raise (e : exn).
Arguments Return {A} a.
Arguments Raise {A} e.

Definition action := string.

(** ** numpy vectors of utilities *)

Section Vectors.
Context {num : Type} `{!Arith num}.

(** [np.zeros(n)] *)
Definition np_zeros (n : nat) : list num := replicate n zero.

(** [v * p] for a float [p] *)
Definition np_scale (v : list num) (p : num) : list num :=
  (λ x, mul x p) <$> v.

(** [v / p] for a number [p] *)
Definition np_div (v : list num) (p : num) : list num :=
  (λ x, div x p) <$> v.

(** [v[i]] *)
Definition np_index (v : list num) (i : nat) : outcome num :=
  match v !! i with
  | Some x => Return x
  | None => Raise IndexError
  end.

(** [acc += v]: element-wise when the shapes agree, a one-element [v] is
    broadcast, any other shape is numpy's [ValueError]. *)
Definition np_iadd (acc v : list num) : outcome (list num) :=
  if decide (length v = length acc) then Return (zip_with add acc v)
  else match v with
       | [x] => Return ((λ y, add y x) <$> acc)
       | _ => Raise ValueError
       end.
End Vectors.

(** ** Insertion-ordered dictionaries returned by [InfoSet.strategy] *)

Section Dict.
Context {V : Type}.

Fixpoint dict_set (k : action) (v : V) (d : list (action * V)) : list (action * V) :=
  match d with
  | [] => [(k, v)]
  | (k', v') :: d' =>
      if decide (k' = k) then (k, v) :: d' else (k', v') :: dict_set k v d'
  end.

Fixpoint dict_get (d : list (action * V)) (k : action) : outcome V :=
  match d with
  | [] => Raise KeyError
  | (k', v) :: d' => if decide (k' = k) then Return v else dict_get d' k
  end.

(** [{a: f(a) for a in keys}] *)
Definition dict_comp (f : action → V) (keys : list action) : list (action * V) :=
  foldl (λ d a, dict_set a (f a) d) [] keys.

(** [d[k]] on an unordered dictionary *)
Definition getitem (d : gmap action V) (k : action) : outcome V :=
  match d !! k with
  | Some v => Return v
  | None => Raise KeyError
  end.
End Dict.

(** ** InfoSet (leduc/cfr/node.py) *)

Module InfoSet.
Section InfoSet.
Context {num : Type} `{!Arith num}.

(** Modelled from the spec: the class [InfoSet] of leduc/cfr/node.py, which
    is not among the sources. Section 3: two mappings from action to number
    and the [is_frozen] flag. The last two fields say which object each
    mapping is: the one the constructor made, in which an action never seen
    counts as zero, or a plain [dict], which is what the comprehensions of
    [discount] (mccfr.py, lines 107-108 and 245-246) put in its place. *)
Record t := mk {
  regret_sum : gmap action num;
  strategy_sum : gmap action num;
  is_frozen : bool;
  regret_sum_plain : bool;
  strategy_sum_plain : bool
}.

(** Modelled from the spec: the constructor [InfoSet(actions)] of the
    missing node.py. Every action of the alphabet starts at zero regret and
    zero strategy weight, and the node is not frozen. *)
Definition new (actions : list action) : t :=
  {| regret_sum := list_to_map ((λ a, (a, zero)) <$> actions);
     strategy_sum := list_to_map ((λ a, (a, zero)) <$> actions);
     is_frozen := false;
     regret_sum_plain := false;
     strategy_sum_plain := false |}.

(** Modelled from the spec: the regret of an action as the methods of the
    missing node.py read it. Section 3: an action never seen is implicitly
    zero regret. *)
Definition regret (node : t) (a : action) : num :=
  default zero (regret_sum node !! a).

(** Modelled from the spec: the strategy weight of an action as the methods
    of the missing node.py read it. Section 3: an action never seen is
    implicitly zero strategy weight. *)
Definition weight (node : t) (a : action) : num :=
  default zero (strategy_sum node !! a).

(** [d[a]] on one of the two mappings, as [mccfr.py] indexes them: the
    value at a key that is there; at a missing key, [KeyError] from a plain
    [dict] and zero from the mapping the constructor made. *)
Definition getitem_or_zero (plain : bool) (d : gmap action num) (a : action) : outcome num :=
  match d !! a with
  | Some value => Return value
  | None => if plain then Raise KeyError else Return zero
  end.

(** [node.regret_sum[a]] and [node.strategy_sum[a]] *)
Definition regret_sum_getitem (node : t) (a : action) : outcome num :=
  getitem_or_zero (regret_sum_plain node) (regret_sum node) a.
Definition strategy_sum_getitem (node : t) (a : action) : outcome num :=
  getitem_or_zero (strategy_sum_plain node) (strategy_sum node) a.

(** [node.regret_sum[a] = value] and [node.strategy_sum[a] = value] *)
Definition regret_sum_setitem (a : action) (value : num) (node : t) : t :=
  {| regret_sum := <[a := value]> (regret_sum node);
     strategy_sum := strategy_sum node;
     is_frozen := is_frozen node;
     regret_sum_plain := regret_sum_plain node;
     strategy_sum_plain := strategy_sum_plain node |}.
Definition strategy_sum_setitem (a : action) (value : num) (node : t) : t :=
  {| regret_sum := regret_sum node;
     strategy_sum := <[a := value]> (strategy_sum node);
     is_frozen := is_frozen node;
     regret_sum_plain := regret_sum_plain node;
     strategy_sum_plain := strategy_sum_plain node |}.

(** Python's [sum]: left to right from [0]. *)
Definition total (l : list num) : num := foldl add zero l.

(** Modelled from the spec: [strategy(valid_actions)] of the missing
    node.py (section 4.1). [R[a] = max(regret_sum[a], 0)], [S] their sum
    over the legal actions; [R[a]/S] when [S > 0], else uniform over
    [valid_actions]. *)
Definition strategy (node : t) (valid_actions : list action) : list (action * num) :=
  let R a := pymax (regret node a) zero in
  let S := total (R <$> valid_actions) in
  if ltb zero S
  then dict_comp (λ a, div (R a) S) valid_actions
  else dict_comp (λ _, div one (of_Z (Z.of_nat (length valid_actions)))) valid_actions.

(** Modelled from the spec: [avg_strategy()] of the missing node.py
    (section 4.1). [strategy_sum[a] / Σ strategy_sum], uniform over the
    node's actions when the total is zero. *)
Definition avg_strategy (node : t) : gmap action num :=
  let S := total (map_to_list (strategy_sum node)).*2 in
  if eqb S zero
  then (λ _, div one (of_Z (Z.of_nat (size (strategy_sum node))))) <$> strategy_sum node
  else (λ s, div s S) <$> strategy_sum node.
End InfoSet.
Arguments t num : clear implicits.
End InfoSet.

(** ** Game states and randomness: the collaborators [mccfr.py] consumes *)

(** A game state as the traversals observe it: terminal with its payoff
    vector, or a decision of [turn] at the information set [info_set] with
    one successor per legal action ([valid_actions] is the list of their
    labels, [add] selects a successor).  Transitions are pure. *)
Inductive State (num : Type) :=
  | Terminal (payoff : list num)
  | Decision (turn : nat) (info_set : string) (successors : list (action * State num)).
Arguments Terminal {num} payoff.
Arguments Decision {num} turn info_set successors.

(** A node of the pre-built sub-game tree: its game state, the leaf flag, the
    children by action and, for a leaf, the continuation value
    [value(player, node_map, action)]. *)
Inductive TreeNode (num : Type) :=
  | TNode (state : State num) (is_leaf : bool)
          (children : list (action * TreeNode num))
          (value : nat → gmap nat (gmap string (InfoSet.t num)) → action → list num).
Arguments TNode {num} state is_leaf children value.

(** [state.add(player, a)] on an association list of successors. *)
Fixpoint assoc {B : Type} (l : list (action * B)) (a : action) : option B :=
  match l with
  | [] => None
  | (a', b) :: l' => if decide (a' = a) then Some b else assoc l' a
  end.

(** Python's [random] module: [random.choices(population, weights)[0]],
    [random.random()] and [random.shuffle] over a generator state. *)
Class Random (num : Type) := {
  rstate : Type;
  random_choices : rstate → list action → list num → outcome action * rstate;
  random_random : rstate → num * rstate;
  random_shuffle : ∀ {C : Type}, rstate → list C → list C * rstate
}.

(** The order in which CPython lists the elements of [set(l)], as a [for]
    loop or [list] sees them. The language does not fix it: it follows the
    hashes of the elements, which for strings differ from one run of the
    interpreter to the next. What holds of it in every run is that each
    element of [l] is listed once. *)
Class SetOrder := {
  set_list : ∀ {A : Type} `{!EqDecision A}, list A → list A;
  set_list_perm : ∀ {A : Type} `{!EqDecision A} (l : list A), set_list l ≡ₚ remove_dups l
}.

(** The fields of the [MonteCarloCFR] object set by the constructors. *)
Record Config := {
  num_players : nat;
  actions : list action;
  num_cards : nat
}.

Definition regret_minimum : Z := -300000.
Definition strategy_interval : nat := 100.
Definition prune_threshold : nat := 200.
Definition discount_interval : nat := 100.
Definition lcfr_threshold : nat := 400.
(** [set(('1', '2', '3', '4'))], in the order the interpreter lists it. *)
Definition continuation `{!SetOrder} : list action :=
  set_list ["1"; "2"; "3"; "4"]%string.

(** ** The object's mutable state and the monad of its methods *)

Section Machine.
Context {num : Type} `{!Arith num} `{!Random num}.

(** Entries into a traversal, recorded in call order. The log is a ghost
    field: no method reads it. *)
Inductive call :=
  | Call_mccfr (state : State num)
  | Call_update_strategy (state : State num)
  | Call_traverse_tree (state : State num)
  | Call_discount (t : nat).

Record World := {
  node_map : gmap nat (gmap string (InfoSet.t num));
  self_strategy : gmap nat (gmap string (InfoSet.t num));
  rng : rstate;
  calls : list call
}.

(** A method body: it runs in a world and leaves a world, also when it
    raises. *)
Definition M (A : Type) : Type := World → outcome A * World.

Definition ret {A} (a : A) : M A := λ w, (Return a, w).
Definition raise {A} (e : exn) : M A := λ w, (Raise e, w).
Definition bind {A B} (k : A → M B) (m : M A) : M B :=
  λ w, match m w with
       | (Return a, w') => k a w'
       | (Raise e, w') => (Raise e, w')
       end.
#[export] Instance M_ret : MRet M := @ret.
#[export] Instance M_bind : MBind M := @bind.
Definition lift {A} (o : outcome A) : M A := λ w, (o, w).
(** [try: m  except: raise e] with a bare [except]. *)
Definition try_except_raise {A} (m : M A) (e : exn) : M A :=
  λ w, match m w with
       | (Return a, w') => (Return a, w')
       | (Raise _, w') => (Raise e, w')
       end.
End Machine.
Arguments World num {_}.
Arguments M num {_} A.
Arguments call num : clear implicits.


(** ** MonteCarloCFR *)

Section MonteCarloCFR.
Context {num : Type} `{!Arith num} `{!Random num} `{!SetOrder}.
(** [self]: the configuration of the object. *)
Variable self : Config.

Definition get_world : M num (World num) := λ w, (Return w, w).
Definition modify (f : World num → World num) : M num unit := λ w, (Return (), f w).

Definition set_node_map (nm : gmap nat (gmap string (InfoSet.t num))) (w : World num) : World num :=
  {| node_map := nm; self_strategy := self_strategy w; rng := rng w; calls := calls w |}.
Definition set_self_strategy (sm : gmap nat (gmap string (InfoSet.t num))) (w : World num) : World num :=
  {| node_map := node_map w; self_strategy := sm; rng := rng w; calls := calls w |}.
Definition set_rng (g : rstate) (w : World num) : World num :=
  {| node_map := node_map w; self_strategy := self_strategy w; rng := g; calls := calls w |}.
Definition log (c : call num) : M num unit :=
  modify (λ w, {| node_map := node_map w; self_strategy := self_strategy w;
                  rng := rng w; calls := calls w ++ [c] |}).

(** [for x in l: acc = body(acc, x)] *)
Fixpoint for_each {A B : Type} (body : B → A → M num B) (acc : B) (l : list A) : M num B :=
  match l with
  | [] => mret acc
  | x :: l' => acc' ← body acc x; for_each body acc' l'
  end.

(** [m.setdefault(player, {}).setdefault(info_set, InfoSet(self.actions))]:
    an absent node is created, a present one is left as it is. *)
Definition setdefault (player : nat) (info_set : string)
    (m : gmap nat (gmap string (InfoSet.t num))) : gmap nat (gmap string (InfoSet.t num)) :=
  match m !! player with
  | None => <[player := {[info_set := InfoSet.new (actions self)]}]> m
  | Some player_nodes =>
      match player_nodes !! info_set with
      | Some _ => m
      | None => <[player := <[info_set := InfoSet.new (actions self)]> player_nodes]> m
      end
  end.

Definition lookup_node (m : gmap nat (gmap string (InfoSet.t num)))
    (player : nat) (info_set : string) : option (InfoSet.t num) :=
  player_nodes ← m !! player; player_nodes !! info_set.

Definition alter_node (f : InfoSet.t num → InfoSet.t num) (player : nat) (info_set : string)
    (m : gmap nat (gmap string (InfoSet.t num))) : gmap nat (gmap string (InfoSet.t num)) :=
  alter (alter f info_set) player m.

(** The two maps of information sets of the object: [self.node_map] and,
    in sub-game solving, [self.strategy]. *)
Inductive store := Node_map | Self_strategy.

Definition get_store (s : store) (w : World num) : gmap nat (gmap string (InfoSet.t num)) :=
  match s with Node_map => node_map w | Self_strategy => self_strategy w end.
Definition set_store (s : store) (m : gmap nat (gmap string (InfoSet.t num)))
    (w : World num) : World num :=
  match s with Node_map => set_node_map m w | Self_strategy => set_self_strategy m w end.

(** The local variable [node] of the traversals is a reference into one of
    the maps; it is modelled by its key, read and written in the current
    world, so that updates made by the recursive calls are seen. *)
Definition node_setdefault (s : store) (player : nat) (info_set : string) : M num unit :=
  modify (λ w, set_store s (setdefault player info_set (get_store s w)) w).
Definition read_node (s : store) (player : nat) (info_set : string) : M num (InfoSet.t num) :=
  w ← get_world;
  match lookup_node (get_store s w) player info_set with
  | Some node => mret node
  | None => raise KeyError
  end.
Definition write_node (s : store) (f : InfoSet.t num → InfoSet.t num)
    (player : nat) (info_set : string) : M num unit :=
  modify (λ w, set_store s (alter_node f player info_set (get_store s w)) w).

(** [node.regret_sum[a] += regret] and [node.strategy_sum[a] += 1] on the
    node at a key of one of the maps: the entry is read, which raises
    [KeyError] when the mapping is a plain [dict] without the key, and the
    sum is stored under the key. *)
Definition add_regret (s : store) (a : action) (regret : num)
    (player : nat) (info_set : string) : M num unit :=
  node ← read_node s player info_set;
  value ← lift (InfoSet.regret_sum_getitem node a);
  write_node s (InfoSet.regret_sum_setitem a (add value regret)) player info_set.
Definition incr_strategy_sum (s : store) (a : action)
    (player : nat) (info_set : string) : M num unit :=
  node ← read_node s player info_set;
  value ← lift (InfoSet.strategy_sum_getitem node a);
  write_node s (InfoSet.strategy_sum_setitem a (add value one)) player info_set.

(** [random.choices(list(strategy.keys()), weights=list(strategy.values()))[0]] *)
Definition choices (strategy : list (action * num)) : M num action :=
  λ w, let '(o, g) := random_choices (rng w) strategy.*1 strategy.*2 in (o, set_rng g w).
Definition random : M num num :=
  λ w, let '(x, g) := random_random (rng w) in (Return x, set_rng g w).
Definition shuffle {C : Type} (cards : list C) : M num (list C) :=
  λ w, let '(l, g) := random_shuffle (rng w) cards in (Return l, set_rng g w).

(** The recursive call on [state.add(player, a)], given the calls on all
    successors. *)
Definition call_on {B : Type} (successors : list (action * M num B)) (a : action) : M num B :=
  match assoc successors a with
  | Some m => m
  | None => raise ValueError
  end.

(** *** mccfr *)

(** Lines 141-153, the body of the first loop for the action [a]; the
    accumulator is [(utilities, expected_value, explored)], [recurse a] is
    the computation of [calculated_util]. The loops of [subgame_mccfr]
    (lines 271-298) have the same body on a node of [self.strategy]. *)
Definition mccfr_explore (s : store) (prune : bool) (curr_player : nat) (info_set : string)
    (strategy : list (action * num)) (recurse : action → M num (list num))
    (acc : gmap action num * list num * gset action) (a : action)
    : M num (gmap action num * list num * gset action) :=
  let '(utilities, expected_value, explored) := acc in
  if prune then
    node ← read_node s curr_player info_set;
    regret ← lift (InfoSet.regret_sum_getitem node a);
    if ltb (of_Z regret_minimum) regret then
      calculated_util ← recurse a;
      u ← lift (np_index calculated_util curr_player);
      p ← lift (dict_get strategy a);
      expected_value' ← lift (np_iadd expected_value (np_scale calculated_util p));
      mret (<[a := u]> utilities, expected_value', {[a]} ∪ explored)
    else mret acc
  else
    calculated_util ← recurse a;
    u ← lift (np_index calculated_util curr_player);
    p ← lift (dict_get strategy a);
    expected_value' ← lift (np_iadd expected_value (np_scale calculated_util p));
    mret (<[a := u]> utilities, expected_value', explored).

(** Lines 155-162 (and 300-307), the body of the second loop for the
    action [a]. *)
Definition mccfr_regret (s : store) (prune : bool) (curr_player : nat) (info_set : string)
    (utilities : gmap action num) (expected_value : list num) (explored : gset action)
    (_ : unit) (a : action) : M num unit :=
  let update : M num unit :=
    u ← lift (getitem utilities a);
    v ← lift (np_index expected_value curr_player);
    add_regret s a (sub u v) curr_player info_set in
  if prune then
    if bool_decide (a ∈ explored) then update else mret ()
  else update.

(** Lines 126-177: a non-terminal state, with the recursive calls passed
    in as [recurse]. *)
Definition mccfr_node (player : nat) (prune : bool) (curr_player : nat) (info_set : string)
    (valid_actions : list action) (recurse : action → M num (list num)) : M num (list num) :=
  if decide (curr_player = player) then
    node_setdefault Node_map curr_player info_set;;
    node ← read_node Node_map curr_player info_set;
    let strategy := InfoSet.strategy node valid_actions in
    let expected_value := np_zeros (num_players self) in
    let utilities : gmap action num := list_to_map ((λ a, (a, zero)) <$> valid_actions) in
    '(utilities, expected_value, explored) ←
      for_each (mccfr_explore Node_map prune curr_player info_set strategy recurse)
               (utilities, expected_value, ∅) valid_actions;
    for_each (mccfr_regret Node_map prune curr_player info_set utilities expected_value explored)
             () valid_actions;;
    mret expected_value
  else
    node_setdefault Node_map curr_player info_set;;
    node ← read_node Node_map curr_player info_set;
    let strategy := InfoSet.strategy node valid_actions in
    random_action ← choices strategy;
    recurse random_action.

Fixpoint mccfr (player : nat) (state : State num) (prune : bool) : M num (list num) :=
  log (Call_mccfr state);;
  match state with
  | Terminal payoff => mret payoff
  | Decision turn info_set successors =>
      mccfr_node player prune turn info_set successors.*1
        (call_on ((λ '(a, new_state), (a, mccfr player new_state prune)) <$> successors))
  end.

(** *** update_strategy *)

(** Lines 196-222: a non-terminal state, with the recursive calls passed
    in as [recurse]. *)
Definition update_strategy_node (player : nat) (curr_player : nat) (info_set : string)
    (valid_actions : list action) (recurse : action → M num unit) : M num unit :=
  if decide (curr_player = player) then
    node_setdefault Node_map curr_player info_set;;
    node ← read_node Node_map curr_player info_set;
    let strategy := InfoSet.strategy node valid_actions in
    random_action ← choices strategy;
    incr_strategy_sum Node_map random_action curr_player info_set;;
    recurse random_action
  else
    node_setdefault Node_map curr_player info_set;;
    for_each (λ _ a, recurse a) () valid_actions.

Fixpoint update_strategy (player : nat) (state : State num) : M num unit :=
  log (Call_update_strategy state);;
  match state with
  | Terminal _ => mret ()
  | Decision turn info_set successors =>
      update_strategy_node player turn info_set successors.*1
        (call_on ((λ '(a, new_state), (a, update_strategy player new_state)) <$> successors))
  end.

(** *** discount *)

(** [(t/self.discount_interval)/((t/self.discount_interval)+ 1)] *)
Definition discount_factor (t : nat) : num :=
  let x := div (of_Z (Z.of_nat t)) (of_Z (Z.of_nat discount_interval)) in
  div x (add x one).

(** [{key:value * discount for key,value in d.items()}] *)
Definition scale (discount : num) (d : gmap action num) : gmap action num :=
  (λ value, mul value discount) <$> d.

(** Lines 107-108 (and 245-246): both mappings of the node are replaced by
    the [dict] of a comprehension over their items. *)
Definition discount_node (discount : num) (node : InfoSet.t num) : InfoSet.t num :=
  {| InfoSet.regret_sum := scale discount (InfoSet.regret_sum node);
     InfoSet.strategy_sum := scale discount (InfoSet.strategy_sum node);
     InfoSet.is_frozen := InfoSet.is_frozen node;
     InfoSet.regret_sum_plain := true;
     InfoSet.strategy_sum_plain := true |}.

(** Lines 105-108, the body of the loop over the players;
    [self.node_map[player]] raises for a player without an entry. *)
Definition discount_player (discount : num) (_ : unit) (player : nat) : M num unit :=
  w ← get_world;
  match node_map w !! player with
  | None => raise KeyError
  | Some player_nodes =>
      modify (set_node_map (<[player := discount_node discount <$> player_nodes]> (node_map w)))
  end.

(** The scaling [discount] performs, for any factor. *)
Definition discount_by (discount : num) : M num unit :=
  for_each (discount_player discount) () (seq 0 (num_players self)).

Definition discount (t : nat) : M num unit :=
  log (Call_discount t);;
  discount_by (discount_factor t).

(** *** subgame_mccfr and subgame_update_strategy *)

(** [self.strategy[curr_player][info_set]]: both levels are
    [defaultdict]s, a missing node is created by the lookup. *)
Definition strategy_getitem (curr_player : nat) (info_set : string) : M num (InfoSet.t num) :=
  node_setdefault Self_strategy curr_player info_set;;
  read_node Self_strategy curr_player info_set.

(** The recursive call on [tree_node.children[a]]. *)
Definition call_child {B : Type} (children : list (action * M num B)) (a : action) : M num B :=
  match assoc children a with
  | Some m => m
  | None => raise KeyError
  end.

(** Lines 255-333: a non-terminal tree node; [value a] is
    [tree_node.value(curr_player, self.node_map, a)] and [recurse a] the
    recursive call on [tree_node.children[a]]. *)
Definition subgame_mccfr_node (player : nat) (prune : bool) (curr_player : nat)
    (info_set : string) (state_valid_actions : list action) (is_leaf : bool)
    (value : action → M num (list num)) (recurse : action → M num (list num))
    : M num (list num) :=
  if decide (curr_player = player) then
    node ← strategy_getitem curr_player info_set;
    if negb (InfoSet.is_frozen node) then
      let valid_actions := if negb is_leaf then state_valid_actions else continuation in
      let strategy := InfoSet.strategy node valid_actions in
      let expected_value := np_zeros (num_players self) in
      let utilities : gmap action num := list_to_map ((λ a, (a, zero)) <$> valid_actions) in
      '(utilities, expected_value, explored) ←
        (if is_leaf
         then for_each (mccfr_explore Self_strategy prune curr_player info_set strategy value)
                       (utilities, expected_value, ∅) valid_actions
         else for_each (mccfr_explore Self_strategy prune curr_player info_set strategy recurse)
                       (utilities, expected_value, ∅) valid_actions);
      for_each (mccfr_regret Self_strategy prune curr_player info_set utilities expected_value explored)
               () valid_actions;;
      mret expected_value
    else raise NotImplementedError
  else
    node ← strategy_getitem curr_player info_set;
    if negb (InfoSet.is_frozen node) then
      let valid_actions := if negb is_leaf then state_valid_actions else continuation in
      let strategy := InfoSet.strategy node valid_actions in
      random_action ← choices strategy;
      if is_leaf then value random_action else recurse random_action
    else raise NotImplementedError.

Fixpoint subgame_mccfr (player : nat) (tree_node : TreeNode num) (prune : bool)
    : M num (list num) :=
  match tree_node with
  | TNode state is_leaf children value =>
      match state with
      | Terminal payoff => mret payoff
      | Decision turn info_set successors =>
          subgame_mccfr_node player prune turn info_set successors.*1 is_leaf
            (λ a, w ← get_world; mret (value turn (node_map w) a))
            (call_child ((λ '(a, next_tree_node),
                            (a, subgame_mccfr player next_tree_node prune)) <$> children))
      end
  end.

(** Lines 339-385: a non-terminal tree node. *)
Definition subgame_update_strategy_node (player : nat) (curr_player : nat)
    (info_set : string) (state_valid_actions : list action) (is_leaf : bool)
    (recurse : action → M num unit) : M num unit :=
  if decide (curr_player = player) then
    node ← strategy_getitem curr_player info_set;
    if negb (InfoSet.is_frozen node) then
      if is_leaf then
        let strategy := InfoSet.strategy node continuation in
        random_action ← choices strategy;
        incr_strategy_sum Self_strategy random_action curr_player info_set
      else
        let strategy := InfoSet.strategy node state_valid_actions in
        random_action ← choices strategy;
        incr_strategy_sum Self_strategy random_action curr_player info_set;;
        recurse random_action
    else raise NotImplementedError
  else
    node ← strategy_getitem curr_player info_set;
    if negb (InfoSet.is_frozen node) then
      if is_leaf then
        let strategy := InfoSet.strategy node continuation in
        random_action ← choices strategy;
        incr_strategy_sum Self_strategy random_action curr_player info_set
      else
        for_each (λ _ a, recurse a) () state_valid_actions
    else raise NotImplementedError.

Fixpoint subgame_update_strategy (player : nat) (tree_node : TreeNode num) : M num unit :=
  match tree_node with
  | TNode state is_leaf children value =>
      match state with
      | Terminal _ => mret ()
      | Decision turn info_set successors =>
          subgame_update_strategy_node player turn info_set successors.*1 is_leaf
            (call_child ((λ '(a, next_tree_node),
                            (a, subgame_update_strategy player next_tree_node)) <$> children))
      end
  end.

(** *** traverse_tree and expected_utility *)

(** Lines 433-450: a non-terminal state, with the recursive calls passed
    in as [recurse]. Whatever the [try] block raises is replaced by
    [UserWarning]. *)
Definition traverse_tree_node (player : nat) (info_set : string)
    (valid_actions : list action) (recurse : action → M num (list num)) : M num (list num) :=
  try_except_raise
    (node_setdefault Node_map player info_set;;
     node ← read_node Node_map player info_set;
     let strategy := InfoSet.avg_strategy node in
     for_each (λ util a,
                 child ← recurse a;
                 p ← lift (getitem strategy a);
                 lift (np_iadd util (np_scale child p)))
              (np_zeros (num_players self)) valid_actions)
    UserWarning.

Fixpoint traverse_tree (state : State num) : M num (list num) :=
  log (Call_traverse_tree state);;
  match state with
  | Terminal payoff => mret payoff
  | Decision turn info_set successors =>
      traverse_tree_node turn info_set successors.*1
        (call_on ((λ '(a, new_state), (a, traverse_tree new_state)) <$> successors))
  end.

(** [itertools.permutations(l, r)]: the arrangements of [r] elements of
    [l], by position, in lexicographic order of the positions. *)
Fixpoint permutations {C : Type} (l : list C) (r : nat) : list (list C) :=
  match r with
  | 0 => [[]]
  | S r' =>
      i ← seq 0 (length l);
      match l !! i with
      | Some x => (x ::.) <$> permutations (delete i l) r'
      | None => []
      end
  end.

Section Cards.
Context {card : Type} `{!EqDecision card}.
(** [self.state(self.state_json)] once [state_json['cards']] is set: the
    root state of the game for a deal. *)
Variable self_state : list card → State num.

(** [[list(t) for t in set(permutations(cards, self.num_cards))]] *)
Definition all_combos (cards : list card) : list (list card) :=
  set_list (permutations cards (num_cards self)).

Definition expected_utility (cards : list card) : M num (list num) :=
  expected_utility ←
    for_each (λ expected_utility card,
                u ← traverse_tree (self_state card);
                lift (np_iadd expected_utility u))
             (np_zeros (num_players self)) (all_combos cards);
  mret (np_div expected_utility (of_Z (Z.of_nat (length (all_combos cards))))).

(** *** train *)

(** [.05] *)
Definition p05 : num := div (of_Z 5) (of_Z 100).

(** Lines 68-78, the body of the loop over the players. *)
Definition train_player (t : nat) (cards : list card) (_ : unit) (player : nat) : M num unit :=
  let state := self_state cards in
  (if decide (t `mod` strategy_interval = 0) then update_strategy player state else mret ());;
  if decide (prune_threshold < t) then
    will_prune ← random;
    if ltb will_prune p05 then mccfr player state false;; mret ()
    else mccfr player state true;; mret ()
  else mccfr player state false;; mret ().

(** Line 80, the guard of the call of [discount]. *)
Definition discount_due (t : nat) : bool :=
  bool_decide (t < lcfr_threshold) && bool_decide (t `mod` discount_interval = 0).

(** Lines 66-81, the body of the loop over [t]; [shuffle] permutes the
    list [cards] in place. *)
Definition train_iteration (cards : list card) (t : nat) : M num (list card) :=
  cards ← shuffle cards;
  for_each (train_player t cards) () (seq 0 (num_players self));;
  (if discount_due t then discount t else mret ());;
  mret cards.

(** Lines 63-83, without the report printed at the end. *)
Definition train (cards : list card) (iterations : nat) : M num (list num) :=
  cards ← for_each train_iteration cards (seq 1 iterations);
  expected_utility cards.
End Cards.
End MonteCarloCFR.

(** [random.choice(seq)] of Python's [random] module, on the generator
    state of [Random]: an element of the sequence, or the error raised on an
    empty one. *)
Class RandomChoice (num : Type) `{!Random num} := {
  random_choice : ∀ {C : Type}, rstate → list C → outcome C * rstate
}.

(** numpy's global generator, which has a state of its own:
    [np.random.random()]. *)
Class NumpyRandom (num : Type) := {
  np_rstate : Type;
  np_random_random : np_rstate → num * np_rstate
}.

Section SubgameSolve.
Context {num : Type} `{!Arith num} `{!Random num} `{!SetOrder}
        `{!RandomChoice num} `{!NumpyRandom num}.
Variable self : Config.

(** *** subgame_solve *)

(** [random.choice(seq)] *)
Definition choice {C : Type} (seq : list C) : M num C :=
  λ w, let '(o, g) := random_choice (rng w) seq in (o, set_rng g w).

(** Lines 229-238, the body of the loop over the players. The state of
    numpy's generator is passed along as the accumulator. *)
Definition subgame_solve_player (t : nat) (root : TreeNode num)
    (np : np_rstate) (player : nat) : M num np_rstate :=
  (if decide (t `mod` strategy_interval = 0)
   then subgame_update_strategy self player root else mret ());;
  if decide (prune_threshold < t) then
    let '(will_prune, np') := np_random_random np in
    if ltb will_prune p05 then subgame_mccfr self player root false;; mret np'
    else subgame_mccfr self player root true;; mret np'
  else subgame_mccfr self player root false;; mret np.

(** Lines 243-246, the body of the loop over the players of the discount:
    [self.strategy[player]] is a lookup in a [defaultdict], which makes an
    empty entry for a player without one; every node of the entry is
    scaled. *)
Definition subgame_discount_player (discount : num) (_ : unit) (player : nat) : M num unit :=
  modify (λ w, set_self_strategy
                 (<[player := discount_node discount <$> default ∅ (self_strategy w !! player)]>
                    (self_strategy w)) w).

(** Lines 227-246, the body of the loop over [t]; [nature_children] is the
    sequence [nature.children] of the roots to draw from. The factor of line
    241 is the expression of [discount]. *)
Definition subgame_solve_iteration (nature_children : list (TreeNode num))
    (np : np_rstate) (t : nat) : M num np_rstate :=
  root ← choice nature_children;
  np ← for_each (subgame_solve_player t root) np (seq 0 (num_players self));
  (if discount_due t
   then for_each (subgame_discount_player (discount_factor t)) () (seq 0 (num_players self))
   else mret ());;
  mret np.

(** Lines 224-248. [self.strategy] is replaced by an empty [defaultdict]
    and returned at the end; the argument [strategy] is not used. *)
Definition subgame_solve {S : Type} (nature_children : list (TreeNode num)) (strategy : S)
    (iterations : nat) (np : np_rstate)
    : M num (gmap nat (gmap string (InfoSet.t num)) * np_rstate) :=
  modify (set_self_strategy ∅);;
  np ← for_each (subgame_solve_iteration nature_children) np (seq 1 iterations);
  w ← get_world;
  mret (self_strategy w, np).
End SubgameSolve.

(** ** The command line (leduc/cfr/main.py) *)

Module Main.
Open Scope Z_scope.

(** [Card(rank, suit)] as the script builds it: the pair of its
    arguments. *)
Definition Card : Type := Z * Z.

(** The functions and classes a settings dictionary refers to. *)
Inductive hand_eval_fn := kuhn_eval | leduc_eval.
Inductive state_class := State | LeducState.

(** The settings dictionary handed to a trainer. *)
Record settings := {
  num_players : Z;
  num_actions : Z;
  hand_eval : hand_eval_fn;
  num_rounds : Z;
  num_raises : Z;
  raise_size : list Z;
  num_cards : Z;
  game : string;
  state : state_class
}.

(** The parsed arguments; an option without a default is [None] when it is
    not given. *)
Record args := {
  iterations : option Z;
  cfr : option Z;
  raises : Z;
  actions : Z;
  args_game : Z;
  mccfr : option Z
}.

(** What the script ends up running. *)
Inductive run :=
  | RegretMin_train (iterations : option Z)
  | VanillaCFR_train (s : settings) (cards : list Card) (iterations : option Z)
  | MonteCarloCFR_train (s : settings) (cards : list Card) (iterations : option Z)
  | print_help.

(** Lines 31-50 (and 59-78, 86-105, 114-133): the cards and the settings
    for a number of players. The list assigned to [cards] on line 111 is
    overwritten before it is used. *)
Definition setup (players : Z) (a : args) : settings * list Card :=
  if decide (args_game a = 1) then
    let cards : list Card :=
      if decide (players = 2)
      then [(12, 1); (13, 1); (14, 1); (12, 2); (13, 2); (14, 2)]
      else [(11, 1); (12, 1); (13, 1); (14, 1); (11, 2); (12, 2); (13, 2); (14, 2)] in
    let rounds := 2 in
    ({| num_players := players; num_actions := 3; hand_eval := leduc_eval;
        num_rounds := rounds; num_raises := 2; raise_size := [2; 4];
        num_cards := players + rounds - 1; game := "leduc"; state := LeducState |}, cards)
  else
    let cards : list Card :=
      if decide (players = 2)
      then [(12, 1); (13, 1); (14, 1)]
      else [(11, 1); (12, 1); (13, 1); (14, 1)] in
    let rounds := 1 in
    ({| num_players := players; num_actions := actions a; hand_eval := kuhn_eval;
        num_rounds := rounds; num_raises := 1; raise_size := [1];
        num_cards := players + rounds - 1; game := "kuhn"; state := State |}, cards).

(** Lines 21-139: the chain of tests on [args.cfr] and [args.mccfr]. *)
Definition main (a : args) : run :=
  if decide (cfr a = Some 0) then RegretMin_train (iterations a)
  else if decide (cfr a = Some 1) then
    let '(s, cards) := setup 2 a in VanillaCFR_train s cards (iterations a)
  else if decide (cfr a = Some 2) then
    let '(s, cards) := setup 3 a in VanillaCFR_train s cards (iterations a)
  else if decide (mccfr a = Some 1) then
    let '(s, cards) := setup 2 a in MonteCarloCFR_train s cards (iterations a)
  else if decide (mccfr a = Some 2) then
    let '(s, cards) := setup 3 a in MonteCarloCFR_train s cards (iterations a)
  else print_help.

(** The settings and the cards of a run, if it trains on a game. *)
Definition game_of (r : run) : option (settings * list Card) :=
  match r with
  | VanillaCFR_train s cards _ | MonteCarloCFR_train s cards _ => Some (s, cards)
  | RegretMin_train _ | print_help => None
  end.
End Main.

(** ** A replayed random generator

    The generator is replaced by two tapes of pre-drawn values: the floats
    [random()] returns and the integers [randbelow] returns. [choices] and
    [shuffle] are CPython's algorithms over them. *)

Section Replay.
Context {num : Type} `{!Arith num}.

Record tape := {
  uniforms : list num;
  indices : list nat
}.

Definition tape_random (g : tape) : num * tape :=
  match uniforms g with
  | x :: l => (x, {| uniforms := l; indices := indices g |})
  | [] => (zero, g)
  end.

(** [itertools.accumulate] *)
Fixpoint accumulate (acc : option num) (weights : list num) : list num :=
  match weights with
  | [] => []
  | x :: l =>
      let y := match acc with Some s => add s x | None => x end in
      y :: accumulate (Some y) l
  end.

(** [bisect.bisect(a, x, 0, hi)] on a non-decreasing [a] *)
Fixpoint bisect (a : list num) (x : num) (hi : nat) : nat :=
  match hi, a with
  | S hi', y :: a' => if ltb x y then 0 else S (bisect a' x hi')
  | _, _ => 0
  end.

Definition tape_choices (g : tape) (population : list action) (weights : list num)
    : outcome action * tape :=
  let cum_weights := accumulate None weights in
  if decide (length cum_weights = length population) then
    match last cum_weights with
    | None => (Raise IndexError, g)
    | Some s =>
        let total := add s zero in
        if leb total zero then (Raise ValueError, g)
        else if negb (isfinite total) then (Raise ValueError, g)
        else
          let '(x, g') := tape_random g in
          match population !! bisect cum_weights (mul x total) (length population - 1) with
          | Some a => (Return a, g')
          | None => (Raise IndexError, g')
          end
    end
  else (Raise ValueError, g).

(** [for i in reversed(range(1, len(x))): j = randbelow(i + 1); x[i], x[j] = x[j], x[i]] *)
Fixpoint tape_shuffle_from {C : Type} (i : nat) (js : list nat) (x : list C) : list C * list nat :=
  match i with
  | 0 => (x, js)
  | S i' =>
      let j := match js with j :: _ => j `mod` (S i) | [] => 0 end in
      let x' := match x !! i, x !! j with
                | Some xi, Some xj => <[j := xi]> (<[i := xj]> x)
                | _, _ => x
                end in
      tape_shuffle_from i' (tail js) x'
  end.

Definition tape_shuffle {C : Type} (g : tape) (x : list C) : list C * tape :=
  let '(x', js) := tape_shuffle_from (length x - 1) (indices g) x in
  (x', {| uniforms := uniforms g; indices := js |}).

Definition replay : Random num := {|
  rstate := tape;
  random_choices := tape_choices;
  random_random := tape_random;
  random_shuffle := @tape_shuffle
|}.
End Replay.
Arguments tape num : clear implicits.
Arguments replay num {_}.

(** The replayed generators of sub-game solving: [random.choice] takes its
    index from the tape of integers, numpy's generator is a tape of
    floats. *)
Section ReplayChoice.
Context {num : Type} `{!Arith num}.

(** [seq[randbelow(len(seq))]], [IndexError] on an empty sequence. *)
Definition tape_choice {C : Type} (g : tape num) (seq : list C) : outcome C * tape num :=
  match seq with
  | [] => (Raise IndexError, g)
  | _ =>
      let j := match indices g with j :: _ => j `mod` length seq | [] => 0 end in
      match seq !! j with
      | Some x => (Return x, {| uniforms := uniforms g; indices := tail (indices g) |})
      | None => (Raise IndexError, g)
      end
  end.

Definition replay_choice : @RandomChoice num (replay num) :=
  @Build_RandomChoice num (replay num) (@tape_choice).

Definition np_tape_random (l : list num) : num * list num :=
  match l with
  | x :: l' => (x, l')
  | [] => (zero, [])
  end.

Definition np_replay : NumpyRandom num := {|
  np_rstate := list num;
  np_random_random := np_tape_random
|}.
End ReplayChoice.

(** ** Two orders of listing a set

    A set that lists its elements in the order they first came in, and one
    that lists them the other way round. *)

Definition first_seen : SetOrder := {|
  set_list := λ A _ l, remove_dups l;
  set_list_perm := λ A _ l, reflexivity (remove_dups l)
|}.

Definition last_seen : SetOrder := {|
  set_list := λ A _ l, reverse (remove_dups l);
  set_list_perm := λ A _ l, reverse_Permutation (remove_dups l)
|}.

(** ** Concrete inputs

    A two-player game with the actions pass ([P]) and bet ([B]), run on
    binary64 with a replayed generator. *)

Module Ex.
Open Scope string_scope.
Open Scope float_scope.

#[export] Instance arith : Arith float := binary64.
#[export] Instance gen : Random float := replay float.
#[export] Instance order : SetOrder := first_seen.

Definition cfg : Config := {| num_players := 2; actions := ["P"; "B"]; num_cards := 2 |}.

(** Player 0 holds the king: after a pass player 1 acts, a bet ends the
    hand. *)
Definition after_pass : State float :=
  Decision 1 "Qp" [("P", Terminal [1; -1]); ("B", Terminal [2; -2])].
Definition root : State float :=
  Decision 0 "K" [("P", after_pass); ("B", Terminal [2; -2])].

(** The world of an object that has not trained, with the floats [us] and
    the integers [js] on the generator's tapes. *)
Definition fresh (us : list float) (js : list nat) : World float :=
  {| node_map := ∅; self_strategy := ∅;
     rng := {| uniforms := us; indices := js |}; calls := [] |}.

(** An object that has trained: at [K] the regret of a pass is below the
    pruning floor and the regret of a bet is negative. *)
Definition floor_node : InfoSet.t float :=
  {| InfoSet.regret_sum := {[ "P" := -300001; "B" := -5 ]};
     InfoSet.strategy_sum := {[ "P" := 0; "B" := 0 ]};
     InfoSet.is_frozen := false;
     InfoSet.regret_sum_plain := false;
     InfoSet.strategy_sum_plain := false |}.
Definition floored : World float :=
  {| node_map := {[ 0%nat := {[ "K" := floor_node ]} ]}; self_strategy := ∅;
     rng := {| uniforms := []; indices := [] |}; calls := [] |}.

(** Sub-game solving: the node of player 1 after a pass is frozen in
    [self.strategy]; the tree node for that state is a leaf of the tree. *)
Definition frozen_node : InfoSet.t float :=
  {| InfoSet.regret_sum := {[ "P" := 0; "B" := 0 ]};
     InfoSet.strategy_sum := {[ "P" := 0; "B" := 0 ]};
     InfoSet.is_frozen := true;
     InfoSet.regret_sum_plain := false;
     InfoSet.strategy_sum_plain := false |}.
Definition resolving : World float :=
  {| node_map := ∅; self_strategy := {[ 1%nat := {[ "Qp" := frozen_node ]} ]};
     rng := {| uniforms := [0.25]; indices := [] |}; calls := [] |}.
Definition leaf : TreeNode float := TNode after_pass true [] (λ _ _ _, [0; 0]).

(** A one-player object whose only node has the sums [x] for the action
    [B], in plain dictionaries as [discount] leaves them. *)
Definition solo : Config := {| num_players := 1; actions := ["B"]; num_cards := 1 |}.
Definition counted (x : float) : World float :=
  {| node_map := {[ 0%nat := {[ "K" := {| InfoSet.regret_sum := {[ "B" := x ]};
                                           InfoSet.strategy_sum := {[ "B" := x ]};
                                           InfoSet.is_frozen := false;
                                           InfoSet.regret_sum_plain := true;
                                           InfoSet.strategy_sum_plain := true |} ]} ]};
     self_strategy := ∅;
     rng := {| uniforms := []; indices := [] |}; calls := [] |}.
End Ex.

(** The same object over exact rationals. *)
Module ExQ.
Open Scope string_scope.
Open Scope Q_scope.

#[export] Instance arith : Arith Q := exact.
#[export] Instance gen : Random Q := replay Q.
#[export] Instance order : SetOrder := first_seen.

Definition counted (x : Q) : World Q :=
  {| node_map := {[ 0%nat := {[ "K" := {| InfoSet.regret_sum := {[ "B" := x ]};
                                           InfoSet.strategy_sum := {[ "B" := x ]};
                                           InfoSet.is_frozen := false;
                                           InfoSet.regret_sum_plain := true;
                                           InfoSet.strategy_sum_plain := true |} ]} ]};
     self_strategy := ∅;
     rng := {| uniforms := []; indices := [] |}; calls := [] |}.
End ExQ.

(** Further concrete inputs. *)
Module Edge.
Import Ex.
Open Scope string_scope.
Open Scope float_scope.

#[export] Instance choice_gen : @RandomChoice float Ex.gen := @replay_choice float Ex.arith.
#[export] Instance np_gen : NumpyRandom float := @np_replay float Ex.arith.

(** At [K] both regrets are at or below the pruning floor. *)
Definition all_floor_node : InfoSet.t float :=
  {| InfoSet.regret_sum := {[ "P" := -300001; "B" := -300000 ]};
     InfoSet.strategy_sum := {[ "P" := 0; "B" := 0 ]};
     InfoSet.is_frozen := false;
     InfoSet.regret_sum_plain := false;
     InfoSet.strategy_sum_plain := false |}.
Definition all_floored : World float :=
  {| node_map := {[ 0%nat := {[ "K" := all_floor_node ]} ]}; self_strategy := ∅;
     rng := {| uniforms := []; indices := [] |}; calls := [] |}.

(** At [K] both regrets are finite and their sum overflows. *)
Definition huge_node : InfoSet.t float :=
  {| InfoSet.regret_sum := {[ "P" := 0x1p+1023; "B" := 0x1p+1023 ]};
     InfoSet.strategy_sum := {[ "P" := 0; "B" := 0 ]};
     InfoSet.is_frozen := false;
     InfoSet.regret_sum_plain := false;
     InfoSet.strategy_sum_plain := false |}.
Definition overflowed : World float :=
  {| node_map := {[ 0%nat := {[ "K" := huge_node ]} ]}; self_strategy := ∅;
     rng := {| uniforms := []; indices := [] |}; calls := [] |}.

(** A hand that depends on the deal: player 0 acts once, at an
    information set named after their card, and wins when their card is
    the higher one. *)
Definition showdown (deal : list nat) : State float :=
  match deal with
  | [c0; c1] =>
      Decision 0 (match c0 with 1%nat => "J" | 2%nat => "Q" | _ => "K" end)
        (if (c1 <? c0)%nat
         then [("P", Terminal [1; -1]); ("B", Terminal [2; -2])]
         else [("P", Terminal [-1; 1]); ("B", Terminal [-1; 1])])
  | _ => Terminal [0; 0]
  end.

(** A game that ends at once, with a payoff that depends on the deal: very
    large for one deal, the opposite for another, 1 for the others. *)
Definition lopsided (deal : list nat) : State float :=
  match deal with
  | [1%nat; 2%nat] => Terminal [1e16; -1e16]
  | [2%nat; 1%nat] => Terminal [-1e16; 1e16]
  | _ => Terminal [1; -1]
  end.

(** A game whose payoff vectors have three entries, for an object of two
    players. *)
Definition misshapen : State float := Terminal [1; 2; 3].

(** [main.py -m 1 -i 1000]: MCCFR on two-player Kuhn poker. *)
Definition kuhn_mccfr : Main.args :=
  {| Main.iterations := Some 1000%Z; Main.cfr := None; Main.raises := 1%Z;
     Main.actions := 2%Z; Main.args_game := 0%Z; Main.mccfr := Some 1%Z |}.
End Edge.

(** The game of [Ex] over exact rationals. *)
Module EdgeQ.
Import ExQ.
Open Scope string_scope.
Open Scope Q_scope.

Definition after_pass : State Q :=
  Decision 1 "Qp" [("P", Terminal [1; -1]); ("B", Terminal [2; -2])].
Definition root : State Q :=
  Decision 0 "K" [("P", after_pass); ("B", Terminal [2; -2])].
Definition fresh (us : list Q) (js : list nat) : World Q :=
  {| node_map := ∅; self_strategy := ∅;
     rng := {| uniforms := us; indices := js |}; calls := [] |}.
End EdgeQ.

(** ** Relations used to state the properties *)

(** [substate s st]: [s] is [st] or lies below one of its successors. *)
Inductive substate {num : Type} : State num → State num → Prop :=
  | substate_refl st : substate st st
  | substate_step s turn info_set successors a new_state :
      (a, new_state) ∈ successors →
      substate s new_state →
      substate s (Decision turn info_set successors).

Section Relations.
Context {num : Type} `{!Arith num} `{!Random num} `{!SetOrder}.

(** A computation keeps a relation between the world it starts in and the
    world it leaves, whether it returns or raises. *)
Definition preserves (R : World num → World num → Prop) {A : Type} (m : M num A) : Prop :=
  ∀ w, R w (m w).2.

(** The call log grows by calls that satisfy [Q]; nothing is said of the
    other fields. *)
Definition logs (Q : call num → Prop) (w w' : World num) : Prop :=
  ∃ l, calls w' = calls w ++ l ∧ Forall Q l.

(** The nodes of the players other than [player] are as they were, or
    have been created. *)
Definition others_kept (self : Config) (player : nat) (w w' : World num) : Prop :=
  ∀ p i, p ≠ player →
    lookup_node (node_map w') p i = lookup_node (node_map w) p i ∨
    (lookup_node (node_map w) p i = None ∧
     lookup_node (node_map w') p i = Some (InfoSet.new (actions self))).

(** The players the loop of [discount] gets to: those that come before the
    first one without an entry in the node map. *)
Fixpoint reached (m : gmap nat (gmap string (InfoSet.t num))) (players : list nat)
    : list nat :=
  match players with
  | [] => []
  | p :: l => match m !! p with Some _ => p :: reached m l | None => [] end
  end.

(** The iterations of the calls of [discount] in a log. *)
Definition discount_calls (l : list (call num)) : list nat :=
  omap (λ c, match c with Call_discount t => Some t | _ => None end) l.
Definition not_discount (c : call num) : Prop :=
  match c with Call_discount _ => False | _ => True end.

Definition mccfr_within (st : State num) (c : call num) : Prop :=
  ∃ s, c = Call_mccfr s ∧ substate s st.
Definition update_strategy_within (st : State num) (c : call num) : Prop :=
  ∃ s, c = Call_update_strategy s ∧ substate s st.
(** A run of the first loop of a node of the traversing player over the
    actions [l], from the world [w] to the world [w']: an action is passed
    over when pruning is on and [node.regret_sum[a]], read in the world of
    its turn, is not above the floor, and is otherwise visited, [recurse]
    returning its utility vector. [visits] lists the visited actions with
    their vectors. *)
Inductive explore_run (s : store) (prune : bool) (curr_player : nat) (info_set : string)
    (recurse : action → M num (list num))
    : list action → World num → list (action * list num) → World num → Prop :=
  | explore_done w : explore_run s prune curr_player info_set recurse [] w [] w
  | explore_skip a l w node regret visits w' :
      prune = true →
      lookup_node (get_store s w) curr_player info_set = Some node →
      InfoSet.regret_sum_getitem node a = Return regret →
      ltb (of_Z regret_minimum) regret = false →
      explore_run s prune curr_player info_set recurse l w visits w' →
      explore_run s prune curr_player info_set recurse (a :: l) w visits w'
  | explore_visit a l w calculated_util w1 visits w' :
      (prune = true →
       ∃ node regret,
         lookup_node (get_store s w) curr_player info_set = Some node ∧
         InfoSet.regret_sum_getitem node a = Return regret ∧
         ltb (of_Z regret_minimum) regret = true) →
      recurse a w = (Return calculated_util, w1) →
      explore_run s prune curr_player info_set recurse l w1 visits w' →
      explore_run s prune curr_player info_set recurse (a :: l) w
        ((a, calculated_util) :: visits) w'.

(** [expected_value += calculated_util * strategy[a]] over the visits, in
    order. *)
Fixpoint weighted_sum (strategy : action → outcome num) (expected_value : list num)
    (visits : list (action * list num)) : outcome (list num) :=
  match visits with
  | [] => Return expected_value
  | (a, calculated_util) :: visits' =>
      match strategy a with
      | Return p =>
          match np_iadd expected_value (np_scale calculated_util p) with
          | Return expected_value' => weighted_sum strategy expected_value' visits'
          | Raise e => Raise e
          end
      | Raise e => Raise e
      end
  end.

(** [utilities[a] = calculated_util[curr_player]] over the visits. *)
Definition utilities_of (curr_player : nat) (utilities : gmap action num)
    (visits : list (action * list num)) : gmap action num :=
  foldl (λ U v, match v.2 !! curr_player with Some u => <[v.1 := u]> U | None => U end)
        utilities visits.

(** What the second loop, when it returns, has done to the node for the
    action [a]: the entry of [regret_sum] at [a] is its value plus
    [utilities[a] - expected_value[curr_player]] when [a] was explored or
    pruning is off. *)
Definition regret_step (prune : bool) (curr_player : nat) (utilities : gmap action num)
    (expected_value : list num) (explored : gset action)
    (node : InfoSet.t num) (a : action) : InfoSet.t num :=
  if prune && negb (bool_decide (a ∈ explored)) then node
  else match utilities !! a, expected_value !! curr_player with
       | Some u, Some v =>
           InfoSet.regret_sum_setitem a (add (InfoSet.regret node a) (sub u v)) node
       | _, _ => node
       end.

(** The probabilities [strategy[a]] of the visited actions. *)
Definition weights_of (strategy : action → outcome num) (visits : list (action * list num))
    : list num :=
  (λ v, match strategy v.1 with Return p => p | Raise _ => zero end) <$> visits.

(** Sub-game solving keeps the nodes of [self.strategy]: a node stays, with
    its flag, and a frozen node stays as it is. *)
Definition frozen_kept (w w' : World num) : Prop :=
  ∀ p i node,
    lookup_node (self_strategy w) p i = Some node →
    ∃ node', lookup_node (self_strategy w') p i = Some node' ∧
             InfoSet.is_frozen node' = InfoSet.is_frozen node ∧
             (InfoSet.is_frozen node = true → node' = node).

(** The node of [self.strategy] at a key is there and is not frozen. *)
Definition unfrozen (p : nat) (i : string) (w : World num) : Prop :=
  ∃ node, lookup_node (self_strategy w) p i = Some node ∧ InfoSet.is_frozen node = false.

(** A computation keeps a relation when it starts in a world that satisfies
    [I]. *)
Definition keeps (I : World num → Prop) (R : World num → World num → Prop)
    {A : Type} (m : M num A) : Prop :=
  ∀ w, I w → R w (m w).2.

(** [f] run on the elements of [l] in order, each call returning: the
    values returned and the world left. *)
Inductive seq_run {A B : Type} (f : A → M num B)
    : list A → World num → list B → World num → Prop :=
  | seq_run_nil w : seq_run f [] w [] w
  | seq_run_cons x l w b w1 bs w' :
      f x w = (Return b, w1) →
      seq_run f l w1 bs w' →
      seq_run f (x :: l) w (b :: bs) w'.

(** What numpy adds to the entry [k] of a vector when it adds [v] to it:
    the entry [k] of [v], or the only entry of a [v] of one entry
    (broadcasting). *)
Definition entry (k : nat) (v : list num) : option num :=
  match v with
  | [x] => Some x
  | _ => v !! k
  end.

(** [acc += u] over the vectors [us], in order. *)
Fixpoint np_sum (acc : list num) (us : list (list num)) : outcome (list num) :=
  match us with
  | [] => Return acc
  | u :: us' =>
      match np_iadd acc u with
      | Return acc' => np_sum acc' us'
      | Raise e => Raise e
      end
  end.

End Relations.

(** ** Relations used to state the further properties *)

Section Footprints.
Context {num : Type} `{!Arith num} `{!Random num} `{!SetOrder}.
Variable self : Config.

(** The node at a key, an absent one counting as the node [setdefault]
    would create there. *)
Definition node_or_new (m : gmap nat (gmap string (InfoSet.t num)))
    (p : nat) (i : string) : InfoSet.t num :=
  default (InfoSet.new (actions self)) (lookup_node m p i).

(** No node of [self.node_map] is removed, and the node at every key is
    related by [P] to what it was. *)
Definition nodes_related (P : nat → InfoSet.t num → InfoSet.t num → Prop)
    (w w' : World num) : Prop :=
  ∀ p i,
    (is_Some (lookup_node (node_map w) p i) → is_Some (lookup_node (node_map w') p i)) ∧
    P p (node_or_new (node_map w) p i) (node_or_new (node_map w') p i).

(** Both mappings of the node are the objects they were: none has been
    replaced by a plain dictionary. *)
Definition same_mappings (node node' : InfoSet.t num) : Prop :=
  InfoSet.regret_sum_plain node' = InfoSet.regret_sum_plain node ∧
  InfoSet.strategy_sum_plain node' = InfoSet.strategy_sum_plain node.
(** What a traversal by [player] may do to a node of the player [p]. *)
Definition regret_sum_only (player p : nat) (node node' : InfoSet.t num) : Prop :=
  InfoSet.strategy_sum node' = InfoSet.strategy_sum node ∧
  InfoSet.is_frozen node' = InfoSet.is_frozen node ∧
  same_mappings node node' ∧
  (p ≠ player → node' = node).
Definition strategy_sum_only (player p : nat) (node node' : InfoSet.t num) : Prop :=
  InfoSet.regret_sum node' = InfoSet.regret_sum node ∧
  InfoSet.is_frozen node' = InfoSet.is_frozen node ∧
  same_mappings node node' ∧
  (p ≠ player → node' = node).
Definition unchanged (p : nat) (node node' : InfoSet.t num) : Prop := node' = node.
Definition strategy_sum_kept (p : nat) (node node' : InfoSet.t num) : Prop :=
  InfoSet.strategy_sum node' = InfoSet.strategy_sum node ∧
  InfoSet.is_frozen node' = InfoSet.is_frozen node ∧
  InfoSet.strategy_sum_plain node' = InfoSet.strategy_sum_plain node.

(** The calls that training makes between two updates of the strategy
    sums. *)
Definition mccfr_or_traverse_tree (c : call num) : Prop :=
  match c with
  | Call_mccfr _ | Call_traverse_tree _ => True
  | Call_update_strategy _ | Call_discount _ => False
  end.

(** The fields the methods of training do not touch or only read. *)
Definition same_self_strategy (w w' : World num) : Prop :=
  self_strategy w' = self_strategy w.
Definition same_rng (w w' : World num) : Prop := rng w' = rng w.
End Footprints.

(** [n * (n-1) * ... * (n-r+1)]: the number of arrangements of [r] out of
    [n] things. *)
Fixpoint arrangements (n r : nat) : nat :=
  match r with
  | 0 => 1
  | S r' => n * arrangements (n - 1) r'
  end.

Section SubgameRelations.
Context {num : Type} `{!Arith num} `{!Random num} `{!SetOrder}.

(** No node of [self.strategy] is frozen. *)
Definition all_unfrozen (w : World num) : Prop :=
  ∀ p i node, lookup_node (self_strategy w) p i = Some node → InfoSet.is_frozen node = false.

(** A property of the world that holds afterwards if it held before. *)
Definition stable (I : World num → Prop) (w w' : World num) : Prop := I w → I w'.

(** Sub-game solving leaves the trained node map and the call log alone. *)
Definition same_node_map (w w' : World num) : Prop :=
  node_map w' = node_map w ∧ calls w' = calls w.
End SubgameRelations.

Section WellFormed.
Context {num : Type} `{!Arith num} `{!Random num} `{!SetOrder}.

(** A game tree the traversals of an [n]-player object can walk: every
    payoff vector has [n] entries, whoever acts is one of the [n] players,
    and a decision has at least one legal action. *)
Fixpoint well_formed (n : nat) (state : State num) : bool :=
  match state with
  | Terminal payoff => bool_decide (length payoff = n)
  | Decision turn _ successors =>
      bool_decide (turn < n) && bool_decide (successors ≠ []) &&
      forallb (λ '(_, new_state), well_formed n new_state) successors
  end.

(** What the traversals rely on in [random.choices(population, weights)]:
    on a population that is not empty, with one weight for each member, the
    call returns a member of the population, or raises [ValueError] (which
    CPython does when the total of the weights is not positive or not
    finite). *)
Definition sampler_sound : Prop :=
  ∀ (g : rstate) (population : list action) (weights : list num),
    population ≠ [] → length weights = length population →
    match random_choices g population weights with
    | (Return a, _) => a ∈ population
    | (Raise e, _) => e = ValueError
    end.

(** No mapping of a node of the node map has been replaced by a plain
    dictionary: [discount] has not run on the node. *)
Definition never_discounted (w : World num) : Prop :=
  ∀ p i node,
    lookup_node (node_map w) p i = Some node →
    InfoSet.regret_sum_plain node = false ∧ InfoSet.strategy_sum_plain node = false.

(** A computation started in [w] returns a value and a world that satisfy
    [Q], or raises an exception that satisfies [E]. *)
Definition ends (E : exn → Prop) {A : Type} (m : M num A) (w : World num)
    (Q : A → World num → Prop) : Prop :=
  match m w with
  | (Return a, w') => Q a w'
  | (Raise e, _) => E e
  end.
End WellFormed.

Section Registered.
Context {num : Type} `{!Arith num} `{!Random num} `{!SetOrder}.

(** The information set of a logged call on a decision state has a node in
    the node map of the world. *)
Definition registered (w : World num) (c : call num) : Prop :=
  match c with
  | Call_mccfr (Decision turn info_set _)
  | Call_update_strategy (Decision turn info_set _)
  | Call_traverse_tree (Decision turn info_set _) =>
      is_Some (lookup_node (node_map w) turn info_set)
  | _ => True
  end.

(** No node is removed, and every call logged since has its information set
    in the node map. *)
Definition visits_registered (w w' : World num) : Prop :=
  (∀ p i, is_Some (lookup_node (node_map w) p i) → is_Some (lookup_node (node_map w') p i)) ∧
  ∃ l, calls w' = calls w ++ l ∧ Forall (registered w') l.
End Registered.

(** The sub-game tree without what hangs below its leaves. *)
Fixpoint trim {num : Type} (tree_node : TreeNode num) : TreeNode num :=
  match tree_node with
  | TNode state is_leaf children value =>
      TNode state is_leaf
            (if is_leaf then [] else (λ '(a, child), (a, trim child)) <$> children)
            value
  end.

(** The sum of the entries of a utility vector, and the game trees all of
    whose payoff vectors sum to zero, over the rationals. *)
Definition vsum (v : list Q) : Q := foldr Qplus 0%Q v.

Fixpoint zero_sum (state : State Q) : bool :=
  match state with
  | Terminal payoff => Qeq_bool (vsum payoff) 0
  | Decision _ _ successors => forallb (λ '(_, new_state), zero_sum new_state) successors
  end.

(** * Properties *)

Section Basics.
Context {num : Type} `{!Arith num} `{!Random num} `{!SetOrder}.
Variable self : Config.

Lemma State_rect' (P : State num → Prop) :
  (∀ payoff, P (Terminal payoff)) →
  (∀ turn info_set successors,
      Forall (λ p, P p.2) successors → P (Decision turn info_set successors)) →
  ∀ st, P st.
Proof.
  intros Hterm Hdec. fix IH 1. intros [payoff | turn info_set successors].
  - apply Hterm.
  - apply Hdec. induction successors as [| [a s] l IHl]; constructor; [apply IH | exact IHl].
Qed.

Lemma substate_successor (s : State num) turn info_set successors a new_state :
  assoc successors a = Some new_state →
  substate s new_state → substate s (Decision turn info_set successors).
Proof.
  intros Ha Hs. eapply substate_step; [| exact Hs].
  induction successors as [| [a' s'] l IHl]; simpl in Ha; [done |].
  destruct (decide (a' = a)) as [-> | Hne].
  - injection Ha as ->. left.
  - right. by apply IHl.
Qed.

Lemma mccfr_unfold player (st : State num) prune :
  mccfr self player st prune
  = (log (Call_mccfr st) ≫= λ _,
     match st with
     | Terminal payoff => mret payoff
     | Decision turn info_set successors =>
         mccfr_node self player prune turn info_set successors.*1
           (call_on ((λ '(a, new_state), (a, mccfr self player new_state prune)) <$> successors))
     end).
Proof. by destruct st. Qed.

Lemma update_strategy_unfold player (st : State num) :
  update_strategy self player st
  = (log (Call_update_strategy st) ≫= λ _,
     match st with
     | Terminal _ => mret ()
     | Decision turn info_set successors =>
         update_strategy_node self player turn info_set successors.*1
           (call_on ((λ '(a, new_state), (a, update_strategy self player new_state)) <$> successors))
     end).
Proof. by destruct st. Qed.

Lemma traverse_tree_unfold (st : State num) :
  traverse_tree self st
  = (log (Call_traverse_tree st) ≫= λ _,
     match st with
     | Terminal payoff => mret payoff
     | Decision turn info_set successors =>
         traverse_tree_node self turn info_set successors.*1
           (call_on ((λ '(a, new_state), (a, traverse_tree self new_state)) <$> successors))
     end).
Proof. by destruct st. Qed.

(** *** Running a computation *)

Lemma bind_Return {A B} (m : M num A) (k : A → M num B) w a w' :
  m w = (Return a, w') → (m ≫= k) w = k a w'.
Proof. intros Hm. unfold mbind, M_bind, bind. by rewrite Hm. Qed.

Lemma bind_Raise {A B} (m : M num A) (k : A → M num B) w e w' :
  m w = (Raise e, w') → (m ≫= k) w = (Raise e, w').
Proof. intros Hm. unfold mbind, M_bind, bind. by rewrite Hm. Qed.

Lemma bind_run {A B} (m : M num A) (k : A → M num B) w :
  (m ≫= k) w = match m w with
               | (Return a, w') => k a w'
               | (Raise e, w') => (Raise e, w')
               end.
Proof. done. Qed.

Lemma for_each_cons {A B} (body : B → A → M num B) acc x l :
  for_each body acc (x :: l) = body acc x ≫= λ acc', for_each body acc' l.
Proof. done. Qed.

Lemma for_each_ext {A B} (f g : B → A → M num B) acc l w :
  (∀ acc x w, x ∈ l → f acc x w = g acc x w) →
  for_each f acc l w = for_each g acc l w.
Proof.
  revert acc w. induction l as [| x l IH]; intros acc w Hfg; [done |].
  simpl. rewrite !bind_run, Hfg by left.
  destruct (g acc x w) as [[acc' | e] w']; [| done].
  apply IH. intros acc'' y w'' Hy. apply Hfg. by right.
Qed.

Lemma read_node_Some s player info_set (w : World num) node :
  lookup_node (get_store s w) player info_set = Some node →
  read_node s player info_set w = (Return node, w).
Proof. intros Hnode. unfold read_node. erewrite bind_Return by done. by rewrite Hnode. Qed.

Lemma read_node_None s player info_set (w : World num) :
  lookup_node (get_store s w) player info_set = None →
  read_node s player info_set w = (Raise KeyError, w).
Proof. intros Hnode. unfold read_node. erewrite bind_Return by done. by rewrite Hnode. Qed.

Lemma get_set_store s m (w : World num) : get_store s (set_store s m w) = m.
Proof. by destruct s. Qed.

Lemma set_set_store s m m' (w : World num) :
  set_store s m' (set_store s m w) = set_store s m' w.
Proof. by destruct s. Qed.

Lemma set_get_store s (w : World num) : set_store s (get_store s w) w = w.
Proof. by destruct s, w. Qed.

(** *** The node maps *)

Lemma lookup_setdefault_eq player info_set (m : gmap nat (gmap string (InfoSet.t num))) :
  lookup_node (setdefault self player info_set m) player info_set
  = Some (default (InfoSet.new (actions self)) (lookup_node m player info_set)).
Proof.
  unfold setdefault, lookup_node.
  destruct (m !! player) as [pn |] eqn:Hp; simpl.
  - destruct (pn !! info_set) as [n |] eqn:Hi; simpl.
    + rewrite Hp. simpl. by rewrite Hi.
    + rewrite lookup_insert_eq. simpl. by rewrite lookup_insert_eq.
  - rewrite lookup_insert_eq. simpl. by rewrite lookup_singleton_eq.
Qed.

Lemma lookup_setdefault_ne player info_set p i (m : gmap nat (gmap string (InfoSet.t num))) :
  (p, i) ≠ (player, info_set) →
  lookup_node (setdefault self player info_set m) p i = lookup_node m p i.
Proof.
  intros Hne. unfold setdefault, lookup_node.
  destruct (m !! player) as [pn |] eqn:Hp; simpl.
  - destruct (pn !! info_set) as [n |] eqn:Hi; simpl; [done |].
    destruct (decide (p = player)) as [-> | Hp'].
    + rewrite lookup_insert_eq, Hp. simpl. rewrite lookup_insert_ne; [done | congruence].
    + by rewrite lookup_insert_ne.
  - destruct (decide (p = player)) as [-> | Hp'].
    + rewrite lookup_insert_eq, Hp. simpl. rewrite lookup_singleton_ne; [done | congruence].
    + by rewrite lookup_insert_ne.
Qed.

Lemma setdefault_present player info_set node (m : gmap nat (gmap string (InfoSet.t num))) :
  lookup_node m player info_set = Some node → setdefault self player info_set m = m.
Proof.
  unfold setdefault, lookup_node. destruct (m !! player) as [pn |]; simpl; [| done].
  by intros ->.
Qed.

Lemma lookup_alter_node_eq f player info_set (m : gmap nat (gmap string (InfoSet.t num))) :
  lookup_node (alter_node f player info_set m) player info_set
  = f <$> lookup_node m player info_set.
Proof.
  unfold alter_node, lookup_node. rewrite lookup_alter_eq.
  destruct (m !! player) as [pn |]; simpl; [| done]. by rewrite lookup_alter_eq.
Qed.

Lemma lookup_alter_node_ne f player info_set p i (m : gmap nat (gmap string (InfoSet.t num))) :
  (p, i) ≠ (player, info_set) →
  lookup_node (alter_node f player info_set m) p i = lookup_node m p i.
Proof.
  intros Hne. unfold alter_node, lookup_node.
  destruct (decide (p = player)) as [-> | Hp].
  - rewrite lookup_alter_eq. destruct (m !! player) as [pn |]; simpl; [| done].
    rewrite lookup_alter_ne; [done | congruence].
  - by rewrite lookup_alter_ne.
Qed.
End Basics.

(** *** The order of the numbers *)

Lemma SFcompare_antisym (x y : SpecFloat.spec_float) :
  SpecFloat.SFcompare y x = option_map CompOpp (SpecFloat.SFcompare x y).
Proof.
  destruct x as [sx | sx | | sx mx ex], y as [sy | sy | | sy my ey]; simpl;
    try destruct sx; try destruct sy; try reflexivity.
  - rewrite (Z.compare_antisym ex ey). destruct (ex ?= ey)%Z; simpl; try reflexivity.
    change (Pos.compare_cont Eq my mx) with (Pos.compare my mx).
    change (Pos.compare_cont Eq mx my) with (Pos.compare mx my).
    by rewrite (Pos.compare_antisym mx my).
  - rewrite (Z.compare_antisym ex ey). destruct (ex ?= ey)%Z; simpl; try reflexivity.
    change (Pos.compare_cont Eq my mx) with (Pos.compare my mx).
    change (Pos.compare_cont Eq mx my) with (Pos.compare mx my).
    by rewrite (Pos.compare_antisym mx my).
Qed.

Lemma binary64_order : @ArithOrder float binary64.
Proof.
  split. intros x y. simpl. rewrite FloatAxioms.leb_spec, FloatAxioms.ltb_spec.
  unfold SpecFloat.SFleb, SpecFloat.SFltb.
  rewrite (SFcompare_antisym (FloatOps.Prim2SF x) (FloatOps.Prim2SF y)).
  by destruct (SpecFloat.SFcompare _ _) as [[] |].
Qed.

Lemma exact_order : @ArithOrder Q exact.
Proof. split. intros x y. simpl. by intros ->. Qed.

(** *** Relations kept by the monad's combinators *)

Section Preserves.
Context {num : Type} `{!Arith num} `{!Random num} `{!SetOrder}.
Variable R : World num → World num → Prop.
Context `{!PreOrder R}.

Lemma preserves_ret {A} (a : A) : preserves R (mret a : M num A).
Proof. intros w. simpl. reflexivity. Qed.

Lemma preserves_raise {A} e : preserves R (raise e : M num A).
Proof. intros w. simpl. reflexivity. Qed.

Lemma preserves_lift {A} (o : outcome A) : preserves R (lift o : M num A).
Proof. intros w. simpl. reflexivity. Qed.

Lemma preserves_get_world : preserves R (get_world : M num (World num)).
Proof. intros w. simpl. reflexivity. Qed.

Lemma preserves_bind {A B} (m : M num A) (k : A → M num B) :
  preserves R m → (∀ a, preserves R (k a)) → preserves R (m ≫= k).
Proof.
  intros Hm Hk w. unfold mbind, M_bind, bind. specialize (Hm w).
  destruct (m w) as [[a | e] w1]; simpl in *; [| done].
  etrans; [exact Hm | apply Hk].
Qed.

Lemma preserves_try {A} (m : M num A) e :
  preserves R m → preserves R (try_except_raise m e).
Proof.
  intros Hm w. unfold try_except_raise. specialize (Hm w).
  by destruct (m w) as [[a | e'] w1].
Qed.

Lemma preserves_for_each {A B} (body : B → A → M num B) acc l :
  (∀ acc x, x ∈ l → preserves R (body acc x)) → preserves R (for_each body acc l).
Proof.
  revert acc. induction l as [| x l IH]; intros acc Hbody; simpl.
  - apply preserves_ret.
  - apply preserves_bind; [apply Hbody; left |].
    intros acc'. apply IH. intros acc'' y Hy. apply Hbody. by right.
Qed.

Lemma preserves_call_on {B} (successors : list (action * M num B)) a :
  (∀ m, assoc successors a = Some m → preserves R m) →
  preserves R (call_on successors a).
Proof.
  intros Hm. unfold call_on. destruct (assoc successors a); [by apply Hm | apply preserves_raise].
Qed.

Lemma preserves_call_child {B} (children : list (action * M num B)) a :
  (∀ m, assoc children a = Some m → preserves R m) →
  preserves R (call_child children a).
Proof.
  intros Hm. unfold call_child. destruct (assoc children a); [by apply Hm | apply preserves_raise].
Qed.

Lemma preserves_read_node s player info_set : preserves R (read_node s player info_set).
Proof.
  unfold read_node. apply preserves_bind; [apply preserves_get_world |].
  intros w. destruct (lookup_node _ _ _); [apply preserves_ret | apply preserves_raise].
Qed.

(** The two increments keep what the store of the sum keeps. *)
Lemma preserves_add_regret s a x player info_set :
  (∀ value, preserves R (write_node s (InfoSet.regret_sum_setitem a value) player info_set)) →
  preserves R (add_regret s a x player info_set).
Proof.
  intros Hwrite. unfold add_regret.
  apply preserves_bind; [apply preserves_read_node |]. intros node.
  apply preserves_bind; [apply preserves_lift |]. intros value. apply Hwrite.
Qed.

Lemma preserves_incr_strategy_sum s a player info_set :
  (∀ value, preserves R (write_node s (InfoSet.strategy_sum_setitem a value) player info_set)) →
  preserves R (incr_strategy_sum s a player info_set).
Proof.
  intros Hwrite. unfold incr_strategy_sum.
  apply preserves_bind; [apply preserves_read_node |]. intros node.
  apply preserves_bind; [apply preserves_lift |]. intros value. apply Hwrite.
Qed.
End Preserves.

Lemma assoc_fmap {B C : Type} (f : B → C) (l : list (action * B)) a :
  assoc ((λ '(a', b), (a', f b)) <$> l) a = f <$> assoc l a.
Proof.
  induction l as [| [a' b] l IH]; simpl; [done |].
  by destruct (decide (a' = a)).
Qed.

Lemma assoc_Some_elem_of {B : Type} (l : list (action * B)) a b :
  assoc l a = Some b → (a, b) ∈ l.
Proof.
  induction l as [| [a' b'] l IH]; simpl; [done |].
  destruct (decide (a' = a)) as [-> | Hne].
  - intros [= ->]. left.
  - intros Hb. right. by apply IH.
Qed.

Lemma assoc_is_Some {B : Type} (l : list (action * B)) a :
  a ∈ l.*1 → is_Some (assoc l a).
Proof.
  induction l as [| [a' b'] l IH]; simpl.
  - by intros ?%elem_of_nil.
  - intros Ha. destruct (decide (a' = a)); [by eexists |].
    apply IH. apply elem_of_cons in Ha as [-> | Ha]; done.
Qed.

(** The keys of a dictionary comprehension over keys that differ are the
    keys, in their order. *)
Lemma dict_set_new_key {V : Type} k (v : V) (d : list (action * V)) :
  k ∉ d.*1 → dict_set k v d = d ++ [(k, v)].
Proof.
  induction d as [| [k' v'] d IH]; simpl; [done |].
  intros Hk. apply not_elem_of_cons in Hk as [Hne Hk].
  destruct (decide (k' = k)) as [-> | _]; [done |]. by rewrite IH.
Qed.

Lemma dict_comp_keys {V : Type} (f : action → V) (keys : list action) :
  NoDup keys → (dict_comp f keys).*1 = keys.
Proof.
  unfold dict_comp.
  assert (Hgen : ∀ d : list (action * V), NoDup (d.*1 ++ keys) →
            (foldl (λ d a, dict_set a (f a) d) d keys).*1 = d.*1 ++ keys).
  { induction keys as [| k keys IH]; intros d Hnd; simpl; [by rewrite app_nil_r |].
    assert (Hk : k ∉ d.*1).
    { apply NoDup_app in Hnd as (_ & Hdisj & _). intros Hin. apply (Hdisj k Hin). left. }
    rewrite IH; rewrite (dict_set_new_key _ _ _ Hk), fmap_app; simpl.
    - by rewrite <- app_assoc.
    - by rewrite <- app_assoc. }
  intros Hnd. by rewrite Hgen.
Qed.

Ltac preserves_step :=
  lazymatch goal with
  | |- preserves _ (mret _) => apply preserves_ret; try apply _
  | |- preserves _ (raise _) => apply preserves_raise; try apply _
  | |- preserves _ (lift _) => apply preserves_lift; try apply _
  | |- preserves _ get_world => apply preserves_get_world; try apply _
  | |- preserves _ (read_node _ _ _) => apply preserves_read_node; try apply _
  | |- preserves _ (add_regret _ _ _ _ _) =>
      apply preserves_add_regret; try apply _; intros ?
  | |- preserves _ (incr_strategy_sum _ _ _ _) =>
      apply preserves_incr_strategy_sum; try apply _; intros ?
  | |- preserves _ (_ ≫= _) => apply preserves_bind; try apply _; [| intros ?]
  | |- preserves _ (try_except_raise _ _) => apply preserves_try; try apply _
  | |- preserves _ (for_each _ _ _) => apply preserves_for_each; try apply _; intros ? ? ?
  | |- preserves _ (if ?b then _ else _) => destruct b
  | |- preserves _ (match ?x with _ => _ end) => destruct x
  end.

(** *** The call log *)

Section Logs.
Context {num : Type} `{!Arith num} `{!Random num} `{!SetOrder}.
Variable self : Config.

#[export] Instance logs_preorder (Q : call num → Prop) : PreOrder (logs Q).
Proof.
  split.
  - intros w. exists []. by rewrite app_nil_r.
  - intros w1 w2 w3 (l1 & H1 & Q1) (l2 & H2 & Q2). exists (l1 ++ l2). split.
    + by rewrite H2, H1, app_assoc.
    + by apply Forall_app.
Qed.

Lemma logs_weaken (Q Q' : call num → Prop) {A} (m : M num A) :
  (∀ c, Q c → Q' c) → preserves (logs Q) m → preserves (logs Q') m.
Proof.
  intros HQ Hm w. destruct (Hm w) as (l & Hl & Hall). exists l. split; [done |].
  eapply Forall_impl; eauto.
Qed.

Lemma logs_same_calls (Q : call num → Prop) (w w' : World num) :
  calls w' = calls w → logs Q w w'.
Proof. intros Hc. exists []. by rewrite app_nil_r. Qed.

Lemma logs_log (Q : call num → Prop) c : Q c → preserves (logs Q) (log c).
Proof. intros Hc w. exists [c]. split; [done | by constructor]. Qed.

Lemma logs_node_setdefault Q s player info_set :
  preserves (logs Q) (node_setdefault self s player info_set).
Proof. intros w. apply logs_same_calls. by destruct s. Qed.

Lemma logs_write_node Q s f player info_set :
  preserves (logs Q) (write_node s f player info_set).
Proof. intros w. apply logs_same_calls. by destruct s. Qed.

Lemma logs_add_regret Q s a x player info_set :
  preserves (logs Q) (add_regret s a x player info_set).
Proof. apply preserves_add_regret; [apply _ |]. intros value. apply logs_write_node. Qed.

Lemma logs_incr_strategy_sum Q s a player info_set :
  preserves (logs Q) (incr_strategy_sum s a player info_set).
Proof. apply preserves_incr_strategy_sum; [apply _ |]. intros value. apply logs_write_node. Qed.

Lemma logs_choices Q strategy : preserves (logs Q) (choices strategy).
Proof.
  intros w. apply logs_same_calls. unfold choices.
  by destruct (random_choices _ _ _).
Qed.

Lemma logs_random Q : preserves (logs Q) random.
Proof. intros w. apply logs_same_calls. unfold random. by destruct (random_random _). Qed.

Lemma logs_mccfr_explore Q s prune curr_player info_set strategy recurse acc a :
  preserves (logs Q) (recurse a) →
  preserves (logs Q) (mccfr_explore s prune curr_player info_set strategy recurse acc a).
Proof.
  intros Hrec. unfold mccfr_explore. destruct acc as [[utilities expected_value] explored].
  repeat first [exact Hrec | preserves_step].
Qed.

Lemma logs_mccfr_regret Q s prune curr_player info_set utilities expected_value explored u a :
  preserves (logs Q)
    (mccfr_regret s prune curr_player info_set utilities expected_value explored u a).
Proof.
  unfold mccfr_regret. repeat first [apply logs_add_regret | preserves_step].
Qed.

Lemma logs_mccfr_node Q player prune curr_player info_set valid_actions recurse :
  (∀ a, preserves (logs Q) (recurse a)) →
  preserves (logs Q) (mccfr_node self player prune curr_player info_set valid_actions recurse).
Proof.
  intros Hrec. unfold mccfr_node.
  repeat first [apply logs_node_setdefault | apply logs_choices | apply Hrec
               | apply logs_mccfr_regret | by apply logs_mccfr_explore | preserves_step].
Qed.

(** Every call [mccfr] logs is a call of [mccfr] on the state or on a
    state below it. *)
Lemma mccfr_logs player prune (st : State num) :
  preserves (logs (mccfr_within st)) (mccfr self player st prune).
Proof.
  induction st as [payoff | turn info_set successors IH] using State_rect';
    rewrite mccfr_unfold.
  - apply preserves_bind; [apply _ | | intros _; apply preserves_ret; apply _].
    apply logs_log. eexists; split; [done | constructor].
  - apply preserves_bind; [apply _ | apply logs_log; eexists; split; [done | constructor] |].
    intros _. apply logs_mccfr_node. intros a. apply preserves_call_on; [apply _ |].
    intros m Hm. rewrite assoc_fmap in Hm.
    destruct (assoc successors a) as [new_state |] eqn:Ha; [| done].
    injection Hm as <-.
    rewrite Forall_forall in IH. specialize (IH _ (assoc_Some_elem_of _ _ _ Ha)).
    eapply logs_weaken; [| exact IH].
    intros c (s & -> & Hs). exists s. split; [done |]. by eapply substate_successor.
Qed.

Lemma logs_update_strategy_node Q player curr_player info_set valid_actions recurse :
  (∀ a, preserves (logs Q) (recurse a)) →
  preserves (logs Q) (update_strategy_node self player curr_player info_set valid_actions recurse).
Proof.
  intros Hrec. unfold update_strategy_node.
  repeat first [apply logs_node_setdefault | apply logs_choices | apply Hrec
               | apply logs_incr_strategy_sum | preserves_step].
Qed.

Lemma update_strategy_logs player (st : State num) :
  preserves (logs (update_strategy_within st)) (update_strategy self player st).
Proof.
  induction st as [payoff | turn info_set successors IH] using State_rect';
    rewrite update_strategy_unfold.
  - apply preserves_bind; [apply _ | | intros _; apply preserves_ret; apply _].
    apply logs_log. eexists; split; [done | constructor].
  - apply preserves_bind; [apply _ | apply logs_log; eexists; split; [done | constructor] |].
    intros _. apply logs_update_strategy_node. intros a.
    apply preserves_call_on; [apply _ |].
    intros m Hm. rewrite assoc_fmap in Hm.
    destruct (assoc successors a) as [new_state |] eqn:Ha; [| done].
    injection Hm as <-.
    rewrite Forall_forall in IH. specialize (IH _ (assoc_Some_elem_of _ _ _ Ha)).
    eapply logs_weaken; [| exact IH].
    intros c (s & -> & Hs). exists s. split; [done |]. by eapply substate_successor.
Qed.

Lemma logs_traverse_tree (st : State num) :
  preserves (logs not_discount) (traverse_tree self st).
Proof.
  induction st as [payoff | turn info_set successors IH] using State_rect';
    rewrite traverse_tree_unfold.
  - apply preserves_bind; [apply _ | by apply logs_log | intros _; apply preserves_ret; apply _].
  - apply preserves_bind; [apply _ | by apply logs_log |].
    intros _. unfold traverse_tree_node.
    repeat first [apply logs_node_setdefault | preserves_step].
    apply preserves_call_on; [apply _ |].
    intros m Hm. rewrite assoc_fmap in Hm.
    destruct (assoc successors _) as [new_state |] eqn:Ha; [| done].
    injection Hm as <-.
    rewrite Forall_forall in IH. exact (IH _ (assoc_Some_elem_of _ _ _ Ha)).
Qed.

Lemma logs_shuffle Q {C} (cards : list C) : preserves (logs Q) (shuffle cards).
Proof.
  intros w. apply logs_same_calls. unfold shuffle. by destruct (random_shuffle _ _).
Qed.

Lemma logs_discount_by Q d : preserves (logs Q) (discount_by self d).
Proof.
  unfold discount_by, discount_player. repeat preserves_step.
  intros w. by apply logs_same_calls.
Qed.

Lemma discount_calls_app (l1 l2 : list (call num)) :
  discount_calls (l1 ++ l2) = discount_calls l1 ++ discount_calls l2.
Proof. apply omap_app. Qed.

Lemma discount_calls_none (l : list (call num)) :
  Forall not_discount l → discount_calls l = [].
Proof.
  induction 1 as [| c l Hc _ IH]; [done |]. unfold discount_calls in *.
  destruct c; simpl in *; done.
Qed.

Section Train.
Context {card : Type}.
Variable self_state : list card → State num.

Lemma logs_train_player t cards u player :
  preserves (logs not_discount) (train_player self self_state t cards u player).
Proof.
  assert (Hm : ∀ prune, preserves (logs not_discount)
                          (mccfr self player (self_state cards) prune)).
  { intros prune. eapply logs_weaken; [| apply mccfr_logs]. by intros c (s & -> & _). }
  assert (Hu : preserves (logs not_discount)
                 (update_strategy self player (self_state cards))).
  { eapply logs_weaken; [| apply update_strategy_logs]. by intros c (s & -> & _). }
  unfold train_player.
  repeat first [apply Hm | apply Hu | apply logs_random | preserves_step].
Qed.

Lemma train_iteration_discount_calls cards t (w : World num) :
  ∃ l, calls (train_iteration self self_state cards t w).2 = calls w ++ l ∧
       ∀ cards', (train_iteration self self_state cards t w).1 = Return cards' →
                 discount_calls l = if discount_due t then [t] else [].
Proof.
  unfold train_iteration. rewrite bind_run.
  destruct (logs_shuffle not_discount cards w) as (l0 & Hl0 & Hq0).
  destruct (shuffle cards w) as [[cards1 | e] w1]; simpl in Hl0;
    [| exists l0; by split].
  rewrite bind_run.
  pose proof (preserves_for_each (logs not_discount)
                (train_player self self_state t cards1) () (seq 0 (num_players self))
                (λ u x _, logs_train_player t cards1 u x) w1) as (l1 & Hl1 & Hq1).
  destruct (for_each _ _ _ w1) as [[[] | e] w2]; simpl in Hl1;
    [| exists (l0 ++ l1); split; [simpl; by rewrite Hl1, Hl0, app_assoc | done]].
  rewrite bind_run. destruct (discount_due t).
  - unfold discount. rewrite bind_run. simpl.
    set (w3 := {| node_map := node_map w2; self_strategy := self_strategy w2;
                  rng := rng w2; calls := calls w2 ++ [Call_discount t] |}).
    destruct (logs_discount_by not_discount (discount_factor t) w3) as (l3 & Hl3 & Hq3).
    exists (l0 ++ l1 ++ [Call_discount t] ++ l3). split.
    + transitivity (calls (discount_by self (discount_factor t) w3).2);
        [by destruct (discount_by self (discount_factor t) w3) as [[[] | e] w4] |].
      rewrite Hl3. change (calls w3) with (calls w2 ++ [Call_discount t]).
      rewrite Hl1, Hl0. by rewrite <- !app_assoc.
    + intros _ _. rewrite !discount_calls_app.
      rewrite (discount_calls_none l0), (discount_calls_none l1), (discount_calls_none l3)
        by done.
      done.
  - exists (l0 ++ l1). split; [simpl; by rewrite Hl1, Hl0, app_assoc |].
    intros _ _. rewrite discount_calls_app.
    by rewrite (discount_calls_none l0), (discount_calls_none l1) by done.
Qed.

Lemma train_loop_discount_calls ts cards (w : World num) cards' w' :
  for_each (train_iteration self self_state) cards ts w = (Return cards', w') →
  ∃ l, calls w' = calls w ++ l ∧
       discount_calls l = filter (λ t, discount_due t = true) ts.
Proof.
  revert cards w. induction ts as [| t ts IH]; intros cards w Hrun; simpl in Hrun.
  - injection Hrun as _ <-. exists []. by rewrite app_nil_r.
  - rewrite bind_run in Hrun.
    destruct (train_iteration_discount_calls cards t w) as (l1 & Hl1 & Hd1).
    destruct (train_iteration self self_state cards t w) as [[cards1 | e] w1]; [| done].
    simpl in Hl1, Hd1. specialize (Hd1 _ eq_refl).
    destruct (IH _ _ Hrun) as (l2 & Hl2 & Hd2).
    exists (l1 ++ l2). split; [by rewrite Hl2, Hl1, app_assoc |].
    rewrite discount_calls_app, Hd1, Hd2, filter_cons.
    by destruct (discount_due t).
Qed.

Lemma train_discount_calls `{!EqDecision card} cards iterations (w : World num) u w' :
  train self self_state cards iterations w = (Return u, w') →
  ∃ l, calls w' = calls w ++ l ∧
       discount_calls l = filter (λ t, discount_due t = true) (seq 1 iterations).
Proof.
  unfold train. rewrite bind_run. intros Hrun.
  destruct (for_each _ cards _ w) as [[cards1 | e] w1] eqn:Hloop; [| done].
  destruct (train_loop_discount_calls _ _ _ _ _ Hloop) as (l1 & Hl1 & Hd1).
  assert (Heu : preserves (logs not_discount) (expected_utility self self_state cards1)).
  { unfold expected_utility. repeat first [apply logs_traverse_tree | preserves_step]. }
  destruct (Heu w1) as (l2 & Hl2 & Hq2). rewrite Hrun in Hl2. simpl in Hl2.
  exists (l1 ++ l2). split; [by rewrite Hl2, Hl1, app_assoc |].
  by rewrite discount_calls_app, Hd1, (discount_calls_none l2), app_nil_r.
Qed.
End Train.
End Logs.

(** *** The two loops of a node of the traversing player *)

Section Loops.
Context {num : Type} `{!Arith num} `{!Random num} `{!SetOrder}.
Variable self : Config.

Lemma bind_lift {A B} (o : outcome A) (k : A → M num B) (w : World num) :
  (lift o ≫= k) w = match o with Return a => k a w | Raise e => (Raise e, w) end.
Proof. by destruct o. Qed.

Lemma alter_node_id (f : InfoSet.t num → InfoSet.t num) player info_set
    (m : gmap nat (gmap string (InfoSet.t num))) :
  (∀ node, f node = node) → alter_node f player info_set m = m.
Proof.
  intros Hf. unfold alter_node. apply alter_id. intros pn _. apply alter_id. intros n _. apply Hf.
Qed.

Lemma alter_node_compose (f g : InfoSet.t num → InfoSet.t num) player info_set
    (m : gmap nat (gmap string (InfoSet.t num))) :
  alter_node g player info_set (alter_node f player info_set m)
  = alter_node (g ∘ f) player info_set m.
Proof.
  unfold alter_node. rewrite alter_alter_eq. apply alter_ext. intros pn _. simpl.
  by rewrite alter_alter_eq.
Qed.

Lemma alter_node_ext (f g : InfoSet.t num → InfoSet.t num) player info_set
    (m : gmap nat (gmap string (InfoSet.t num))) :
  (∀ node, f node = g node) → alter_node f player info_set m = alter_node g player info_set m.
Proof.
  intros Hfg. unfold alter_node. apply alter_ext. intros pn _. apply alter_ext. intros n _. apply Hfg.
Qed.

Lemma alter_node_ext_at (f g : InfoSet.t num → InfoSet.t num) player info_set
    (m : gmap nat (gmap string (InfoSet.t num))) node :
  lookup_node m player info_set = Some node → f node = g node →
  alter_node f player info_set m = alter_node g player info_set m.
Proof.
  unfold lookup_node, alter_node. intros Hnode Hfg.
  destruct (m !! player) as [pn |] eqn:Hpn; simpl in Hnode; [| done].
  apply alter_ext. intros pn' Hpn'. assert (pn' = pn) as -> by congruence.
  apply alter_ext. intros n Hn. by assert (n = node) as -> by congruence.
Qed.

(** *** Indexing the two mappings of a node *)

Lemma getitem_or_zero_Return plain (d : gmap action num) a value :
  InfoSet.getitem_or_zero plain d a = Return value → value = default zero (d !! a).
Proof.
  unfold InfoSet.getitem_or_zero. destruct (d !! a); [by intros [= ->] |].
  destruct plain; [done | by intros [= ->]].
Qed.

Lemma getitem_or_zero_Raise plain (d : gmap action num) a e :
  InfoSet.getitem_or_zero plain d a = Raise e → e = KeyError ∧ plain = true ∧ d !! a = None.
Proof.
  unfold InfoSet.getitem_or_zero. destruct (d !! a); [done |].
  destruct plain; [by intros [= <-] | done].
Qed.

Lemma regret_sum_getitem_Return (node : InfoSet.t num) a value :
  InfoSet.regret_sum_getitem node a = Return value → value = InfoSet.regret node a.
Proof. apply getitem_or_zero_Return. Qed.

Lemma strategy_sum_getitem_Return (node : InfoSet.t num) a value :
  InfoSet.strategy_sum_getitem node a = Return value → value = InfoSet.weight node a.
Proof. apply getitem_or_zero_Return. Qed.

Lemma regret_sum_getitem_present (node : InfoSet.t num) a value :
  InfoSet.regret_sum node !! a = Some value → InfoSet.regret_sum_getitem node a = Return value.
Proof. unfold InfoSet.regret_sum_getitem, InfoSet.getitem_or_zero. by intros ->. Qed.

(** The two increments, when the entry can be read and when it cannot. *)
Lemma add_regret_run s a x player info_set (w : World num) node :
  lookup_node (get_store s w) player info_set = Some node →
  add_regret s a x player info_set w
  = match InfoSet.regret_sum_getitem node a with
    | Return value =>
        (Return (), set_store s (alter_node (InfoSet.regret_sum_setitem a (add value x))
                                            player info_set (get_store s w)) w)
    | Raise e => (Raise e, w)
    end.
Proof.
  intros Hnode. unfold add_regret. erewrite bind_Return by (by apply read_node_Some).
  rewrite bind_lift. by destruct (InfoSet.regret_sum_getitem node a).
Qed.

Lemma incr_strategy_sum_run s a player info_set (w : World num) node :
  lookup_node (get_store s w) player info_set = Some node →
  incr_strategy_sum s a player info_set w
  = match InfoSet.strategy_sum_getitem node a with
    | Return value =>
        (Return (), set_store s (alter_node (InfoSet.strategy_sum_setitem a (add value one))
                                            player info_set (get_store s w)) w)
    | Raise e => (Raise e, w)
    end.
Proof.
  intros Hnode. unfold incr_strategy_sum. erewrite bind_Return by (by apply read_node_Some).
  rewrite bind_lift. by destruct (InfoSet.strategy_sum_getitem node a).
Qed.

Lemma add_regret_Return s a x player info_set (w w' : World num) :
  add_regret s a x player info_set w = (Return (), w') →
  ∃ node, lookup_node (get_store s w) player info_set = Some node ∧
          InfoSet.regret_sum_getitem node a = Return (InfoSet.regret node a) ∧
          w' = set_store s (alter_node (λ node, InfoSet.regret_sum_setitem a
                                                   (add (InfoSet.regret node a) x) node)
                                       player info_set (get_store s w)) w.
Proof.
  destruct (lookup_node (get_store s w) player info_set) as [node |] eqn:Hnode.
  - rewrite (add_regret_run _ _ _ _ _ _ _ Hnode).
    destruct (InfoSet.regret_sum_getitem node a) as [value | e] eqn:Hread; [| done].
    intros [= <-]. apply regret_sum_getitem_Return in Hread as Hvalue. subst value.
    exists node. split; [done |]. split; [done |]. f_equal.
    by eapply alter_node_ext_at.
  - unfold add_regret. by rewrite (bind_Raise _ _ _ _ _ (read_node_None _ _ _ _ Hnode)).
Qed.

(** A step of the first loop that returns has either passed the action
    over or visited it. *)
Lemma mccfr_explore_Return s prune curr_player info_set strategy recurse U E X a
    (w : World num) U1 E1 X1 w1 :
  mccfr_explore s prune curr_player info_set strategy recurse (U, E, X) a w
  = (Return (U1, E1, X1), w1) →
  (prune = true ∧
   (∃ node regret,
      lookup_node (get_store s w) curr_player info_set = Some node ∧
      InfoSet.regret_sum_getitem node a = Return regret ∧
      ltb (of_Z regret_minimum) regret = false) ∧
   U1 = U ∧ E1 = E ∧ X1 = X ∧ w1 = w) ∨
  ((prune = true →
    ∃ node regret,
      lookup_node (get_store s w) curr_player info_set = Some node ∧
      InfoSet.regret_sum_getitem node a = Return regret ∧
      ltb (of_Z regret_minimum) regret = true) ∧
   ∃ calculated_util u p,
     recurse a w = (Return calculated_util, w1) ∧
     calculated_util !! curr_player = Some u ∧
     dict_get strategy a = Return p ∧
     np_iadd E (np_scale calculated_util p) = Return E1 ∧
     U1 = <[a := u]> U ∧
     X1 = (if prune then {[a]} ∪ X else X)).
Proof.
  assert (Hvisit : ∀ X',
    (recurse a ≫= λ calculated_util,
     lift (np_index calculated_util curr_player) ≫= λ u,
     lift (dict_get strategy a) ≫= λ p,
     lift (np_iadd E (np_scale calculated_util p)) ≫= λ expected_value',
     mret (<[a := u]> U, expected_value', X')) w = (Return (U1, E1, X1), w1) →
    ∃ calculated_util u p,
      recurse a w = (Return calculated_util, w1) ∧
      calculated_util !! curr_player = Some u ∧
      dict_get strategy a = Return p ∧
      np_iadd E (np_scale calculated_util p) = Return E1 ∧
      U1 = <[a := u]> U ∧ X1 = X').
  { intros X'. rewrite bind_run.
    destruct (recurse a w) as [[calculated_util | e] w2] eqn:Hrec; [| done].
    rewrite bind_lift. unfold np_index.
    destruct (calculated_util !! curr_player) as [u |] eqn:Hu; [| done].
    rewrite bind_lift. destruct (dict_get strategy a) as [p | e] eqn:Hp; [| done].
    rewrite bind_lift.
    destruct (np_iadd E (np_scale calculated_util p)) as [E' | e] eqn:Hadd; [| done].
    intros Heq. injection Heq as <- <- <- <-. by exists calculated_util, u, p. }
  unfold mccfr_explore. destruct prune.
  - rewrite bind_run. unfold read_node. rewrite bind_run. simpl.
    destruct (lookup_node (get_store s w) curr_player info_set) as [node |] eqn:Hnode;
      simpl; [| done].
    rewrite bind_lift.
    destruct (InfoSet.regret_sum_getitem node a) as [regret | e] eqn:Hread; [| done].
    destruct (ltb (of_Z regret_minimum) regret) eqn:Hgt.
    + intros Hrun. right. split; [intros _; by exists node, regret |].
      destruct (Hvisit _ Hrun) as (cu & u & p & ? & ? & ? & ? & ? & ?). by exists cu, u, p.
    + intros [= <- <- <- <-]. left. split; [done |]. split; [by exists node, regret | done].
  - intros Hrun. right. split; [done |].
    destruct (Hvisit _ Hrun) as (cu & u & p & ? & ? & ? & ? & ? & ?). by exists cu, u, p.
Qed.

(** The first loop, when it returns: the run it made, and its three
    accumulators in terms of the visits. *)
Lemma explore_loop_run s prune curr_player info_set strategy recurse l U E X
    (w : World num) U' E' X' w' :
  for_each (mccfr_explore s prune curr_player info_set strategy recurse) (U, E, X) l w
  = (Return (U', E', X'), w') →
  ∃ visits,
    explore_run s prune curr_player info_set recurse l w visits w' ∧
    weighted_sum (dict_get strategy) E visits = Return E' ∧
    U' = utilities_of curr_player U visits ∧
    X' = (if prune then list_to_set visits.*1 ∪ X else X).
Proof.
  revert U E X w. induction l as [| a l IH]; intros U E X w Hrun.
  - injection Hrun as <- <- <- <-. exists []. split; [constructor |]. split; [done |].
    split; [done |]. destruct prune; [| done]. simpl. set_solver.
  - rewrite for_each_cons, bind_run in Hrun.
    destruct (mccfr_explore _ _ _ _ _ _ _ a w) as [[[[U1 E1] X1] | e] w1] eqn:Hstep; [| done].
    apply mccfr_explore_Return in Hstep.
    destruct (IH _ _ _ _ Hrun) as (visits & Hvisits & Hsum & HU & HX).
    destruct Hstep as [(Hp & (node & regret & Hnode & Hread & Hle) & -> & -> & -> & ->)
                      | (Hgt & cu & u & p & Hrec & Hu & Hp & Hadd & -> & ->)].
    + exists visits. split; [by eapply explore_skip |]. done.
    + exists ((a, cu) :: visits). split; [by eapply explore_visit |].
      split; [simpl; by rewrite Hp, Hadd |].
      split; [unfold utilities_of; simpl; by rewrite Hu |].
      rewrite HX. destruct prune; [| done]. simpl. set_solver.
Qed.

(** The second loop, when it returns, has applied [regret_step] to the node
    for each action in turn. *)
Lemma regret_loop_run s prune curr_player info_set U E X l (w : World num) w' :
  for_each (mccfr_regret s prune curr_player info_set U E X) () l w = (Return (), w') →
  w' = set_store s
         (alter_node (λ node, foldl (regret_step prune curr_player U E X) node l)
                     curr_player info_set (get_store s w)) w.
Proof.
  revert w. induction l as [| a l IH]; intros w Hrun.
  - injection Hrun as <-. simpl. rewrite alter_node_id by done. by rewrite set_get_store.
  - rewrite for_each_cons, bind_run in Hrun.
    destruct (mccfr_regret _ _ _ _ _ _ _ _ a w) as [[[] | e] w1] eqn:Hstep; [| done].
    apply IH in Hrun. rewrite Hrun. clear Hrun IH.
    assert (Hw1 : w1 = set_store s (alter_node (λ node, regret_step prune curr_player U E X node a)
                                      curr_player info_set (get_store s w)) w).
    { unfold mccfr_regret in Hstep. unfold regret_step.
      destruct prune, (bool_decide (a ∈ X)); simpl in *.
      2: { injection Hstep as <-. rewrite alter_node_id by done. by rewrite set_get_store. }
      all: rewrite bind_lift in Hstep; unfold getitem in Hstep;
        destruct (U !! a) as [u |]; [| done];
        rewrite bind_lift in Hstep; unfold np_index in Hstep;
        destruct (E !! curr_player) as [v |]; [| done];
        by apply add_regret_Return in Hstep as (node & _ & _ & ->). }
    rewrite Hw1, get_set_store, set_set_store, alter_node_compose. done.
Qed.

Lemma regret_loop_reads s prune curr_player info_set U E X l (w : World num) w' :
  for_each (mccfr_regret s prune curr_player info_set U E X) () l w = (Return (), w') →
  ∀ a, a ∈ l → (prune = true → a ∈ X) →
       ∃ u v, U !! a = Some u ∧ E !! curr_player = Some v.
Proof.
  revert w. induction l as [| b l IH]; intros w Hrun a Ha HX.
  - by apply elem_of_nil in Ha.
  - rewrite for_each_cons, bind_run in Hrun.
    destruct (mccfr_regret _ _ _ _ _ _ _ _ b w) as [[[] | e] w1] eqn:Hstep; [| done].
    apply elem_of_cons in Ha as [-> | Ha]; [| by eapply IH].
    clear Hrun IH. unfold mccfr_regret in Hstep.
    assert (Hupd : (lift (getitem U b)
                    ≫= λ u, lift (np_index E curr_player)
                    ≫= λ v, add_regret s b (sub u v) curr_player info_set) w
                   = (Return (), w1)).
    { destruct prune; [| done]. by rewrite (bool_decide_eq_true_2 _ (HX eq_refl)) in Hstep. }
    rewrite bind_lift in Hupd. unfold getitem in Hupd. destruct (U !! b) as [u |]; [| done].
    rewrite bind_lift in Hupd. unfold np_index in Hupd.
    destruct (E !! curr_player) as [v |]; [| done]. by exists u, v.
Qed.

Lemma explore_run_sublist s prune curr_player info_set recurse l (w : World num) visits w' :
  explore_run s prune curr_player info_set recurse l w visits w' → visits.*1 `sublist_of` l.
Proof.
  induction 1; simpl.
  - constructor.
  - by apply sublist_cons.
  - by apply sublist_skip.
Qed.

(** A call of [mccfr] at a node of the traversing player that returns: the
    node is created if absent, its strategy over all the legal actions is
    computed once, the first loop makes a run from there, the value returned
    is the weighted sum over the visits, and the second loop applies
    [regret_step] for every legal action. *)
Lemma mccfr_traversing_run player prune info_set successors (w : World num) ev w' :
  mccfr self player (Decision player info_set successors) prune w = (Return ev, w') →
  let state := Decision player info_set successors in
  let w1 := (node_setdefault self Node_map player info_set (log (Call_mccfr state) w).2).2 in
  let recurse := call_on ((λ '(a, new_state),
                             (a, mccfr self player new_state prune)) <$> successors) in
  ∃ node visits w2,
    lookup_node (node_map w1) player info_set = Some node ∧
    explore_run Node_map prune player info_set recurse successors.*1 w1 visits w2 ∧
    weighted_sum (dict_get (InfoSet.strategy node successors.*1))
                   (np_zeros (num_players self)) visits
    = Return ev ∧
    let utilities := utilities_of player (list_to_map ((λ a, (a, zero)) <$> successors.*1))
                                  visits in
    let explored : gset action := if prune then list_to_set visits.*1 else ∅ in
    w' = set_node_map
           (alter_node (λ node, foldl (regret_step prune player utilities ev explored)
                                      node successors.*1)
                       player info_set (node_map w2)) w2 ∧
    (∀ a, a ∈ successors.*1 → (prune = true → a ∈ explored) →
          ∃ u v, utilities !! a = Some u ∧ ev !! player = Some v).
Proof.
  intros Hrun state w1 recurse.
  assert (Hnode : lookup_node (node_map w1) player info_set
                  = Some (default (InfoSet.new (actions self))
                                  (lookup_node (node_map w) player info_set))).
  { change (node_map w1) with (setdefault self player info_set (node_map w)).
    apply lookup_setdefault_eq. }
  set (node := default _ _) in Hnode.
  rewrite mccfr_unfold in Hrun. erewrite bind_Return in Hrun by done.
  unfold mccfr_node in Hrun. rewrite decide_True in Hrun by done.
  erewrite bind_Return in Hrun by done.
  erewrite bind_Return in Hrun by (apply read_node_Some; exact Hnode).
  rewrite bind_run in Hrun. fold recurse in Hrun.
  change (set_store Node_map _ _) with w1 in Hrun.
  destruct (for_each _ _ _ w1) as [[[[U' E'] X'] | e] w2] eqn:Hloop; [| done].
  apply explore_loop_run in Hloop as (visits & Hvisits & Hsum & -> & ->).
  rewrite bind_run in Hrun.
  destruct (for_each _ () _ w2) as [[[] | e] w3] eqn:Hloop2; [| done].
  pose proof (regret_loop_reads _ _ _ _ _ _ _ _ _ _ Hloop2) as Hreads.
  apply regret_loop_run in Hloop2. injection Hrun as <- <-.
  exists node, visits, w2. split; [done |]. split; [done |]. split; [done |].
  cbv zeta. split.
  - rewrite Hloop2. simpl. f_equal. apply alter_node_ext. intros n.
    destruct prune; [| done]. by rewrite union_empty_r_L.
  - intros a Ha HX. apply Hreads; [done |]. intros Hp. specialize (HX Hp).
    destruct prune; [| done]. by rewrite union_empty_r_L.
Qed.
End Loops.

(** *** Frozen nodes in sub-game solving *)

Section Frozen.
Context {num : Type} `{!Arith num} `{!Random num} `{!SetOrder}.
Variable self : Config.

Lemma TreeNode_rect' (P : TreeNode num → Prop) :
  (∀ state is_leaf children value,
      Forall (λ c, P c.2) children → P (TNode state is_leaf children value)) →
  ∀ tree_node, P tree_node.
Proof.
  intros Hnode. fix IH 1. intros [state is_leaf children value].
  apply Hnode. induction children as [| [a c] l IHl]; constructor; [apply IH | exact IHl].
Qed.

#[export] Instance frozen_kept_preorder :
  PreOrder (frozen_kept : World num → World num → Prop).
Proof.
  split.
  - intros w p i node Hnode. by exists node.
  - intros w1 w2 w3 H12 H23 p i node Hnode.
    destruct (H12 _ _ _ Hnode) as (node2 & Hnode2 & Hflag2 & Hsame2).
    destruct (H23 _ _ _ Hnode2) as (node3 & Hnode3 & Hflag3 & Hsame3).
    exists node3. split; [done |]. split; [congruence |].
    intros Hfrozen. rewrite Hsame3 by congruence. by apply Hsame2.
Qed.

Lemma unfrozen_stable p i (w w' : World num) :
  frozen_kept w w' → unfrozen p i w → unfrozen p i w'.
Proof.
  intros Hkept (node & Hnode & Hflag).
  destruct (Hkept _ _ _ Hnode) as (node' & Hnode' & Hflag' & _).
  exists node'. split; [done | congruence].
Qed.

Lemma keeps_of_preserves I {A} (m : M num A) :
  preserves frozen_kept m → keeps I frozen_kept m.
Proof. intros Hm w _. apply Hm. Qed.

Lemma keeps_bind p i {A B} (m : M num A) (k : A → M num B) :
  keeps (unfrozen p i) frozen_kept m →
  (∀ a, keeps (unfrozen p i) frozen_kept (k a)) →
  keeps (unfrozen p i) frozen_kept (m ≫= k).
Proof.
  intros Hm Hk w HI. rewrite bind_run. specialize (Hm w HI).
  destruct (m w) as [[a | e] w1]; simpl in *; [| done].
  etrans; [exact Hm |]. apply Hk. by eapply unfrozen_stable.
Qed.

Lemma keeps_for_each p i {A B} (body : B → A → M num B) acc l :
  (∀ acc x, keeps (unfrozen p i) frozen_kept (body acc x)) →
  keeps (unfrozen p i) frozen_kept (for_each body acc l).
Proof.
  intros Hbody. revert acc. induction l as [| x l IH]; intros acc.
  - intros w _. simpl. reflexivity.
  - rewrite for_each_cons. apply keeps_bind; [apply Hbody | apply IH].
Qed.

Lemma frozen_kept_same (w w' : World num) :
  self_strategy w' = self_strategy w → frozen_kept w w'.
Proof. intros Heq p i node Hnode. exists node. by rewrite Heq. Qed.

Lemma frozen_kept_choices strategy : preserves frozen_kept (choices strategy).
Proof.
  intros w. apply frozen_kept_same. unfold choices. by destruct (random_choices _ _ _).
Qed.

Lemma frozen_kept_getitem curr_player info_set :
  preserves frozen_kept (strategy_getitem self curr_player info_set).
Proof.
  unfold strategy_getitem. apply preserves_bind; [apply _ | | intros _; apply preserves_read_node; apply _].
  intros w p i node Hnode. exists node. split; [| done].
  change (self_strategy (node_setdefault self Self_strategy curr_player info_set w).2)
    with (setdefault self curr_player info_set (self_strategy w)).
  destruct (decide ((p, i) = (curr_player, info_set))) as [[= -> ->] | Hne].
  - by rewrite lookup_setdefault_eq, Hnode.
  - by rewrite lookup_setdefault_ne.
Qed.

(** What [self.strategy[curr_player][info_set]] returns is the node that is
    in the map afterwards. *)
Lemma strategy_getitem_run curr_player info_set (w : World num) :
  ∃ node w1,
    strategy_getitem self curr_player info_set w = (Return node, w1) ∧
    lookup_node (self_strategy w1) curr_player info_set = Some node ∧
    node = default (InfoSet.new (actions self))
                   (lookup_node (self_strategy w) curr_player info_set) ∧
    w1 = set_self_strategy (setdefault self curr_player info_set (self_strategy w)) w.
Proof.
  eexists _, _. split; [| split; [| split; reflexivity]].
  - unfold strategy_getitem. erewrite bind_Return by done.
    apply read_node_Some. apply lookup_setdefault_eq.
  - apply lookup_setdefault_eq.
Qed.

Lemma frozen_kept_write f curr_player info_set :
  (∀ node, InfoSet.is_frozen (f node) = InfoSet.is_frozen node) →
  keeps (unfrozen curr_player info_set) frozen_kept
        (write_node Self_strategy f curr_player info_set).
Proof.
  intros Hf w (node0 & Hnode0 & Hflag0) p i node Hnode.
  change (self_strategy (write_node Self_strategy f curr_player info_set w).2)
    with (alter_node f curr_player info_set (self_strategy w)).
  destruct (decide ((p, i) = (curr_player, info_set))) as [[= -> ->] | Hne].
  - rewrite lookup_alter_node_eq, Hnode. exists (f node). split; [done |].
    split; [apply Hf |]. congruence.
  - rewrite lookup_alter_node_ne by done. by exists node.
Qed.

Lemma frozen_kept_add_regret a x curr_player info_set :
  keeps (unfrozen curr_player info_set) frozen_kept
        (add_regret Self_strategy a x curr_player info_set).
Proof.
  unfold add_regret.
  apply keeps_bind; [apply keeps_of_preserves, preserves_read_node; apply _ |]. intros node.
  apply keeps_bind; [apply keeps_of_preserves, preserves_lift; apply _ |]. intros value.
  by apply frozen_kept_write.
Qed.

Lemma frozen_kept_incr_strategy_sum a curr_player info_set :
  keeps (unfrozen curr_player info_set) frozen_kept
        (incr_strategy_sum Self_strategy a curr_player info_set).
Proof.
  unfold incr_strategy_sum.
  apply keeps_bind; [apply keeps_of_preserves, preserves_read_node; apply _ |]. intros node.
  apply keeps_bind; [apply keeps_of_preserves, preserves_lift; apply _ |]. intros value.
  by apply frozen_kept_write.
Qed.

Lemma frozen_kept_explore prune curr_player info_set strategy recurse acc a :
  preserves frozen_kept (recurse a) →
  preserves frozen_kept
    (mccfr_explore Self_strategy prune curr_player info_set strategy recurse acc a).
Proof.
  intros Hrec. unfold mccfr_explore. destruct acc as [[utilities expected_value] explored].
  repeat first [exact Hrec | preserves_step].
Qed.

Lemma frozen_kept_regret prune curr_player info_set utilities expected_value explored u a :
  keeps (unfrozen curr_player info_set) frozen_kept
    (mccfr_regret Self_strategy prune curr_player info_set utilities expected_value explored u a).
Proof.
  assert (Hupd : keeps (unfrozen curr_player info_set) frozen_kept
            (lift (getitem utilities a) ≫= λ u,
             lift (np_index expected_value curr_player) ≫= λ v,
             add_regret Self_strategy a (sub u v) curr_player info_set)).
  { apply keeps_bind; [apply keeps_of_preserves, preserves_lift; apply _ |]. intros x.
    apply keeps_bind; [apply keeps_of_preserves, preserves_lift; apply _ |]. intros v.
    apply frozen_kept_add_regret. }
  unfold mccfr_regret. destruct prune; [| exact Hupd].
  destruct (bool_decide _); [exact Hupd |].
  apply keeps_of_preserves, preserves_ret. apply _.
Qed.

Lemma frozen_kept_subgame_mccfr_node player prune curr_player info_set valid_actions is_leaf
    value recurse :
  (∀ a, preserves frozen_kept (value a)) →
  (∀ a, preserves frozen_kept (recurse a)) →
  preserves frozen_kept
    (subgame_mccfr_node self player prune curr_player info_set valid_actions is_leaf
       value recurse).
Proof.
  intros Hvalue Hrec w. unfold subgame_mccfr_node.
  destruct (strategy_getitem_run curr_player info_set w) as (node & w1 & Hget & Hnode & _ & _).
  pose proof (frozen_kept_getitem curr_player info_set w) as Hkept. rewrite Hget in Hkept.
  simpl in Hkept.
  assert (Hbody : ∀ m : InfoSet.t num → M num (list num),
             (∀ n, keeps (unfrozen curr_player info_set) frozen_kept (m n)) →
             frozen_kept w ((strategy_getitem self curr_player info_set ≫= λ node,
                             if negb (InfoSet.is_frozen node) then m node
                             else raise NotImplementedError) w).2).
  { intros m Hm. erewrite bind_Return by exact Hget.
    destruct (InfoSet.is_frozen node) eqn:Hflag; simpl; [done |].
    etrans; [exact Hkept |]. apply Hm. by exists node. }
  destruct (decide (curr_player = player)) as [Hturn | Hturn].
  - apply Hbody. intros n. apply keeps_bind.
    + apply keeps_of_preserves. destruct is_leaf.
      * apply preserves_for_each; [apply _ |]. intros acc a _. by apply frozen_kept_explore.
      * apply preserves_for_each; [apply _ |]. intros acc a _. by apply frozen_kept_explore.
    + intros [[U E] X]. apply keeps_bind.
      * apply keeps_for_each. intros u a. apply frozen_kept_regret.
      * intros _. apply keeps_of_preserves, preserves_ret. apply _.
  - apply Hbody. intros n. apply keeps_of_preserves.
    apply preserves_bind; [apply _ | apply frozen_kept_choices |].
    intros a. destruct is_leaf; [apply Hvalue | apply Hrec].
Qed.

Lemma frozen_kept_subgame_update_strategy_node player curr_player info_set valid_actions
    is_leaf recurse :
  (∀ a, preserves frozen_kept (recurse a)) →
  preserves frozen_kept
    (subgame_update_strategy_node self player curr_player info_set valid_actions is_leaf
       recurse).
Proof.
  intros Hrec w. unfold subgame_update_strategy_node.
  destruct (strategy_getitem_run curr_player info_set w) as (node & w1 & Hget & Hnode & _ & _).
  pose proof (frozen_kept_getitem curr_player info_set w) as Hkept. rewrite Hget in Hkept.
  simpl in Hkept.
  assert (Hbody : ∀ m : InfoSet.t num → M num (),
             (∀ n, keeps (unfrozen curr_player info_set) frozen_kept (m n)) →
             frozen_kept w ((strategy_getitem self curr_player info_set ≫= λ node,
                             if negb (InfoSet.is_frozen node) then m node
                             else raise NotImplementedError) w).2).
  { intros m Hm. erewrite bind_Return by exact Hget.
    destruct (InfoSet.is_frozen node) eqn:Hflag; simpl; [done |].
    etrans; [exact Hkept |]. apply Hm. by exists node. }
  assert (Hsample : ∀ n valid,
             keeps (unfrozen curr_player info_set) frozen_kept
               (choices (InfoSet.strategy n valid) ≫= λ random_action,
                incr_strategy_sum Self_strategy random_action curr_player info_set)).
  { intros n valid. apply keeps_bind; [apply keeps_of_preserves, frozen_kept_choices |].
    intros a. apply frozen_kept_incr_strategy_sum. }
  destruct (decide (curr_player = player)) as [Hturn | Hturn].
  - apply Hbody. intros n. destruct is_leaf; [apply Hsample |].
    apply keeps_bind; [apply keeps_of_preserves, frozen_kept_choices |]. intros a.
    apply keeps_bind; [apply frozen_kept_incr_strategy_sum |]. intros _.
    apply keeps_of_preserves, Hrec.
  - apply Hbody. intros n. destruct is_leaf; [apply Hsample |].
    apply keeps_of_preserves. apply preserves_for_each; [apply _ |]. intros u a _. apply Hrec.
Qed.

Lemma subgame_mccfr_frozen_kept player prune (tree_node : TreeNode num) :
  preserves frozen_kept (subgame_mccfr self player tree_node prune).
Proof.
  induction tree_node as [state is_leaf children value IH] using TreeNode_rect'.
  destruct state as [payoff | turn info_set successors]; simpl.
  - apply preserves_ret. apply _.
  - apply frozen_kept_subgame_mccfr_node.
    + intros a. apply preserves_bind; [apply _ | apply preserves_get_world; apply _ |].
      intros w. apply preserves_ret. apply _.
    + intros a. apply preserves_call_child; [apply _ |].
      intros m Hm. rewrite assoc_fmap in Hm.
      destruct (assoc children a) as [c |] eqn:Ha; [| done]. injection Hm as <-.
      rewrite Forall_forall in IH. exact (IH _ (assoc_Some_elem_of _ _ _ Ha)).
Qed.

Lemma subgame_update_strategy_frozen_kept player (tree_node : TreeNode num) :
  preserves frozen_kept (subgame_update_strategy self player tree_node).
Proof.
  induction tree_node as [state is_leaf children value IH] using TreeNode_rect'.
  destruct state as [payoff | turn info_set successors]; simpl.
  - apply preserves_ret. apply _.
  - apply frozen_kept_subgame_update_strategy_node.
    intros a. apply preserves_call_child; [apply _ |].
    intros m Hm. rewrite assoc_fmap in Hm.
    destruct (assoc children a) as [c |] eqn:Ha; [| done]. injection Hm as <-.
    rewrite Forall_forall in IH. exact (IH _ (assoc_Some_elem_of _ _ _ Ha)).
Qed.

(** A frozen node met by a traversal: the lookup changes nothing and the
    call raises. *)
Lemma strategy_getitem_frozen curr_player info_set (w : World num) node :
  lookup_node (self_strategy w) curr_player info_set = Some node →
  strategy_getitem self curr_player info_set w = (Return node, w).
Proof.
  intros Hnode.
  destruct (strategy_getitem_run curr_player info_set w) as (n & w1 & Hget & _ & -> & ->).
  rewrite Hget, Hnode. simpl. rewrite (setdefault_present self _ _ _ _ Hnode).
  by destruct w.
Qed.
End Frozen.

(** *** The nodes of the other players under update_strategy *)

Section Others.
Context {num : Type} `{!Arith num} `{!Random num} `{!SetOrder}.
Variable self : Config.
Variable player : nat.

#[export] Instance others_kept_preorder :
  PreOrder (others_kept self player : World num → World num → Prop).
Proof.
  split.
  - intros w p i _. by left.
  - intros w1 w2 w3 H12 H23 p i Hp.
    destruct (H12 p i Hp) as [E12 | [N1 S2]], (H23 p i Hp) as [E23 | [N2 S3]].
    + left. congruence.
    + right. split; congruence.
    + right. split; congruence.
    + congruence.
Qed.

Lemma others_kept_same (w w' : World num) :
  node_map w' = node_map w → others_kept self player w w'.
Proof. intros Heq p i _. left. by rewrite Heq. Qed.

Lemma others_kept_setdefault curr_player info_set :
  preserves (others_kept self player) (node_setdefault self Node_map curr_player info_set).
Proof.
  intros w p i _.
  change (node_map (node_setdefault self Node_map curr_player info_set w).2)
    with (setdefault self curr_player info_set (node_map w)).
  destruct (decide ((p, i) = (curr_player, info_set))) as [[= -> ->] | Hne].
  - rewrite lookup_setdefault_eq.
    destruct (lookup_node (node_map w) curr_player info_set); [by left | by right].
  - left. by apply lookup_setdefault_ne.
Qed.

Lemma others_kept_write f info_set :
  preserves (others_kept self player) (write_node Node_map f player info_set).
Proof.
  intros w p i Hp. left.
  change (node_map (write_node Node_map f player info_set w).2)
    with (alter_node f player info_set (node_map w)).
  apply lookup_alter_node_ne. congruence.
Qed.

Lemma others_kept_choices strategy : preserves (others_kept self player) (choices strategy).
Proof.
  intros w. apply others_kept_same. unfold choices. by destruct (random_choices _ _ _).
Qed.

(** [update_strategy] changes no node of another player: such a node is as
    it was, or has been created by [setdefault]. *)
Lemma update_strategy_others_kept (st : State num) :
  preserves (others_kept self player) (update_strategy self player st).
Proof.
  induction st as [payoff | turn info_set successors IH] using State_rect';
    rewrite update_strategy_unfold.
  - apply preserves_bind; [apply _ | | intros _; apply preserves_ret; apply _].
    intros w. by apply others_kept_same.
  - apply preserves_bind; [apply _ | intros w; by apply others_kept_same |].
    intros _. unfold update_strategy_node.
    assert (Hrec : ∀ a, preserves (others_kept self player)
              (call_on ((λ '(a0, new_state),
                 (a0, update_strategy self player new_state)) <$> successors) a)).
    { intros a. apply preserves_call_on; [apply _ |].
      intros m Hm. rewrite assoc_fmap in Hm.
      destruct (assoc successors a) as [new_state |] eqn:Ha; [| done].
      injection Hm as <-.
      rewrite Forall_forall in IH. exact (IH _ (assoc_Some_elem_of _ _ _ Ha)). }
    destruct (decide (turn = player)) as [-> | Hturn].
    + repeat first [apply others_kept_setdefault | apply others_kept_choices
                   | apply others_kept_write | apply Hrec | preserves_step].
    + repeat first [apply others_kept_setdefault | apply Hrec | preserves_step].
Qed.
End Others.

(** *** Evaluation of the average strategy *)

Section Evaluation.
Context {num : Type} `{!Arith num} `{!Random num} `{!SetOrder}.
Variable self : Config.

Lemma permutations_spec {C : Type} (l : list C) (r : nat) (c : list C) :
  c ∈ permutations l r ↔ length c = r ∧ c ⊆+ l.
Proof.
  revert l c. induction r as [| r IH]; intros l c; simpl.
  - rewrite list_elem_of_singleton. split.
    + intros ->. split; [done | apply submseteq_nil_l].
    + intros [Hlen _]. by destruct c.
  - rewrite list_elem_of_bind. split.
    + intros (i & Hc & Hi). destruct (l !! i) as [x |] eqn:Hx; [| by apply elem_of_nil in Hc].
      apply list_elem_of_fmap in Hc as (c' & -> & Hc'). apply IH in Hc' as [Hlen Hsub].
      split; [simpl; by rewrite Hlen |].
      apply submseteq_cons_l. exists (delete i l). split; [by apply delete_Permutation | done].
    + intros [Hlen Hsub]. destruct c as [| x c']; [done |].
      apply submseteq_cons_l in Hsub as (k & Hperm & Hsub).
      assert (Hx : x ∈ l) by (rewrite Hperm; left).
      apply list_elem_of_lookup in Hx as [i Hi].
      exists i. split.
      * rewrite Hi. apply list_elem_of_fmap. exists c'. split; [done |].
        apply IH. split; [simpl in Hlen; lia |].
        assert (Hk : delete i l ≡ₚ k).
        { apply (Permutation_cons_inv (a := x)). by rewrite <- delete_Permutation. }
        by rewrite Hk.
      * apply elem_of_seq. apply lookup_lt_Some in Hi. lia.
Qed.

Lemma try_except_Return {A} (m : M num A) e (w : World num) a w' :
  try_except_raise m e w = (Return a, w') → m w = (Return a, w').
Proof. unfold try_except_raise. by destruct (m w) as [[? | ?] ?]; intros [= <- <-]. Qed.

(** The loop of [traverse_tree], when it returns. *)
Lemma traverse_loop_run (strategy : gmap action num) recurse l util0 (w : World num) util w' :
  for_each (λ util a,
              child ← recurse a;
              p ← lift (getitem strategy a);
              lift (np_iadd util (np_scale child p))) util0 l w = (Return util, w') →
  ∃ us, seq_run recurse l w us w' ∧
        weighted_sum (getitem strategy) util0 (zip l us) = Return util.
Proof.
  revert util0 w. induction l as [| a l IH]; intros util0 w Hrun.
  - injection Hrun as <- <-. exists []. split; [constructor | done].
  - rewrite for_each_cons, bind_run in Hrun. cbv beta in Hrun. rewrite bind_run in Hrun.
    destruct (recurse a w) as [[child | e] w1] eqn:Hrec; [| done].
    cbv beta in Hrun. rewrite bind_lift in Hrun.
    destruct (getitem strategy a) as [p | e] eqn:Hp; [| done].
    unfold lift in Hrun.
    destruct (np_iadd util0 (np_scale child p)) as [util1 | e] eqn:Hadd; [| done].
    destruct (IH _ _ Hrun) as (us & Hus & Hsum).
    exists (child :: us). split; [by econstructor |]. simpl. by rewrite Hp, Hadd.
Qed.

(** The loop of [expected_utility], when it returns. *)
Lemma expected_utility_loop_run {C} (f : C → M num (list num)) l acc0 (w : World num) acc w' :
  for_each (λ acc c, u ← f c; lift (np_iadd acc u)) acc0 l w = (Return acc, w') →
  ∃ us, seq_run f l w us w' ∧ np_sum acc0 us = Return acc.
Proof.
  revert acc0 w. induction l as [| c l IH]; intros acc0 w Hrun.
  - injection Hrun as <- <-. exists []. split; [constructor | done].
  - rewrite for_each_cons, bind_run in Hrun. cbv beta in Hrun. rewrite bind_run in Hrun.
    destruct (f c w) as [[u | e] w1] eqn:Hf; [| done].
    cbv beta in Hrun. unfold lift in Hrun.
    destruct (np_iadd acc0 u) as [acc1 | e] eqn:Hadd; [| done].
    destruct (IH _ _ Hrun) as (us & Hus & Hsum).
    exists (u :: us). split; [by econstructor |]. simpl. by rewrite Hadd.
Qed.

Lemma seq_run_length {A B} (f : A → M num B) l (w : World num) bs w' :
  seq_run f l w bs w' → length bs = length l.
Proof. induction 1; simpl; congruence. Qed.

Lemma seq_run_fun {A B} (f : A → M num B) l (w : World num) bs w' bs2 w2 :
  seq_run f l w bs w' → seq_run f l w bs2 w2 → bs = bs2.
Proof.
  intros Hrun. revert bs2 w2.
  induction Hrun as [| x l w b w1 bs w' Hx _ IH]; intros bs2 w2 Hrun2; inversion Hrun2; subst.
  - done.
  - match goal with H : f x w = (Return _, _) |- _ => rewrite Hx in H; injection H as <- <- end.
    f_equal. by eapply IH.
Qed.

Lemma seq_run_ext {A B} (f g : A → M num B) l (w : World num) bs w' :
  (∀ x w0, x ∈ l → f x w0 = g x w0) → seq_run f l w bs w' → seq_run g l w bs w'.
Proof.
  intros Hfg Hrun. induction Hrun as [| x l w b w1 bs w' Hx _ IH]; [constructor |].
  econstructor.
  - rewrite <- Hfg; [exact Hx | left].
  - apply IH. intros y w0 Hy. apply Hfg. by right.
Qed.

Lemma np_iadd_length (acc v acc' : list num) :
  np_iadd acc v = Return acc' → length acc' = length acc.
Proof.
  unfold np_iadd. destruct (decide (length v = length acc)) as [Hlen | Hlen].
  - intros [= <-]. rewrite length_zip_with. lia.
  - destruct v as [| x [| y v]]; [done | | done]. intros [= <-]. by rewrite length_fmap.
Qed.

Lemma np_iadd_Raise (acc v : list num) e :
  np_iadd acc v = Raise e → e = ValueError ∧ length v ≠ length acc.
Proof.
  unfold np_iadd. destruct (decide (length v = length acc)) as [Hlen | Hlen]; [done |].
  destruct v as [| x [| y v]]; [| done |]; by intros [= <-].
Qed.

(** *** Vector sums, entry by entry *)

Lemma np_iadd_entry (acc v acc' : list num) k x :
  np_iadd acc v = Return acc' → acc !! k = Some x →
  ∃ y, entry k v = Some y ∧ acc' !! k = Some (add x y).
Proof.
  unfold np_iadd. intros Hadd Hx.
  destruct (decide (length v = length acc)) as [Hlen | Hlen].
  - injection Hadd as <-.
    destruct (lookup_lt_is_Some_2 v k) as [y Hy]; [rewrite Hlen; by eapply lookup_lt_Some |].
    exists y. split.
    + unfold entry. destruct v as [| y0 [| y1 v]]; [done | | done]. by destruct k.
    + by rewrite lookup_zip_with, Hx, Hy.
  - destruct v as [| y [| y1 v]]; [done | | done]. injection Hadd as <-.
    exists y. split; [done |]. by rewrite list_lookup_fmap, Hx.
Qed.

Lemma entry_np_scale k (v : list num) p :
  entry k (np_scale v p) = (λ x, mul x p) <$> entry k v.
Proof.
  unfold np_scale, entry. destruct v as [| x [| y v]]; [by destruct k | done |].
  by rewrite list_lookup_fmap.
Qed.

Lemma np_sum_length (acc : list num) us total :
  np_sum acc us = Return total → length total = length acc.
Proof.
  revert acc. induction us as [| u us IH]; intros acc; simpl; [by intros [= <-] |].
  destruct (np_iadd acc u) as [acc1 | e] eqn:Hadd; [| done].
  intros Hsum. rewrite (IH _ Hsum). by eapply np_iadd_length.
Qed.

(** The sum of vectors has, at every entry, the sum from left to right of
    what the vectors add there. *)
Lemma np_sum_entries (acc : list num) us total k x0 :
  np_sum acc us = Return total → acc !! k = Some x0 →
  ∃ column, Forall2 (λ u x, entry k u = Some x) us column ∧
            total !! k = Some (foldl add x0 column).
Proof.
  revert acc x0. induction us as [| u us IH]; intros acc x0; simpl.
  - intros [= <-] Hx. exists []. by split.
  - destruct (np_iadd acc u) as [acc1 | e] eqn:Hadd; [| done]. intros Hsum Hx.
    destruct (np_iadd_entry _ _ _ _ _ Hadd Hx) as (y & Hy & Hx1).
    destruct (IH _ _ Hsum Hx1) as (column & Hcol & Htotal).
    exists (y :: column). split; [by constructor | done].
Qed.

Lemma weighted_sum_length (strategy : action → outcome num) (acc : list num) visits util :
  weighted_sum strategy acc visits = Return util → length util = length acc.
Proof.
  revert acc. induction visits as [| [a u] visits IH]; intros acc; simpl; [by intros [= <-] |].
  destruct (strategy a) as [p | e]; [| done].
  destruct (np_iadd acc (np_scale u p)) as [acc1 | e] eqn:Hadd; [| done].
  intros Hsum. rewrite (IH _ Hsum). by eapply np_iadd_length.
Qed.

(** The weighted sum has, at every entry, the sum from left to right of
    what the vectors add there, each times the probability of its action. *)
Lemma weighted_sum_entries (strategy : gmap action num) l us (acc : list num) util :
  length us = length l →
  weighted_sum (getitem strategy) acc (zip l us) = Return util →
  ∃ ps, Forall2 (λ a p, strategy !! a = Some p) l ps ∧
        ∀ k x0, acc !! k = Some x0 →
          ∃ column, Forall2 (λ u x, entry k u = Some x) us column ∧
                    util !! k = Some (foldl (λ s xp, add s (mul xp.1 xp.2)) x0 (zip column ps)).
Proof.
  revert us acc. induction l as [| a l IH]; intros [| u us] acc Hlen; simpl in *; try done.
  - intros [= <-]. exists []. split; [constructor |]. intros k x0 Hx. exists []. by split.
  - unfold getitem at 1. destruct (strategy !! a) as [p |] eqn:Hp; [| done].
    destruct (np_iadd acc (np_scale u p)) as [acc1 | e] eqn:Hadd; [| done]. intros Hsum.
    destruct (IH us acc1) as (ps & Hps & Hentries); [lia | done |].
    exists (p :: ps). split; [by constructor |]. intros k x0 Hx.
    destruct (np_iadd_entry _ _ _ _ _ Hadd Hx) as (y & Hy & Hx1).
    rewrite entry_np_scale in Hy.
    destruct (entry k u) as [x |] eqn:Hu; [| done]. injection Hy as <-.
    destruct (Hentries _ _ Hx1) as (column & Hcol & Hutil).
    exists (x :: column). split; [by constructor | done].
Qed.

Lemma setdefault_idem player info_set (m : gmap nat (gmap string (InfoSet.t num))) :
  setdefault self player info_set (setdefault self player info_set m)
  = setdefault self player info_set m.
Proof. eapply setdefault_present. apply lookup_setdefault_eq. Qed.

(** [traverse_tree] does not tell an information set that is not in the
    node map from one that is there with a new [InfoSet]. *)
Lemma traverse_tree_absent_as_new turn info_set successors (w : World num) :
  traverse_tree self (Decision turn info_set successors) w
  = traverse_tree self (Decision turn info_set successors)
      (set_node_map (setdefault self turn info_set (node_map w)) w).
Proof.
  rewrite !traverse_tree_unfold. rewrite !(bind_run (log _)). simpl.
  unfold traverse_tree_node, try_except_raise. rewrite !(bind_run (node_setdefault _ _ _ _)).
  simpl. unfold set_node_map. simpl. by rewrite setdefault_idem.
Qed.
End Evaluation.

(** * The claims *)

Section Claims.
Context {num : Type} `{!Arith num} `{!Random num} `{!SetOrder}.
Variable self : Config.

(** C4. At a non-terminal state whose acting player is not the traversing
    player, [mccfr] creates the node if needed, draws one action with
    [random.choices] from the node's regret-matching strategy over the legal
    actions, and is from there on exactly the call on that action's
    successor: it returns what that call returns, and every state visited
    after the node itself lies in the subtree of the sampled successor. *)
Theorem mccfr_opponent_samples_once player turn info_set successors prune (w : World num) :
  turn ≠ player →
  let state := Decision turn info_set successors in
  let w1 := (node_setdefault self Node_map turn info_set (log (Call_mccfr state) w).2).2 in
  ∃ node,
    lookup_node (node_map w1) turn info_set = Some node ∧
    let strategy := InfoSet.strategy node successors.*1 in
    match random_choices (rng w) strategy.*1 strategy.*2 with
    | (Return random_action, g) =>
        match assoc successors random_action with
        | Some new_state =>
            mccfr self player state prune w
            = mccfr self player new_state prune (set_rng g w1) ∧
            ∃ l, calls (mccfr self player state prune w).2
                 = calls w ++ Call_mccfr state :: l ∧
                 Forall (mccfr_within new_state) l
        | None => mccfr self player state prune w = (Raise ValueError, set_rng g w1)
        end
    | (Raise e, g) => mccfr self player state prune w = (Raise e, set_rng g w1)
    end.
Proof.
  intros Hturn state w1.
  destruct (lookup_node (node_map w1) turn info_set) as [node |] eqn:Hnode; last first.
  { change (node_map w1) with (setdefault self turn info_set (node_map w)) in Hnode.
    by rewrite lookup_setdefault_eq in Hnode. }
  exists node. split; [done |]. intros strategy.
  assert (Hstep : mccfr self player state prune w
                  = (choices strategy ≫= call_on ((λ '(a, new_state),
                       (a, mccfr self player new_state prune)) <$> successors)) w1).
  { unfold state. rewrite mccfr_unfold. erewrite bind_Return by done.
    unfold mccfr_node. destruct (decide (turn = player)) as [? | _]; [done |].
    erewrite bind_Return by done.
    erewrite bind_Return by (apply read_node_Some; exact Hnode). done. }
  rewrite Hstep. unfold mbind, M_bind, bind, choices.
  assert (Hrng : rng w1 = rng w) by done. rewrite Hrng.
  destruct (random_choices (rng w) strategy.*1 strategy.*2) as [[random_action | e] g];
    [| done].
  unfold call_on. rewrite assoc_fmap.
  destruct (assoc successors random_action) as [new_state |] eqn:Ha; simpl; [| done].
  split; [done |].
  destruct (mccfr_logs self player prune new_state (set_rng g w1)) as (l & Hl & Hall).
  exists l. split; [| done]. rewrite Hl.
  change (calls (set_rng g w1)) with (calls w ++ [Call_mccfr state]).
  by rewrite <- app_assoc.
Qed.

Lemma strategy_sum_setitem_weight a value (node : InfoSet.t num) :
  InfoSet.weight (InfoSet.strategy_sum_setitem a value node) a = value.
Proof. unfold InfoSet.weight, InfoSet.strategy_sum_setitem. simpl. by rewrite lookup_insert_eq. Qed.

Lemma strategy_sum_setitem_other a b value (node : InfoSet.t num) :
  b ≠ a →
  InfoSet.strategy_sum (InfoSet.strategy_sum_setitem a value node) !! b
  = InfoSet.strategy_sum node !! b.
Proof. intros Hne. unfold InfoSet.strategy_sum_setitem. simpl. by rewrite lookup_insert_ne. Qed.

(** C5. [update_strategy] at a non-terminal state. When the acting player
    is [player], it draws one action from the node's regret-matching
    strategy, adds exactly 1 to that action's entry of the node's
    [strategy_sum] (no other entry and no regret changes) and is from there
    on the call on the sampled successor alone. The one case in which the
    entry cannot be read, a [strategy_sum] that [discount] has rebuilt as a
    plain dictionary and that lacks the action, ends the call with
    [KeyError] before anything is added. When another player acts, the node
    is only created if absent and the call runs the recursive call on the
    successor of every legal action, in order. *)
Theorem update_strategy_asymmetric player turn info_set successors (w : World num) :
  let state := Decision turn info_set successors in
  let w1 := (node_setdefault self Node_map turn info_set
               (log (Call_update_strategy state) w).2).2 in
  ∃ node,
    lookup_node (node_map w1) turn info_set = Some node ∧
    node = default (InfoSet.new (actions self)) (lookup_node (node_map w) turn info_set) ∧
    if decide (turn = player) then
      let strategy := InfoSet.strategy node successors.*1 in
      match random_choices (rng w) strategy.*1 strategy.*2 with
      | (Return random_action, g) =>
          match InfoSet.strategy_sum_getitem node random_action with
          | Return value =>
              let node' := InfoSet.strategy_sum_setitem random_action (add value one) node in
              let w2 := set_node_map
                          (alter_node (InfoSet.strategy_sum_setitem random_action (add value one))
                                      turn info_set (node_map w1))
                          (set_rng g w1) in
              value = InfoSet.weight node random_action ∧
              lookup_node (node_map w2) turn info_set = Some node' ∧
              InfoSet.weight node' random_action
              = add (InfoSet.weight node random_action) one ∧
              (∀ b, b ≠ random_action →
                    InfoSet.strategy_sum node' !! b = InfoSet.strategy_sum node !! b) ∧
              InfoSet.regret_sum node' = InfoSet.regret_sum node ∧
              match assoc successors random_action with
              | Some new_state =>
                  update_strategy self player state w
                  = update_strategy self player new_state w2 ∧
                  ∃ l, calls (update_strategy self player state w).2
                       = calls w ++ Call_update_strategy state :: l ∧
                       Forall (update_strategy_within new_state) l
              | None => update_strategy self player state w = (Raise ValueError, w2)
              end
          | Raise e =>
              e = KeyError ∧
              InfoSet.strategy_sum_plain node = true ∧
              InfoSet.strategy_sum node !! random_action = None ∧
              update_strategy self player state w = (Raise KeyError, set_rng g w1)
          end
      | (Raise e, g) => update_strategy self player state w = (Raise e, set_rng g w1)
      end
    else
      (∀ a, a ∈ successors.*1 → is_Some (assoc successors a)) ∧
      update_strategy self player state w
      = for_each (λ _ a, match assoc successors a with
                         | Some new_state => update_strategy self player new_state
                         | None => raise ValueError
                         end) () successors.*1 w1.
Proof.
  intros state w1.
  assert (Hnode : lookup_node (node_map w1) turn info_set
                  = Some (default (InfoSet.new (actions self))
                                  (lookup_node (node_map w) turn info_set))).
  { change (node_map w1) with (setdefault self turn info_set (node_map w)).
    apply lookup_setdefault_eq. }
  eexists. split; [exact Hnode |]. split; [done |].
  set (node := default _ _) in *.
  destruct (decide (turn = player)) as [Hturn | Hturn]; cbv iota.
  - intros strategy.
    assert (Hstep : update_strategy self player state w
              = (choices strategy ≫= λ random_action,
                 incr_strategy_sum Node_map random_action turn info_set ≫= λ _,
                 call_on ((λ '(a, new_state),
                    (a, update_strategy self player new_state)) <$> successors) random_action) w1).
    { unfold state. rewrite update_strategy_unfold. erewrite bind_Return by done.
      unfold update_strategy_node. destruct (decide (turn = player)); [| done].
      erewrite bind_Return by done.
      erewrite bind_Return by (apply read_node_Some; exact Hnode). done. }
    rewrite Hstep. rewrite bind_run. unfold choices.
    assert (Hrng : rng w1 = rng w) by done. rewrite Hrng.
    destruct (random_choices (rng w) strategy.*1 strategy.*2) as [[random_action | e] g];
      cbv iota; [| done].
    rewrite bind_run, (incr_strategy_sum_run _ _ _ _ (set_rng g w1) node) by exact Hnode.
    destruct (InfoSet.strategy_sum_getitem node random_action) as [value | e] eqn:Hread.
    2: { apply getitem_or_zero_Raise in Hread as (-> & Hplain & Hnone). done. }
    cbv zeta.
    set (w2 := set_node_map _ (set_rng g w1)).
    change (set_store Node_map _ (set_rng g w1)) with w2.
    apply strategy_sum_getitem_Return in Hread as Hvalue.
    split; [done |]. split.
    { change (node_map w2)
        with (alter_node (InfoSet.strategy_sum_setitem random_action (add value one))
                         turn info_set (node_map w1)).
      rewrite lookup_alter_node_eq. by rewrite Hnode. }
    split; [by rewrite strategy_sum_setitem_weight, Hvalue |].
    split; [intros b Hb; by apply strategy_sum_setitem_other |].
    split; [done |].
    unfold call_on. rewrite assoc_fmap.
    destruct (assoc successors random_action) as [new_state |] eqn:Ha; simpl; [| done].
    split; [done |].
    destruct (update_strategy_logs self player new_state w2) as (l & Hl & Hall).
    exists l. split; [| done]. rewrite Hl.
    change (calls w2) with (calls w ++ [Call_update_strategy state]).
    by rewrite <- app_assoc.
  - split; [intros a Ha; by apply assoc_is_Some |].
    unfold state. rewrite update_strategy_unfold. erewrite bind_Return by done.
    unfold update_strategy_node. destruct (decide (turn = player)); [done |].
    erewrite bind_Return by done.
    apply for_each_ext. intros [] a w' _. unfold call_on. rewrite assoc_fmap.
    by destruct (assoc successors a).
Qed.

(** *** discount *)

Lemma discount_by_players d (l : list nat) (w : World num) :
  NoDup l →
  (∀ p, p ∈ l → is_Some (node_map w !! p)) →
  ∃ m, for_each (discount_player d) () l w = (Return (), set_node_map m w) ∧
       ∀ q, m !! q = (if decide (q ∈ l)
                      then λ pn : gmap string (InfoSet.t num), discount_node d <$> pn
                      else id) <$> (node_map w !! q).
Proof.
  revert w. induction l as [| p l IH]; intros w Hnd Hin.
  - exists (node_map w). split; [by destruct w |].
    intros q. rewrite decide_False by apply not_elem_of_nil.
    by destruct (node_map w !! q).
  - apply NoDup_cons in Hnd as [Hp Hnd].
    destruct (Hin p) as [pn Hpn]; [left |].
    set (w1 := set_node_map (<[p := discount_node d <$> pn]> (node_map w)) w).
    destruct (IH w1 Hnd) as (m & Hrun & Hm).
    { intros q Hq. change (node_map w1) with (<[p := discount_node d <$> pn]> (node_map w)).
      rewrite lookup_insert_ne by (intros ->; done). apply Hin. by right. }
    exists m. split.
    + simpl. erewrite bind_Return; [exact Hrun |].
      unfold discount_player. erewrite bind_Return by done. by rewrite Hpn.
    + intros q. rewrite Hm.
      change (node_map w1) with (<[p := discount_node d <$> pn]> (node_map w)).
      destruct (decide (q = p)) as [-> | Hq].
      * rewrite lookup_insert_eq, Hpn, decide_False, decide_True by (done || left). done.
      * rewrite lookup_insert_ne by done.
        destruct (decide (q ∈ l)) as [Hl | Hl].
        -- rewrite decide_True; [done | by right].
        -- rewrite decide_False; [done |]. intros [-> | ?]%elem_of_cons; done.
Qed.

(** C6. On a node map whose players are the players of the game,
    [discount(t)] returns normally and replaces every entry of [regret_sum]
    and of [strategy_sum] of every information set of every player by its
    product with [d = (t/discount_interval)/(t/discount_interval + 1)]; the
    keys, the [is_frozen] flags, the sub-game strategy map and the generator
    are as before, and both mappings of every node are now plain
    dictionaries. A run of [train] that returns has called [discount]
    once for each iteration [t] of [1..iterations] with [t < 400] and
    [t % 100 = 0], in order, and at no other time. *)
Theorem discount_scales_every_entry (t : nat) (w : World num) :
  (∀ p, is_Some (node_map w !! p) ↔ p < num_players self) →
  let x : num := div (of_Z (Z.of_nat t)) (of_Z 100) in
  let d : num := div x (add x one) in
  (∃ w', discount self t w = (Return (), w') ∧
     node_map w'
     = (λ player_nodes : gmap string (InfoSet.t num), discount_node d <$> player_nodes)
         <$> node_map w ∧
     self_strategy w' = self_strategy w ∧ rng w' = rng w ∧
     calls w' = calls w ++ [Call_discount t]) ∧
  (∀ node a,
     InfoSet.regret_sum (discount_node d node) !! a
     = (λ value, mul value d) <$> (InfoSet.regret_sum node !! a : option num) ∧
     InfoSet.strategy_sum (discount_node d node) !! a
     = (λ value, mul value d) <$> (InfoSet.strategy_sum node !! a : option num) ∧
     InfoSet.is_frozen (discount_node d node) = InfoSet.is_frozen node ∧
     InfoSet.regret_sum_plain (discount_node d node) = true ∧
     InfoSet.strategy_sum_plain (discount_node d node) = true) ∧
  (∀ (card : Type) `(!EqDecision card) (self_state : list card → State num)
     (cards : list card) (iterations : nat) (w0 : World num) u w',
     train self self_state cards iterations w0 = (Return u, w') →
     ∃ l, calls w' = calls w0 ++ l ∧
          discount_calls l = filter (λ t, t < 400 ∧ t `mod` 100 = 0) (seq 1 iterations)).
Proof.
  intros Hplayers x d. split; [| split].
  - set (w0 := (log (Call_discount t) w).2).
    destruct (discount_by_players d (seq 0 (num_players self)) w0) as (m & Hrun & Hm).
    { apply NoDup_seq. }
    { intros p Hp. apply Hplayers. apply elem_of_seq in Hp. lia. }
    exists (set_node_map m w0). split; [| split; [| done]].
    + unfold discount. erewrite bind_Return by done. exact Hrun.
    + change (node_map (set_node_map m w0)) with m. apply map_eq. intros q.
      rewrite Hm, lookup_fmap. change (node_map w0) with (node_map w).
      destruct (node_map w !! q) as [pn |] eqn:Hq; [| done].
      rewrite decide_True; [done |].
      apply elem_of_seq. split; [lia |]. simpl. apply Hplayers. by rewrite Hq.
  - intros node a. unfold discount_node, scale. simpl. by rewrite !lookup_fmap.
  - intros card Hcard self_state cards iterations w0 u w' Hrun.
    destruct (train_discount_calls self self_state _ _ _ _ _ Hrun) as (l & Hl & Hd).
    exists l. split; [done |]. rewrite Hd. apply list_filter_iff. intros n.
    unfold discount_due, lcfr_threshold, discount_interval.
    rewrite andb_true_iff, !bool_decide_eq_true. done.
Qed.

Lemma reached_same_keys (m m' : gmap nat (gmap string (InfoSet.t num))) l :
  (∀ q, q ∈ l → is_Some (m' !! q) ↔ is_Some (m !! q)) → reached m' l = reached m l.
Proof.
  induction l as [| p l IH]; intros Hkeys; simpl; [done |].
  rewrite IH by (intros q Hq; apply Hkeys; by right).
  destruct (Hkeys p) as [H1 H2]; [left |].
  destruct (m !! p) as [pn |], (m' !! p) as [pn' |]; try done.
  - destruct H2 as [? ?]; [by eexists | done].
  - destruct H1 as [? ?]; [by eexists | done].
Qed.

Lemma reached_sublist (m : gmap nat (gmap string (InfoSet.t num))) l q :
  q ∈ reached m l → q ∈ l.
Proof.
  induction l as [| p l IH]; simpl; [done |].
  destruct (m !! p); [| by intros ?%elem_of_nil].
  intros [-> | Hq]%elem_of_cons; [left | right; by apply IH].
Qed.

(** The scaling of [discount] on any node map: it scales the nodes of the
    players it reaches, and raises [KeyError] when that is not all of
    them. *)
Lemma discount_by_reached d (l : list nat) (w : World num) :
  NoDup l →
  ∃ m, for_each (discount_player d) () l w
       = (if decide (reached (node_map w) l = l) then Return () else Raise KeyError,
          set_node_map m w) ∧
       ∀ q, m !! q = (if decide (q ∈ reached (node_map w) l)
                      then λ pn : gmap string (InfoSet.t num), discount_node d <$> pn
                      else id) <$> (node_map w !! q).
Proof.
  revert w. induction l as [| p l IH]; intros w Hnd.
  - exists (node_map w). split; [by destruct w |].
    intros q. change (reached (node_map w) []) with (@nil nat).
    rewrite decide_False by apply not_elem_of_nil.
    by destruct (node_map w !! q).
  - apply NoDup_cons in Hnd as [Hp Hnd].
    change (reached (node_map w) (p :: l))
      with (match node_map w !! p with
            | Some _ => p :: reached (node_map w) l
            | None => []
            end).
    rewrite for_each_cons.
    destruct (node_map w !! p) as [pn |] eqn:Hpn.
    + set (w1 := set_node_map (<[p := discount_node d <$> pn]> (node_map w)) w).
      destruct (IH w1 Hnd) as (m & Hrun & Hm).
      assert (Hkeys : reached (node_map w1) l = reached (node_map w) l).
      { apply reached_same_keys. intros q Hq.
        change (node_map w1) with (<[p := discount_node d <$> pn]> (node_map w)).
        rewrite lookup_insert_ne; [done |]. by intros ->. }
      rewrite Hkeys in Hrun, Hm. exists m. split.
      * erewrite bind_Return; [| unfold discount_player; erewrite bind_Return by done;
                                  by rewrite Hpn].
        fold w1. rewrite Hrun.
        change (set_node_map m w1) with (set_node_map m w). f_equal.
        destruct (decide (reached (node_map w) l = l)) as [-> | Hne].
        -- by rewrite decide_True.
        -- rewrite decide_False; [done |]. by intros [= ?].
      * intros q. rewrite Hm.
        change (node_map w1) with (<[p := discount_node d <$> pn]> (node_map w)).
        destruct (decide (q = p)) as [-> | Hq].
        -- rewrite lookup_insert_eq, Hpn.
           rewrite (decide_True _ _ (list_elem_of_here p _)).
           rewrite decide_False; [done |].
           intros Hin. by apply reached_sublist in Hin.
        -- rewrite lookup_insert_ne by done.
           destruct (decide (q ∈ reached (node_map w) l)) as [Hl | Hl].
           ++ rewrite decide_True; [done | by right].
           ++ rewrite decide_False; [done |]. intros [-> | ?]%elem_of_cons; done.
    + exists (node_map w). split.
      * erewrite bind_Raise; [| unfold discount_player; erewrite bind_Return by done;
                                 by rewrite Hpn].
        rewrite decide_False by done. by destruct w.
      * intros q. rewrite decide_False by apply not_elem_of_nil.
        by destruct (node_map w !! q).
Qed.

(** Scaling twice, on any node map and in any arithmetic: the second
    scaling reaches the players the first one reached and ends as it did,
    and every entry [v] of their nodes has become [(v * d1) * d2]. One
    scaling by [d1 * d2] reaches the same players, ends the same way and
    makes [v * (d1 * d2)] of the entry. *)
Lemma discount_twice_entries d1 d2 (w : World num) :
  let players := reached (node_map w) (seq 0 (num_players self)) in
  let first := discount_by self d1 w in
  let twice := discount_by self d2 first.2 in
  let once := discount_by self (mul d1 d2) w in
  first.1 = once.1 ∧ twice.1 = once.1 ∧
  (∀ q, node_map twice.2 !! q
        = (if decide (q ∈ players)
           then λ pn : gmap string (InfoSet.t num),
                  (λ node, discount_node d2 (discount_node d1 node)) <$> pn
           else id) <$> (node_map w !! q)) ∧
  (∀ q, node_map once.2 !! q
        = (if decide (q ∈ players)
           then λ pn : gmap string (InfoSet.t num), discount_node (mul d1 d2) <$> pn
           else id) <$> (node_map w !! q)) ∧
  (∀ node a,
     InfoSet.regret_sum (discount_node d2 (discount_node d1 node)) !! a
     = (λ v, mul (mul v d1) d2) <$> (InfoSet.regret_sum node !! a : option num) ∧
     InfoSet.strategy_sum (discount_node d2 (discount_node d1 node)) !! a
     = (λ v, mul (mul v d1) d2) <$> (InfoSet.strategy_sum node !! a : option num) ∧
     InfoSet.regret_sum (discount_node (mul d1 d2) node) !! a
     = (λ v, mul v (mul d1 d2)) <$> (InfoSet.regret_sum node !! a : option num) ∧
     InfoSet.strategy_sum (discount_node (mul d1 d2) node) !! a
     = (λ v, mul v (mul d1 d2)) <$> (InfoSet.strategy_sum node !! a : option num)) ∧
  self_strategy twice.2 = self_strategy once.2 ∧ rng twice.2 = rng once.2 ∧
  calls twice.2 = calls once.2.
Proof.
  intros players first twice once. subst twice once first. unfold discount_by.
  destruct (discount_by_reached d1 _ w (NoDup_seq 0 (num_players self))) as (m1 & Hrun1 & Hm1).
  destruct (discount_by_reached (mul d1 d2) _ w (NoDup_seq 0 (num_players self)))
    as (m & Hrun & Hm).
  destruct (discount_by_reached d2 _ (set_node_map m1 w) (NoDup_seq 0 (num_players self)))
    as (m2 & Hrun2 & Hm2).
  assert (Hkeys : reached m1 (seq 0 (num_players self)) = players).
  { apply reached_same_keys. intros q _. rewrite Hm1.
    destruct (node_map w !! q); simpl; split; intros [? ?]; by eexists. }
  change (node_map (set_node_map m1 w)) with m1 in Hrun2, Hm2.
  rewrite Hkeys in Hrun2, Hm2. fold players in Hrun1, Hrun, Hm1, Hm.
  rewrite Hrun1. cbn [fst snd]. rewrite Hrun2, Hrun. cbn [fst snd].
  change (node_map (set_node_map ?m _)) with m.
  split; [done |]. split; [done |]. split; [| split; [exact Hm |]].
  - intros q. rewrite Hm2, Hm1.
    destruct (node_map w !! q) as [pn |]; [| done]. simpl.
    destruct (decide (q ∈ players)); [| done]. simpl. f_equal.
    by rewrite <- map_fmap_compose.
  - split; [| done]. intros node a. unfold discount_node, scale. simpl.
    rewrite <- !map_fmap_compose, !lookup_fmap.
    by destruct (InfoSet.regret_sum node !! a), (InfoSet.strategy_sum node !! a).
Qed.

(** *** Pruning *)

Lemma regret_sum_setitem_regret a value (node : InfoSet.t num) :
  InfoSet.regret (InfoSet.regret_sum_setitem a value node) a = value.
Proof. unfold InfoSet.regret, InfoSet.regret_sum_setitem. simpl. by rewrite lookup_insert_eq. Qed.

(** C2. With pruning on, at a node of the traversing player: an action whose
    regret [node.regret_sum[a]], when the loop reaches it, is at most
    [regret_minimum] is passed over: the step makes no recursive call and
    leaves the utilities, the expected value, the explored set and the world
    (the call log included) as they are. In a call that returns, the actions are visited or passed
    over as [explore_run] says, the value returned is the weighted sum over
    the visits alone, an action that was not visited is left alone by the
    regret update, and a visited one gets
    [regret_sum[a] += utilities[a] - expected_value[player]]. *)
Theorem mccfr_prune_skips_floor `{!ArithOrder num} :
  (∀ s curr_player info_set strategy recurse U E X a (w : World num) node regret,
     lookup_node (get_store s w) curr_player info_set = Some node →
     InfoSet.regret_sum_getitem node a = Return regret →
     leb regret (of_Z regret_minimum) = true →
     mccfr_explore s true curr_player info_set strategy recurse (U, E, X) a w
     = (Return (U, E, X), w)) ∧
  (∀ s curr_player info_set recurse a l (w : World num) visits w' node regret,
     explore_run s true curr_player info_set recurse (a :: l) w visits w' →
     lookup_node (get_store s w) curr_player info_set = Some node →
     InfoSet.regret_sum_getitem node a = Return regret →
     leb regret (of_Z regret_minimum) = true →
     explore_run s true curr_player info_set recurse l w visits w') ∧
  (∀ player info_set successors (w : World num) ev w',
     mccfr self player (Decision player info_set successors) true w = (Return ev, w') →
     let state := Decision player info_set successors in
     let w1 := (node_setdefault self Node_map player info_set (log (Call_mccfr state) w).2).2 in
     let recurse := call_on ((λ '(a, new_state),
                                (a, mccfr self player new_state true)) <$> successors) in
     ∃ node visits w2,
       lookup_node (node_map w1) player info_set = Some node ∧
       explore_run Node_map true player info_set recurse successors.*1 w1 visits w2 ∧
       weighted_sum (dict_get (InfoSet.strategy node successors.*1))
                   (np_zeros (num_players self)) visits
       = Return ev ∧
       let utilities := utilities_of player (list_to_map ((λ a, (a, zero)) <$> successors.*1))
                                     visits in
       let explored : gset action := list_to_set visits.*1 in
       w' = set_node_map
              (alter_node (λ node, foldl (regret_step true player utilities ev explored)
                                         node successors.*1)
                          player info_set (node_map w2)) w2 ∧
       (∀ a node, a ∉ visits.*1 →
                  regret_step true player utilities ev explored node a = node) ∧
       (∀ a node, a ∈ visits.*1 →
          ∃ u v, utilities !! a = Some u ∧ ev !! player = Some v ∧
                 let node' := InfoSet.regret_sum_setitem
                                a (add (InfoSet.regret node a) (sub u v)) node in
                 regret_step true player utilities ev explored node a = node' ∧
                 InfoSet.regret node' a = add (InfoSet.regret node a) (sub u v))).
Proof.
  split; [| split].
  - intros s curr_player info_set strategy recurse U E X a w node regret Hnode Hread Hle.
    unfold mccfr_explore. erewrite bind_Return by (by apply read_node_Some).
    rewrite bind_lift, Hread. by rewrite (leb_not_gt _ _ Hle).
  - intros s curr_player info_set recurse a l w visits w' node regret Hrun Hnode Hread Hle.
    inversion Hrun as [| ? ? ? ? ? ? ? _ _ _ _ Hrest | ? ? ? ? ? ? ? Hgt _ _]; subst; [done |].
    destruct (Hgt eq_refl) as (node' & regret' & Hnode' & Hread' & Hgt').
    rewrite Hnode in Hnode'. injection Hnode' as <-.
    rewrite Hread in Hread'. injection Hread' as <-.
    by rewrite (leb_not_gt _ _ Hle) in Hgt'.
  - intros player info_set successors w ev w' Hrun state w1 recurse.
    destruct (mccfr_traversing_run self _ _ _ _ _ _ _ Hrun)
      as (node & visits & w2 & Hnode & Hvisits & Hsum & Hw' & Hreads).
    exists node, visits, w2. split; [exact Hnode |]. split; [exact Hvisits |].
    split; [exact Hsum |]. split; [exact Hw' |]. split.
    + intros a n Ha. unfold regret_step. rewrite bool_decide_eq_false_2; [done |].
      by rewrite elem_of_list_to_set.
    + intros a n Ha.
      assert (Hin : a ∈ successors.*1).
      { eapply elem_of_sublist; [exact Ha |]. by eapply explore_run_sublist. }
      assert (HX : a ∈ (list_to_set visits.*1 : gset action)) by by apply elem_of_list_to_set.
      destruct (Hreads a Hin (λ _, HX)) as (u & v & Hu & Hv).
      exists u, v. split; [done |]. split; [done |].
      split; [| apply regret_sum_setitem_regret].
      unfold regret_step. rewrite bool_decide_eq_true_2 by done. simpl. by rewrite Hu, Hv.
Qed.

(** *** Sub-game solving *)

(** C3. In [subgame_mccfr] and in [subgame_update_strategy], at a
    non-terminal tree node whose information set is frozen in
    [self.strategy], whoever acts there, the call raises
    [NotImplementedError] and leaves the world as it found it. And no call of
    either function, whether it returns or raises, changes a frozen node of
    [self.strategy]: the node is still there with the same [regret_sum],
    [strategy_sum] and flag. *)
Theorem frozen_nodes_fail_loudly :
  (∀ player prune turn info_set successors is_leaf children value (w : World num) node,
     lookup_node (self_strategy w) turn info_set = Some node →
     InfoSet.is_frozen node = true →
     let tree_node := TNode (Decision turn info_set successors) is_leaf children value in
     subgame_mccfr self player tree_node prune w = (Raise NotImplementedError, w) ∧
     subgame_update_strategy self player tree_node w = (Raise NotImplementedError, w)) ∧
  (∀ player prune tree_node (w : World num) p i node,
     lookup_node (self_strategy w) p i = Some node →
     InfoSet.is_frozen node = true →
     lookup_node (self_strategy (subgame_mccfr self player tree_node prune w).2) p i
     = Some node ∧
     lookup_node (self_strategy (subgame_update_strategy self player tree_node w).2) p i
     = Some node).
Proof.
  split.
  - intros player prune turn info_set successors is_leaf children value w node Hnode Hflag.
    simpl. unfold subgame_mccfr_node, subgame_update_strategy_node.
    destruct (decide (turn = player));
      rewrite !(bind_Return _ _ w node w) by (by apply strategy_getitem_frozen);
      by rewrite Hflag.
  - intros player prune tree_node w p i node Hnode Hflag. split.
    + destruct (subgame_mccfr_frozen_kept self player prune tree_node w _ _ _ Hnode)
        as (node' & Hnode' & _ & Hsame).
      by rewrite Hnode', Hsame.
    + destruct (subgame_update_strategy_frozen_kept self player tree_node w _ _ _ Hnode)
        as (node' & Hnode' & _ & Hsame).
      by rewrite Hnode', Hsame.
Qed.

Lemma continuation_labels : continuation ≡ₚ ["1"; "2"; "3"; "4"]%string.
Proof. unfold continuation. by rewrite set_list_perm. Qed.

Lemma strategy_keys (node : InfoSet.t num) valid_actions :
  NoDup valid_actions → (InfoSet.strategy node valid_actions).*1 = valid_actions.
Proof. intros Hnd. unfold InfoSet.strategy. destruct (ltb _ _); by apply dict_comp_keys. Qed.

(** [subgame_update_strategy] at a leaf of the tree where a player other
    than the traversing player acts and whose node is not frozen: it draws
    one of the four continuation labels from the node's regret-matching
    strategy over them and runs [node.strategy_sum[random_action] += 1] on
    this node, which belongs to the acting player, without recursing. When
    the entry can be read it grows by exactly 1 and the call returns. When
    [strategy_sum] is a plain dictionary, as the discount step leaves it,
    and the label is not a key of it, the call raises [KeyError] and
    nothing has been added. [update_strategy] changes no node of a player
    other than the traversing player. *)
Lemma subgame_update_strategy_opponent_leaf :
  (∀ player turn info_set successors children value (w : World num),
     turn ≠ player →
     let tree_node := TNode (Decision turn info_set successors) true children value in
     let node := default (InfoSet.new (actions self))
                         (lookup_node (self_strategy w) turn info_set) in
     let w1 := set_self_strategy (setdefault self turn info_set (self_strategy w)) w in
     InfoSet.is_frozen node = false →
     lookup_node (self_strategy w1) turn info_set = Some node ∧
     let strategy := InfoSet.strategy node continuation in
     strategy.*1 = continuation ∧
     strategy.*1 ≡ₚ ["1"; "2"; "3"; "4"]%string ∧
     match random_choices (rng w) strategy.*1 strategy.*2 with
     | (Return random_action, g) =>
         match InfoSet.strategy_sum_getitem node random_action with
         | Return weight =>
             let node' := InfoSet.strategy_sum_setitem random_action (add weight one) node in
             let w2 := set_self_strategy
                         (alter_node (InfoSet.strategy_sum_setitem random_action (add weight one))
                                     turn info_set (self_strategy w1)) (set_rng g w1) in
             subgame_update_strategy self player tree_node w = (Return (), w2) ∧
             lookup_node (self_strategy w2) turn info_set = Some node' ∧
             InfoSet.weight node' random_action
             = add (InfoSet.weight node random_action) one ∧
             (∀ b, b ≠ random_action →
                   InfoSet.strategy_sum node' !! b = InfoSet.strategy_sum node !! b)
         | Raise e =>
             e = KeyError ∧
             InfoSet.strategy_sum_plain node = true ∧
             InfoSet.strategy_sum node !! random_action = None ∧
             subgame_update_strategy self player tree_node w
             = (Raise KeyError, set_rng g w1)
         end
     | (Raise e, g) =>
         subgame_update_strategy self player tree_node w = (Raise e, set_rng g w1)
     end) ∧
  (∀ player (state : State num) (w : World num) p i,
     p ≠ player →
     lookup_node (node_map (update_strategy self player state w).2) p i
     = lookup_node (node_map w) p i ∨
     (lookup_node (node_map w) p i = None ∧
      lookup_node (node_map (update_strategy self player state w).2) p i
      = Some (InfoSet.new (actions self)))).
Proof.
  split.
  - intros player turn info_set successors children value w Hturn tree_node node w1 Hflag.
    assert (Hnode : lookup_node (self_strategy w1) turn info_set = Some node)
      by apply lookup_setdefault_eq.
    split; [exact Hnode |]. intros strategy.
    assert (Hkeys : strategy.*1 = continuation).
    { apply strategy_keys. rewrite continuation_labels.
      apply (bool_decide_unpack _). by vm_compute. }
    split; [exact Hkeys |]. split; [rewrite Hkeys; apply continuation_labels |].
    destruct (strategy_getitem_run self turn info_set w) as (n & w1' & Hget & _ & Hn & Hw1).
    fold node in Hn. fold w1 in Hw1. subst n w1'.
    assert (Hstep : subgame_update_strategy self player tree_node w
              = (choices strategy ≫= λ random_action,
                 incr_strategy_sum Self_strategy random_action turn info_set) w1).
    { unfold tree_node. simpl. unfold subgame_update_strategy_node.
      rewrite decide_False by done. erewrite bind_Return by exact Hget. by rewrite Hflag. }
    rewrite Hstep, bind_run. unfold choices.
    assert (Hrng : rng w1 = rng w) by done. rewrite Hrng.
    destruct (random_choices (rng w) strategy.*1 strategy.*2) as [[random_action | e] g];
      cbv iota; [| done].
    rewrite (incr_strategy_sum_run _ _ _ _ (set_rng g w1) node) by exact Hnode.
    destruct (InfoSet.strategy_sum_getitem node random_action) as [weight | e] eqn:Hread.
    2: { by apply getitem_or_zero_Raise in Hread as (-> & Hplain & Hnone). }
    apply strategy_sum_getitem_Return in Hread as Hweight.
    cbv zeta. split; [done |]. split.
    { change (self_strategy (set_self_strategy ?m _)) with m.
      by rewrite lookup_alter_node_eq, Hnode. }
    split; [by rewrite strategy_sum_setitem_weight, Hweight |].
    intros b Hb. by apply strategy_sum_setitem_other.
  - intros player state w p i Hp. by apply update_strategy_others_kept.
Qed.

(** *** Expected utility *)

(** C8. [train] ends with [expected_utility] on the cards. Its list of
    deals has no duplicate and holds exactly the arrangements of [num_cards]
    cards of the list, in the order in which the interpreter lists the set.
    When it returns, it has run [traverse_tree] on the root state of every
    deal in that order, and its result has one entry per player: the sum,
    from left to right, of that player's entries of the vectors returned,
    divided by the number of deals. [traverse_tree] returns the payoff of a
    terminal state; at a decision, when it returns, it has run the recursive
    call on the successor of every legal action in turn, and each entry of
    its value is the sum, from left to right, of the children's entries
    times the probability [avg_strategy()[a]] of their actions at the
    node. *)
Theorem expected_utility_is_mean_over_deals
    {card : Type} `{!EqDecision card} (self_state : list card → State num) :
  (∀ cards iterations (w : World num),
     train self self_state cards iterations w
     = (for_each (train_iteration self self_state) cards (seq 1 iterations)
        ≫= expected_utility self self_state) w) ∧
  (∀ cards : list card,
     NoDup (all_combos self cards) ∧
     ∀ c, c ∈ all_combos self cards ↔ length c = num_cards self ∧ c ⊆+ cards) ∧
  (∀ cards (w : World num) r w',
     expected_utility self self_state cards w = (Return r, w') →
     ∃ us,
       seq_run (λ c, traverse_tree self (self_state c)) (all_combos self cards) w us w' ∧
       length us = length (all_combos self cards) ∧
       length r = num_players self ∧
       ∀ k, k < num_players self →
         ∃ column,
           Forall2 (λ u x, entry k u = Some x) us column ∧
           r !! k = Some (div (foldl add zero column)
                              (of_Z (Z.of_nat (length (all_combos self cards)))))) ∧
  (∀ payoff (w : World num),
     (traverse_tree self (Terminal payoff) w).1 = Return payoff) ∧
  (∀ turn info_set successors (w : World num) util w',
     traverse_tree self (Decision turn info_set successors) w = (Return util, w') →
     let state := Decision turn info_set successors in
     let w1 := (node_setdefault self Node_map turn info_set
                  (log (Call_traverse_tree state) w).2).2 in
     ∃ node us ps,
       lookup_node (node_map w1) turn info_set = Some node ∧
       seq_run (λ a, match assoc successors a with
                     | Some new_state => traverse_tree self new_state
                     | None => raise ValueError
                     end) successors.*1 w1 us w' ∧
       length us = length successors ∧
       Forall2 (λ a p, InfoSet.avg_strategy node !! a = Some p) successors.*1 ps ∧
       length util = num_players self ∧
       ∀ k, k < num_players self →
         ∃ column,
           Forall2 (λ u x, entry k u = Some x) us column ∧
           util !! k = Some (foldl (λ s xp, add s (mul xp.1 xp.2)) zero (zip column ps))).
Proof.
  assert (Hzero : ∀ k, k < num_players self →
            (np_zeros (num_players self) : list num) !! k = Some zero).
  { intros k Hk. by apply lookup_replicate_2. }
  split; [done |]. split; [| split; [| split]].
  - intros cards. unfold all_combos. split.
    + rewrite set_list_perm. apply NoDup_remove_dups.
    + intros c. rewrite set_list_perm, elem_of_remove_dups. apply permutations_spec.
  - intros cards w r w' Hrun. unfold expected_utility in Hrun. rewrite bind_run in Hrun.
    destruct (for_each _ _ _ w) as [[total | e] w1] eqn:Hloop; [| done].
    injection Hrun as <- <-.
    apply expected_utility_loop_run in Hloop as (us & Hus & Hsum).
    exists us. split; [done |]. split; [by eapply seq_run_length |]. split.
    + unfold np_div. rewrite length_fmap, (np_sum_length _ _ _ Hsum). apply length_replicate.
    + intros k Hk. destruct (np_sum_entries _ _ _ _ _ Hsum (Hzero k Hk)) as (column & Hcol & Hk').
      exists column. split; [done |]. unfold np_div. by rewrite list_lookup_fmap, Hk'.
  - intros payoff w. by rewrite traverse_tree_unfold.
  - intros turn info_set successors w util w' Hrun state w1.
    assert (Hnode : lookup_node (node_map w1) turn info_set
                    = Some (default (InfoSet.new (actions self))
                                    (lookup_node (node_map w) turn info_set))).
    { change (node_map w1) with (setdefault self turn info_set (node_map w)).
      apply lookup_setdefault_eq. }
    set (node := default _ _) in Hnode.
    rewrite traverse_tree_unfold in Hrun. erewrite bind_Return in Hrun by done.
    unfold traverse_tree_node in Hrun. apply try_except_Return in Hrun.
    erewrite bind_Return in Hrun by done.
    erewrite bind_Return in Hrun by (apply read_node_Some; exact Hnode).
    change (set_store Node_map _ _) with w1 in Hrun.
    apply traverse_loop_run in Hrun as (us & Hus & Hsum).
    assert (Hlen : length us = length successors.*1) by by eapply seq_run_length.
    destruct (weighted_sum_entries _ _ _ _ _ Hlen Hsum) as (ps & Hps & Hentries).
    exists node, us, ps. split; [done |]. split; [| split; [| split; [| split]]].
    + eapply seq_run_ext; [| exact Hus]. intros a w0 _. unfold call_on.
      rewrite assoc_fmap. by destruct (assoc successors a).
    + by rewrite Hlen, length_fmap.
    + done.
    + rewrite (weighted_sum_length _ _ _ _ Hsum). apply length_replicate.
    + intros k Hk. by apply Hentries, Hzero.
Qed.
End Claims.

(** * The claims on concrete inputs *)

Lemma Qmult_assoc_eq (x y z : Q) : Qmult (Qmult x y) z = Qmult x (Qmult y z).
Proof.
  unfold Qmult. simpl. f_equal; [apply eq_sym, Z.mul_assoc | apply eq_sym, Pos.mul_assoc].
Qed.

Lemma float_neq (x y : float) :
  PrimFloat.eqb x x = true → PrimFloat.eqb x y = false → x ≠ y.
Proof. intros Hx Hxy Heq. rewrite <- Heq in Hxy. congruence. Qed.

Section OnBinary64.
#[local] Existing Instances Ex.arith Ex.gen Ex.order Edge.choice_gen Edge.np_gen.
#[local] Open Scope float_scope.

(** C7 fails in binary64. An entry 7, discounted at [t = 200] (by 2/3) and
  then at [t = 300] (by 3/4), becomes 3.4999999999999996; scaled once by
  the product of the two factors, which is 0.5, it becomes 3.5. *)
Lemma discount_twice_differs_in_binary64 :
let d1 : float := discount_factor 200 in
let d2 : float := discount_factor 300 in
let twice := (discount_by Ex.solo d2 (discount_by Ex.solo d1 (Ex.counted 7)).2).2 in
let once := (discount_by Ex.solo (mul d1 d2) (Ex.counted 7)).2 in
node_map twice = node_map (Ex.counted 3.4999999999999996) ∧
node_map once = node_map (Ex.counted 3.5) ∧
node_map twice ≠ node_map once.
Proof.
assert (H1 : node_map (discount_by Ex.solo (discount_factor 300)
                         (discount_by Ex.solo (discount_factor 200) (Ex.counted 7)).2).2
             = node_map (Ex.counted 3.4999999999999996)) by (vm_compute; reflexivity).
assert (H2 : node_map (discount_by Ex.solo (mul (discount_factor 200) (discount_factor 300))
                         (Ex.counted 7)).2
             = node_map (Ex.counted 3.5)) by (vm_compute; reflexivity).
split; [exact H1 |]. split; [exact H2 |].
cbv zeta. rewrite H1, H2. intros Heq.
assert (Hw : InfoSet.weight <$> lookup_node (node_map (Ex.counted 3.4999999999999996)) 0%nat "K"
             = InfoSet.weight <$> lookup_node (node_map (Ex.counted 3.5)) 0%nat "K")
  by (by rewrite Heq).
apply (f_equal (λ o, match o with Some f => f "B"%string | None => 0%float end)) in Hw.
vm_compute in Hw. revert Hw. by apply float_neq.
Qed.


Lemma mccfr_opponent_samples_once_witness :
  0%nat ≠ 1%nat ∧
  let successors := [("P"%string, Ex.after_pass); ("B"%string, Terminal [2; -2])] in
  let state := Decision 0 "K" successors in
  let w := Ex.fresh [0.25] [] in
  let w1 := (node_setdefault Ex.cfg Node_map 0 "K" (log (Call_mccfr state) w).2).2 in
  ∃ node,
    lookup_node (node_map w1) 0%nat "K" = Some node ∧
    let strategy := InfoSet.strategy node successors.*1 in
    match random_choices (rng w) strategy.*1 strategy.*2 with
    | (Return random_action, g) =>
        match assoc successors random_action with
        | Some new_state =>
            mccfr Ex.cfg 1 state false w = mccfr Ex.cfg 1 new_state false (set_rng g w1) ∧
            ∃ l, calls (mccfr Ex.cfg 1 state false w).2 = calls w ++ Call_mccfr state :: l ∧
                 Forall (mccfr_within new_state) l
        | None => mccfr Ex.cfg 1 state false w = (Raise ValueError, set_rng g w1)
        end
    | (Raise e, g) => mccfr Ex.cfg 1 state false w = (Raise e, set_rng g w1)
    end.
Proof.
  assert (H : 0%nat ≠ 1%nat) by done.
  split; [exact H |].
  exact (mccfr_opponent_samples_once Ex.cfg 1 0 "K" _ false (Ex.fresh [0.25] []) H).
Defined.

Lemma discount_scales_every_entry_witness :
  (∀ p, is_Some (node_map (Ex.counted 7) !! p) ↔ (p < num_players Ex.solo)%nat) ∧
  ∃ w', discount Ex.solo 200 (Ex.counted 7) = (Return (), w') ∧
        node_map w'
        = (λ player_nodes : gmap string (InfoSet.t float),
             discount_node (discount_factor 200) <$> player_nodes) <$> node_map (Ex.counted 7) ∧
        self_strategy w' = self_strategy (Ex.counted 7) ∧ rng w' = rng (Ex.counted 7) ∧
        calls w' = calls (Ex.counted 7) ++ [Call_discount 200].
Proof.
  assert (H : ∀ p, is_Some (node_map (Ex.counted 7) !! p) ↔ (p < num_players Ex.solo)%nat).
  { intros p. simpl. destruct p as [| p].
    - split; [lia | by eexists].
    - split; [| lia]. intros [x Hx]. by rewrite lookup_singleton_ne in Hx. }
  split; [exact H |].
  exact (proj1 (discount_scales_every_entry Ex.solo 200 (Ex.counted 7) H)).
Defined.

Lemma mccfr_prune_skips_floor_witness :
  lookup_node (node_map Ex.floored) 0%nat "K" = Some Ex.floor_node ∧
  InfoSet.regret_sum_getitem Ex.floor_node "P" = Return (-300001) ∧
  leb (-300001) (of_Z regret_minimum) = true ∧
  let strategy := InfoSet.strategy Ex.floor_node ["P"; "B"]%string in
  let recurse := call_on ((λ '(a, new_state), (a, mccfr Ex.cfg 0 new_state true)) <$>
                          [("P"%string, Ex.after_pass); ("B"%string, Terminal [2; -2])]) in
  mccfr_explore Node_map true 0 "K" strategy recurse (∅, [0; 0], ∅) "P" Ex.floored
  = (Return (∅, [0; 0], ∅), Ex.floored).
Proof.
  assert (H : leb (-300001) (of_Z regret_minimum) = true) by (vm_compute; reflexivity).
  split; [reflexivity |]. split; [reflexivity |]. split; [exact H |]. intros strategy recurse.
  exact (proj1 (@mccfr_prune_skips_floor float _ _ Ex.cfg binary64_order)
           Node_map 0%nat "K"%string strategy recurse ∅ [0; 0] ∅ "P"%string Ex.floored
           Ex.floor_node (-300001) eq_refl eq_refl H).
Defined.

(** C9. A call of [mccfr] with pruning on at a node of the traversing player
    that returns: its value is the sum, over the visited actions only and in
    their order, of the child's utility vector times [strategy[a]], where
    [strategy] is the regret-matching strategy of the node over all the
    legal actions, computed before the loop. The weights of the visited
    actions can add up to less than 1: at [K] with regrets -300001 for a
    pass and -5 for a bet the strategy is uniform, the pass is passed over,
    and the value returned is 0.5 times the utility of the bet. *)
Theorem mccfr_pruned_value_is_partial_sum :
  (∀ (num : Type) (A : Arith num) (R : Random num) (self : Config)
     player info_set successors (w : World num) ev w',
     mccfr self player (Decision player info_set successors) true w = (Return ev, w') →
     let state := Decision player info_set successors in
     let w1 := (node_setdefault self Node_map player info_set (log (Call_mccfr state) w).2).2 in
     let recurse := call_on ((λ '(a, new_state),
                                (a, mccfr self player new_state true)) <$> successors) in
     ∃ node visits w2,
       lookup_node (node_map w1) player info_set = Some node ∧
       explore_run Node_map true player info_set recurse successors.*1 w1 visits w2 ∧
       weighted_sum (dict_get (InfoSet.strategy node successors.*1))
                   (np_zeros (num_players self)) visits
       = Return ev) ∧
  (let successors := [("P"%string, Ex.after_pass); ("B"%string, Terminal [2; -2])] in
   let state := Decision 0 "K" successors in
   let w1 := (node_setdefault Ex.cfg Node_map 0 "K" (log (Call_mccfr state) Ex.floored).2).2 in
   let recurse := call_on ((λ '(a, new_state),
                              (a, mccfr Ex.cfg 0 new_state true)) <$> successors) in
   let strategy := InfoSet.strategy Ex.floor_node ["P"; "B"]%string in
   let visits := [("B"%string, [2; -2])] in
   (mccfr Ex.cfg 0 state true Ex.floored).1 = Return [1; -1] ∧
   lookup_node (node_map w1) 0%nat "K" = Some Ex.floor_node ∧
   (∃ w2, explore_run Node_map true 0 "K" recurse ["P"; "B"]%string w1 visits w2) ∧
   strategy = [("P"%string, 0.5); ("B"%string, 0.5)] ∧
   weighted_sum (dict_get strategy) [0; 0] visits = Return [1; -1] ∧
   InfoSet.total (weights_of (dict_get strategy) visits) = 0.5 ∧
   ltb (InfoSet.total (weights_of (dict_get strategy) visits)) one = true).
Proof.
  split.
  - intros num A R self player info_set successors w ev w' Hrun state w1 recurse.
    destruct (mccfr_traversing_run self _ _ _ _ _ _ _ Hrun)
      as (node & visits & w2 & Hnode & Hvisits & Hsum & _).
    by exists node, visits, w2.
  - cbv zeta. split; [vm_compute; reflexivity |]. split; [reflexivity |].
    split; [| repeat split; vm_compute; reflexivity].
    eexists. eapply explore_skip; [done | reflexivity | reflexivity | vm_compute; reflexivity |].
    eapply explore_visit; [| vm_compute; reflexivity | apply explore_done].
    intros _. exists Ex.floor_node, (-5).
    split; [reflexivity |]. split; [reflexivity | vm_compute; reflexivity].
Qed.

Lemma mccfr_pruned_value_is_partial_sum_witness :
  (∃ w', mccfr Ex.cfg 0 Ex.root true Ex.floored = (Return [1; -1], w')) ∧
  let successors := [("P"%string, Ex.after_pass); ("B"%string, Terminal [2; -2])] in
  let state := Decision 0 "K" successors in
  let w1 := (node_setdefault Ex.cfg Node_map 0 "K" (log (Call_mccfr state) Ex.floored).2).2 in
  let recurse := call_on ((λ '(a, new_state),
                             (a, mccfr Ex.cfg 0 new_state true)) <$> successors) in
  ∃ node visits w2,
    lookup_node (node_map w1) 0%nat "K" = Some node ∧
    explore_run Node_map true 0 "K" recurse successors.*1 w1 visits w2 ∧
    weighted_sum (dict_get (InfoSet.strategy node successors.*1))
                 (np_zeros (num_players Ex.cfg)) visits
    = Return [1; -1].
Proof.
  assert (H : ∃ w', mccfr Ex.cfg 0 Ex.root true Ex.floored = (Return [1; -1], w'))
    by (eexists; vm_compute; reflexivity).
  split; [exact H |]. destruct H as [w' H].
  exact (proj1 mccfr_pruned_value_is_partial_sum float _ _ Ex.cfg 0%nat "K"%string _
           Ex.floored [1; -1] w' H).
Defined.

(** C1 fails on the code. [traverse_tree] behaves on a world whose node map
    lacks the information set of the state as on the world where that entry
    is a new [InfoSet]. From a node map without any entry, it creates the two
    information sets of the game with [setdefault], takes the uniform average
    strategy of the new nodes and returns a value: no [UserWarning] is
    raised. And a failure that has nothing to do with training, here a
    payoff vector of the wrong shape below a visited information set, is
    raised as the same [UserWarning]. *)
Theorem traverse_tree_unvisited_defaults_to_uniform :
  (∀ (num : Type) (A : Arith num) (R : Random num) (self : Config)
     turn info_set successors (w : World num),
     traverse_tree self (Decision turn info_set successors) w
     = traverse_tree self (Decision turn info_set successors)
         (set_node_map (setdefault self turn info_set (node_map w)) w)) ∧
  node_map (Ex.fresh [] []) = ∅ ∧
  (traverse_tree Ex.cfg Ex.root (Ex.fresh [] [])).1 = Return [1.75; -1.75] ∧
  lookup_node (node_map (traverse_tree Ex.cfg Ex.root (Ex.fresh [] [])).2) 0%nat "K"
  = Some (InfoSet.new ["P"; "B"]%string) ∧
  InfoSet.avg_strategy (InfoSet.new ["P"; "B"]%string)
  = {[ "P"%string := 0.5; "B"%string := 0.5 ]} ∧
  lookup_node (node_map Ex.floored) 0%nat "K" = Some Ex.floor_node ∧
  (traverse_tree Ex.cfg (Decision 0 "K" [("P"%string, Terminal [1; 2; 3])]) Ex.floored).1
  = Raise UserWarning.
Proof.
  split; [intros; apply traverse_tree_absent_as_new |].
  repeat split; vm_compute; reflexivity.
Qed.

Lemma frozen_nodes_fail_loudly_witness :
  lookup_node (self_strategy Ex.resolving) 1%nat "Qp" = Some Ex.frozen_node ∧
  InfoSet.is_frozen Ex.frozen_node = true ∧
  subgame_mccfr Ex.cfg 0 Ex.leaf false Ex.resolving = (Raise NotImplementedError, Ex.resolving) ∧
  subgame_update_strategy Ex.cfg 0 Ex.leaf Ex.resolving
  = (Raise NotImplementedError, Ex.resolving).
Proof.
  split; [reflexivity |]. split; [reflexivity |].
  exact (proj1 (frozen_nodes_fail_loudly Ex.cfg) 0%nat false 1%nat "Qp"%string _ true [] _
           Ex.resolving Ex.frozen_node eq_refl eq_refl).
Defined.

(** C10 on the code as it runs in [subgame_solve]. The tree is one leaf at
    which player 1 acts; every draw of [random.choices] before iteration 200
    picks the label [1], the draw of [subgame_update_strategy] for player 0
    at iteration 200 picks the label [4]. Solving for 199 iterations
    returns. The discount of iteration 100 has then rebuilt the
    [strategy_sum] of the node of player 1 as a plain dictionary, in which
    the label [1] is a key and the label [4] is not. At this leaf, which is
    not frozen and belongs to the player that is not traversing,
    [subgame_update_strategy] for player 0 draws the label and raises
    [KeyError] at [node.strategy_sum[random_action] += 1] where it should
    add 1, and so does [subgame_solve] at iteration 200. *)
Theorem subgame_update_strategy_key_error_after_discount :
  let w := Ex.fresh (replicate 201 0 ++ [0.75]) [] in
  let solved := subgame_solve Ex.cfg [Ex.leaf] () 199 ([] : list float) w in
  let node := default (InfoSet.new (actions Ex.cfg))
                      (lookup_node (self_strategy solved.2) 1%nat "Qp") in
  solved.1 = Return (self_strategy solved.2, []) ∧
  lookup_node (self_strategy solved.2) 1%nat "Qp" = Some node ∧
  InfoSet.is_frozen node = false ∧
  InfoSet.strategy_sum_plain node = true ∧
  InfoSet.strategy_sum node !! "1"%string = Some 1 ∧
  InfoSet.strategy_sum node !! "4"%string = None ∧
  (choices (InfoSet.strategy node continuation) solved.2).1 = Return "4"%string ∧
  InfoSet.strategy_sum_getitem node "4" = Raise KeyError ∧
  (subgame_update_strategy Ex.cfg 0 Ex.leaf solved.2).1 = Raise KeyError ∧
  (subgame_solve Ex.cfg [Ex.leaf] () 200 ([] : list float) w).1 = Raise KeyError.
Proof. vm_compute. repeat split. Qed.

(** In binary64 the value of [expected_utility] depends on the order in
    which the interpreter lists the set of deals: the same six payoff
    vectors, summed in one order and in the reverse order, give different
    means. *)
Lemma expected_utility_depends_on_set_order :
  let cards := [1; 2; 3]%nat in
  let w := Ex.fresh [] [] in
  (expected_utility (H := first_seen) Ex.cfg Edge.lopsided cards w).1
  = Return [div 3 6; div (-3) 6] ∧
  (expected_utility (H := last_seen) Ex.cfg Edge.lopsided cards w).1
  = Return [div 4 6; div (-4) 6] ∧
  div 3 6 ≠ div 4 6.
Proof.
  split; [vm_compute; reflexivity |]. split; [vm_compute; reflexivity |].
  by apply float_neq.
Qed.

Lemma expected_utility_is_mean_over_deals_witness :
  let cards := [1; 2; 3]%nat in
  let w := Ex.fresh [] [] in
  let run := expected_utility Ex.cfg Edge.showdown cards w in
  let successors := [("P"%string, Terminal [1; -1]); ("B"%string, Terminal [2; -2])] in
  let visit := traverse_tree Ex.cfg (Decision 0 "Q" successors) w in
  all_combos Ex.cfg cards = [[1; 2]; [1; 3]; [2; 1]; [2; 3]; [3; 1]; [3; 2]]%nat ∧
  run = (Return [0.25; -0.25], run.2) ∧
  (∃ us,
     us = [[-1; 1]; [-1; 1]; [1.5; -1.5]; [-1; 1]; [1.5; -1.5]; [1.5; -1.5]] ∧
     seq_run (λ c, traverse_tree Ex.cfg (Edge.showdown c)) (all_combos Ex.cfg cards) w us run.2 ∧
     length us = length (all_combos Ex.cfg cards) ∧
     length [0.25; -0.25] = num_players Ex.cfg ∧
     ∀ k, (k < num_players Ex.cfg)%nat →
       ∃ column,
         Forall2 (λ u x, entry k u = Some x) us column ∧
         [0.25; -0.25] !! k
         = Some (div (foldl add zero column)
                     (of_Z (Z.of_nat (length (all_combos Ex.cfg cards)))))) ∧
  Edge.showdown [2; 1]%nat = Decision 0 "Q" successors ∧
  visit = (Return [1.5; -1.5], visit.2) ∧
  ∃ node us ps,
    us = [[1; -1]; [2; -2]] ∧ ps = [0.5; 0.5] ∧
    lookup_node (node_map (node_setdefault Ex.cfg Node_map 0 "Q"
                             (log (Call_traverse_tree (Decision 0 "Q" successors)) w).2).2)
                0%nat "Q" = Some node ∧
    length us = length successors ∧
    Forall2 (λ a p, InfoSet.avg_strategy node !! a = Some p) successors.*1 ps ∧
    length [1.5; -1.5] = num_players Ex.cfg ∧
    ∀ k, (k < num_players Ex.cfg)%nat →
      ∃ column,
        Forall2 (λ u x, entry k u = Some x) us column ∧
        [1.5; -1.5] !! k = Some (foldl (λ s xp, add s (mul xp.1 xp.2)) zero (zip column ps)).
Proof.
  cbv zeta.
  assert (Hcombos : all_combos Ex.cfg [1; 2; 3]%nat
                    = [[1; 2]; [1; 3]; [2; 1]; [2; 3]; [3; 1]; [3; 2]]%nat)
    by (vm_compute; reflexivity).
  assert (Hrun : expected_utility Ex.cfg Edge.showdown [1; 2; 3]%nat (Ex.fresh [] [])
                 = (Return [0.25; -0.25],
                    (expected_utility Ex.cfg Edge.showdown [1; 2; 3]%nat (Ex.fresh [] [])).2))
    by (vm_compute; reflexivity).
  assert (Hvisit : traverse_tree Ex.cfg
                     (Decision 0 "Q" [("P"%string, Terminal [1; -1]);
                                      ("B"%string, Terminal [2; -2])]) (Ex.fresh [] [])
                   = (Return [1.5; -1.5],
                      (traverse_tree Ex.cfg
                         (Decision 0 "Q" [("P"%string, Terminal [1; -1]);
                                          ("B"%string, Terminal [2; -2])])
                         (Ex.fresh [] [])).2))
    by (vm_compute; reflexivity).
  pose proof (expected_utility_is_mean_over_deals Ex.cfg Edge.showdown)
    as (_ & _ & Hmean & _ & Hnode).
  split; [exact Hcombos |]. split; [exact Hrun |]. split; [| split; [reflexivity |]].
  - destruct (Hmean _ _ _ _ Hrun) as (us & Hseq & Hrest). exists us.
    split; [| exact (conj Hseq Hrest)].
    eapply (seq_run_fun _ _ _ _ _ _ _ Hseq). rewrite Hcombos.
    repeat (eapply seq_run_cons; [vm_compute; reflexivity |]). apply seq_run_nil.
  - split; [exact Hvisit |].
    destruct (Hnode _ _ _ _ _ _ Hvisit) as (node & us & ps & Hlook & Hseq & Hlen & Hps & Hrest).
    exists node, us, ps.
    split; [| split; [| exact (conj Hlook (conj Hlen (conj Hps Hrest)))]].
    + eapply (seq_run_fun _ _ _ _ _ _ _ Hseq).
      repeat (eapply seq_run_cons; [vm_compute; reflexivity |]). apply seq_run_nil.
    + injection Hlook as <-. clear -Hps. simpl in Hps.
      repeat match goal with
             | H : Forall2 _ (_ :: _) _ |- _ =>
                 apply Forall2_cons_inv_l in H as (? & ? & ? & ? & ->)
             | H : Forall2 _ [] _ |- _ => apply Forall2_nil_inv_l in H as ->
             end.
      repeat match goal with
             | H : InfoSet.avg_strategy _ !! _ = Some _ |- _ =>
                 vm_compute in H; injection H as <-
             end.
      reflexivity.
Defined.
End OnBinary64.

Section OnRationals.
#[local] Existing Instances ExQ.arith ExQ.gen ExQ.order.
#[local] Open Scope Q_scope.

(** C7, amended. The discount scaling with factor [d1] followed by the one
    with [d2], on any node map and with any two factors: in every
    arithmetic the second scaling reaches the players the first one reached
    and ends as it did, as does one scaling by [d1 * d2]; every entry [v] of
    [regret_sum] and [strategy_sum] it scales has become [(v * d1) * d2],
    where the single scaling makes [v * (d1 * d2)] of it. In exact
    arithmetic the two are the same number, and scaling twice ends in the
    same outcome and the same world as scaling once by the product. *)
Theorem discount_twice_is_product (self : Config) :
  (∀ (num : Type) `(!Arith num) `(!Random num) (d1 d2 : num) (w : World num),
     let players := reached (node_map w) (seq 0 (num_players self)) in
     let first := discount_by self d1 w in
     let twice := discount_by self d2 first.2 in
     let once := discount_by self (mul d1 d2) w in
     first.1 = once.1 ∧ twice.1 = once.1 ∧
     (∀ q, node_map twice.2 !! q
           = (if decide (q ∈ players)
              then λ pn : gmap string (InfoSet.t num),
                     (λ node, discount_node d2 (discount_node d1 node)) <$> pn
              else id) <$> (node_map w !! q)) ∧
     (∀ q, node_map once.2 !! q
           = (if decide (q ∈ players)
              then λ pn : gmap string (InfoSet.t num), discount_node (mul d1 d2) <$> pn
              else id) <$> (node_map w !! q)) ∧
     (∀ node a,
        InfoSet.regret_sum (discount_node d2 (discount_node d1 node)) !! a
        = (λ v, mul (mul v d1) d2) <$> (InfoSet.regret_sum node !! a : option num) ∧
        InfoSet.strategy_sum (discount_node d2 (discount_node d1 node)) !! a
        = (λ v, mul (mul v d1) d2) <$> (InfoSet.strategy_sum node !! a : option num) ∧
        InfoSet.regret_sum (discount_node (mul d1 d2) node) !! a
        = (λ v, mul v (mul d1 d2)) <$> (InfoSet.regret_sum node !! a : option num) ∧
        InfoSet.strategy_sum (discount_node (mul d1 d2) node) !! a
        = (λ v, mul v (mul d1 d2)) <$> (InfoSet.strategy_sum node !! a : option num)) ∧
     self_strategy twice.2 = self_strategy once.2 ∧ rng twice.2 = rng once.2 ∧
     calls twice.2 = calls once.2) ∧
  (∀ `(!Random Q) (d1 d2 : Q) (w : World Q),
     discount_by self d2 (discount_by self d1 w).2 = discount_by self (Qmult d1 d2) w).
Proof.
  split.
  - intros num ? ? d1 d2 w. apply discount_twice_entries.
  - intros ? d1 d2 w.
    destruct (discount_twice_entries self d1 d2 w)
      as (_ & Hout & Htwice & Honce & _ & Hstrategy & Hrng & Hcalls).
    change (@mul Q ExQ.arith) with Qmult in *.
    assert (Hnode : ∀ node : InfoSet.t Q,
              discount_node d2 (discount_node d1 node) = discount_node (Qmult d1 d2) node).
    { intros node. unfold discount_node, scale. simpl.
      rewrite <- !map_fmap_compose. f_equal; apply map_fmap_ext; intros a v _; simpl;
        change (@mul Q ExQ.arith) with Qmult; apply Qmult_assoc_eq. }
    assert (Hmap : node_map (discount_by self d2 (discount_by self d1 w).2).2
                   = node_map (discount_by self (Qmult d1 d2) w).2).
    { apply map_eq. intros q. rewrite Htwice, Honce.
      destruct (node_map w !! q) as [pn |]; [| done]. simpl.
      destruct (decide _); [| done]. simpl. f_equal.
      apply map_fmap_ext. intros i node _. apply Hnode. }
    destruct (discount_by self d2 (discount_by self d1 w).2) as [o2 [m2 s2 g2 c2]].
    destruct (discount_by self (Qmult d1 d2) w) as [o1 [m1 s1 g1 c1]].
    simpl in *. by subst.
Qed.
End OnRationals.

(** * Further properties of the code *)


Section Traversals.
Context {num : Type} `{!Arith num} `{!Random num} `{!SetOrder}.
Variable self : Config.
Variable R : World num → World num → Prop.
Context `{!PreOrder R}.
Hypothesis R_setdefault : ∀ p i, preserves R (node_setdefault self Node_map p i).

Section TraverseTree.
Hypothesis R_log : ∀ st, preserves R (log (Call_traverse_tree st)).

Lemma traverse_tree_preserves (st : State num) : preserves R (traverse_tree self st).
Proof.
  induction st as [payoff | turn info_set successors IH] using State_rect';
    rewrite traverse_tree_unfold.
  - repeat first [apply R_log | preserves_step].
  - apply preserves_bind; [apply _ | apply R_log |].
    intros _. unfold traverse_tree_node.
    repeat first [apply R_setdefault | preserves_step].
    apply preserves_call_on; [apply _ |].
    intros m Hm. rewrite assoc_fmap in Hm.
    destruct (assoc successors _) as [new_state |] eqn:Ha; [| done].
    injection Hm as <-.
    rewrite Forall_forall in IH. exact (IH _ (assoc_Some_elem_of _ _ _ Ha)).
Qed.

Lemma expected_utility_preserves {card : Type} `{!EqDecision card}
    (self_state : list card → State num) cards :
  preserves R (expected_utility self self_state cards).
Proof.
  unfold expected_utility. repeat first [apply traverse_tree_preserves | preserves_step].
Qed.
End TraverseTree.

Section Mccfr.
Variable player : nat.
Hypothesis R_log : ∀ st, preserves R (log (Call_mccfr st)).
Hypothesis R_choices : ∀ strategy, preserves R (choices strategy).
Hypothesis R_regret :
  ∀ a value i, preserves R (write_node Node_map (InfoSet.regret_sum_setitem a value) player i).

Lemma mccfr_preserves prune (st : State num) : preserves R (mccfr self player st prune).
Proof.
  induction st as [payoff | turn info_set successors IH] using State_rect';
    rewrite mccfr_unfold.
  - repeat first [apply R_log | preserves_step].
  - apply preserves_bind; [apply _ | apply R_log |].
    intros _. unfold mccfr_node.
    assert (Hrec : ∀ a, preserves R
              (call_on ((λ '(a0, new_state),
                 (a0, mccfr self player new_state prune)) <$> successors) a)).
    { intros a. apply preserves_call_on; [apply _ |].
      intros m Hm. rewrite assoc_fmap in Hm.
      destruct (assoc successors a) as [new_state |] eqn:Ha; [| done].
      injection Hm as <-.
      rewrite Forall_forall in IH. exact (IH _ (assoc_Some_elem_of _ _ _ Ha)). }
    destruct (decide (turn = player)) as [-> | Hturn].
    + unfold mccfr_explore, mccfr_regret.
      repeat first [apply R_setdefault | apply R_regret | apply Hrec | preserves_step].
    + repeat first [apply R_setdefault | apply R_choices | apply Hrec | preserves_step].
Qed.
End Mccfr.

Section UpdateStrategy.
Variable player : nat.
Hypothesis R_log : ∀ st, preserves R (log (Call_update_strategy st)).
Hypothesis R_choices : ∀ strategy, preserves R (choices strategy).
Hypothesis R_incr :
  ∀ a value i,
    preserves R (write_node Node_map (InfoSet.strategy_sum_setitem a value) player i).

Lemma update_strategy_preserves (st : State num) :
  preserves R (update_strategy self player st).
Proof.
  induction st as [payoff | turn info_set successors IH] using State_rect';
    rewrite update_strategy_unfold.
  - repeat first [apply R_log | preserves_step].
  - apply preserves_bind; [apply _ | apply R_log |].
    intros _. unfold update_strategy_node.
    assert (Hrec : ∀ a, preserves R
              (call_on ((λ '(a0, new_state),
                 (a0, update_strategy self player new_state)) <$> successors) a)).
    { intros a. apply preserves_call_on; [apply _ |].
      intros m Hm. rewrite assoc_fmap in Hm.
      destruct (assoc successors a) as [new_state |] eqn:Ha; [| done].
      injection Hm as <-.
      rewrite Forall_forall in IH. exact (IH _ (assoc_Some_elem_of _ _ _ Ha)). }
    destruct (decide (turn = player)) as [-> | Hturn].
    + repeat first [apply R_setdefault | apply R_choices | apply R_incr | apply Hrec
                   | preserves_step].
    + repeat first [apply R_setdefault | apply Hrec | preserves_step].
Qed.
End UpdateStrategy.

(** Training while [t] is not a multiple of the strategy interval (and so
    not of the discount interval, which is the same number). *)
Section Train.
Context {card : Type} `{!EqDecision card}.
Variable self_state : list card → State num.
Hypothesis R_log_mccfr : ∀ st, preserves R (log (Call_mccfr st)).
Hypothesis R_log_traverse : ∀ st, preserves R (log (Call_traverse_tree st)).
Hypothesis R_choices : ∀ strategy, preserves R (choices strategy).
Hypothesis R_random : preserves R random.
Hypothesis R_shuffle : ∀ cards : list card, preserves R (shuffle cards).
Hypothesis R_regret :
  ∀ player a value i,
    preserves R (write_node Node_map (InfoSet.regret_sum_setitem a value) player i).

Lemma train_player_preserves t cards u player :
  t `mod` strategy_interval ≠ 0 →
  preserves R (train_player self self_state t cards u player).
Proof.
  intros Ht. unfold train_player.
  destruct (decide (t `mod` strategy_interval = 0)) as [? | _]; [done |].
  repeat first [apply R_random | by apply mccfr_preserves | preserves_step].
Qed.

Lemma train_iteration_preserves cards t :
  t `mod` strategy_interval ≠ 0 →
  preserves R (train_iteration self self_state cards t).
Proof.
  intros Ht. unfold train_iteration.
  assert (Hdue : discount_due t = false).
  { unfold discount_due. rewrite (bool_decide_eq_false_2 (t `mod` discount_interval = 0)) by done.
    apply andb_false_r. }
  rewrite Hdue.
  repeat first [apply R_shuffle | by apply train_player_preserves | preserves_step].
Qed.

Lemma train_preserves cards iterations :
  iterations < strategy_interval →
  preserves R (train self self_state cards iterations).
Proof.
  intros Hlt. unfold train.
  apply preserves_bind; [apply _ | | intros cards'; by apply expected_utility_preserves].
  apply preserves_for_each; [apply _ |]. intros cards' t Ht.
  apply train_iteration_preserves. apply elem_of_seq in Ht.
  rewrite Nat.mod_small by lia. lia.
Qed.
End Train.
End Traversals.

Section NodesRelated.
Context {num : Type} `{!Arith num} `{!Random num} `{!SetOrder}.
Variable self : Config.
Variable P : nat → InfoSet.t num → InfoSet.t num → Prop.
Hypothesis P_refl : ∀ p node, P p node node.
Hypothesis P_trans : ∀ p n1 n2 n3, P p n1 n2 → P p n2 n3 → P p n1 n3.

Lemma nodes_related_preorder : PreOrder (nodes_related self P).
Proof.
  split.
  - intros w p i. split; [done | apply P_refl].
  - intros w1 w2 w3 H12 H23 p i. destruct (H12 p i) as [S12 P12], (H23 p i) as [S23 P23].
    split; [tauto | by eapply P_trans].
Qed.

Lemma nodes_related_same (w w' : World num) :
  node_map w' = node_map w → nodes_related self P w w'.
Proof. intros Heq p i. rewrite Heq. split; [done | apply P_refl]. Qed.

Lemma node_or_new_setdefault player info_set m p i :
  node_or_new self (setdefault self player info_set m) p i = node_or_new self m p i.
Proof.
  unfold node_or_new. destruct (decide ((p, i) = (player, info_set))) as [[= -> ->] | Hne].
  - by rewrite lookup_setdefault_eq.
  - by rewrite lookup_setdefault_ne.
Qed.

Lemma nodes_related_setdefault player info_set :
  preserves (nodes_related self P) (node_setdefault self Node_map player info_set).
Proof.
  intros w p i.
  change (node_map (node_setdefault self Node_map player info_set w).2)
    with (setdefault self player info_set (node_map w)).
  rewrite node_or_new_setdefault. split; [| apply P_refl].
  destruct (decide ((p, i) = (player, info_set))) as [[= -> ->] | Hne].
  - rewrite lookup_setdefault_eq. by eexists.
  - by rewrite lookup_setdefault_ne.
Qed.

Lemma nodes_related_write f player info_set :
  (∀ node, P player node (f node)) →
  preserves (nodes_related self P) (write_node Node_map f player info_set).
Proof.
  intros Hf w p i.
  change (node_map (write_node Node_map f player info_set w).2)
    with (alter_node f player info_set (node_map w)).
  unfold node_or_new.
  destruct (decide ((p, i) = (player, info_set))) as [[= -> ->] | Hne].
  - rewrite lookup_alter_node_eq.
    destruct (lookup_node (node_map w) player info_set) as [node |]; simpl.
    + split; [by eexists | apply Hf].
    + split; [done | apply P_refl].
  - rewrite lookup_alter_node_ne by done. split; [done | apply P_refl].
Qed.

Lemma nodes_related_log c : preserves (nodes_related self P) (log c).
Proof. intros w. by apply nodes_related_same. Qed.

Lemma nodes_related_choices strategy : preserves (nodes_related self P) (choices strategy).
Proof.
  intros w. apply nodes_related_same. unfold choices. by destruct (random_choices _ _ _).
Qed.
End NodesRelated.

Section SameField.
Context {num : Type} `{!Arith num} `{!Random num} `{!SetOrder}.
Variable self : Config.

#[export] Instance same_self_strategy_preorder :
  PreOrder (same_self_strategy : World num → World num → Prop).
Proof. split; [done |]. intros w1 w2 w3 H12 H23. unfold same_self_strategy in *. congruence. Qed.

#[export] Instance same_rng_preorder : PreOrder (same_rng : World num → World num → Prop).
Proof. split; [done |]. intros w1 w2 w3 H12 H23. unfold same_rng in *. congruence. Qed.

Lemma same_self_strategy_choices strategy :
  preserves same_self_strategy (choices strategy : M num action).
Proof. intros w. unfold same_self_strategy, choices. by destruct (random_choices _ _ _). Qed.
End SameField.

Section Footprint.
Context {num : Type} `{!Arith num} `{!Random num} `{!SetOrder}.
Variable self : Config.

Lemma regret_sum_only_refl player p (node : InfoSet.t num) : regret_sum_only player p node node.
Proof. done. Qed.

Lemma regret_sum_only_trans player p (n1 n2 n3 : InfoSet.t num) :
  regret_sum_only player p n1 n2 → regret_sum_only player p n2 n3 →
  regret_sum_only player p n1 n3.
Proof.
  intros (S12 & F12 & [R12 W12] & E12) (S23 & F23 & [R23 W23] & E23).
  split; [congruence |]. split; [congruence |]. split; [split; congruence |].
  intros Hp. rewrite E23, E12; done.
Qed.

Lemma strategy_sum_only_refl player p (node : InfoSet.t num) :
  strategy_sum_only player p node node.
Proof. done. Qed.

Lemma strategy_sum_only_trans player p (n1 n2 n3 : InfoSet.t num) :
  strategy_sum_only player p n1 n2 → strategy_sum_only player p n2 n3 →
  strategy_sum_only player p n1 n3.
Proof.
  intros (S12 & F12 & [R12 W12] & E12) (S23 & F23 & [R23 W23] & E23).
  split; [congruence |]. split; [congruence |]. split; [split; congruence |].
  intros Hp. rewrite E23, E12; done.
Qed.

(** X1. What [mccfr] leaves alone. Whether the call returns or raises, it
    leaves [self.strategy] as it is and removes no node from the node map;
    of the node at every key (an absent one counted as the new node
    [setdefault] creates) it keeps the [strategy_sum], the [is_frozen] flag
    and the kind of both mappings, and the node of a player other than the
    traversing one is exactly what it was. What changes are regrets of the
    traversing player. *)
Theorem mccfr_changes_regret_sum_only player prune (state : State num) (w : World num) :
  let w' := (mccfr self player state prune w).2 in
  self_strategy w' = self_strategy w ∧
  ∀ p i,
    (is_Some (lookup_node (node_map w) p i) → is_Some (lookup_node (node_map w') p i)) ∧
    let node := node_or_new self (node_map w) p i in
    let node' := node_or_new self (node_map w') p i in
    InfoSet.strategy_sum node' = InfoSet.strategy_sum node ∧
    InfoSet.is_frozen node' = InfoSet.is_frozen node ∧
    (InfoSet.regret_sum_plain node' = InfoSet.regret_sum_plain node ∧
     InfoSet.strategy_sum_plain node' = InfoSet.strategy_sum_plain node) ∧
    (p ≠ player → node' = node).
Proof.
  split.
  - apply (mccfr_preserves self same_self_strategy); try done.
    apply same_self_strategy_choices.
  - pose proof (nodes_related_preorder self (regret_sum_only player)
                  (regret_sum_only_refl player) (regret_sum_only_trans player)) as Hpre.
    apply (mccfr_preserves self (nodes_related self (regret_sum_only player))).
    + apply nodes_related_setdefault; [apply regret_sum_only_refl | apply regret_sum_only_trans].
    + intros st. apply nodes_related_log; [apply regret_sum_only_refl | apply regret_sum_only_trans].
    + apply nodes_related_choices; [apply regret_sum_only_refl | apply regret_sum_only_trans].
    + intros a x i. apply nodes_related_write; [apply regret_sum_only_refl | apply regret_sum_only_trans |]. done.
Qed.

(** X2. What [update_strategy] leaves alone. Whether the call returns or
    raises, it leaves [self.strategy] as it is and removes no node from the
    node map; of the node at every key (an absent one counted as new) it
    keeps the [regret_sum], the [is_frozen] flag and the kind of both
    mappings, and the node of a player other than the traversing one is
    exactly what it was. What changes are strategy sums of the traversing
    player. *)
Theorem update_strategy_changes_strategy_sum_only player (state : State num) (w : World num) :
  let w' := (update_strategy self player state w).2 in
  self_strategy w' = self_strategy w ∧
  ∀ p i,
    (is_Some (lookup_node (node_map w) p i) → is_Some (lookup_node (node_map w') p i)) ∧
    let node := node_or_new self (node_map w) p i in
    let node' := node_or_new self (node_map w') p i in
    InfoSet.regret_sum node' = InfoSet.regret_sum node ∧
    InfoSet.is_frozen node' = InfoSet.is_frozen node ∧
    (InfoSet.regret_sum_plain node' = InfoSet.regret_sum_plain node ∧
     InfoSet.strategy_sum_plain node' = InfoSet.strategy_sum_plain node) ∧
    (p ≠ player → node' = node).
Proof.
  split.
  - apply (update_strategy_preserves self same_self_strategy); try done.
    apply same_self_strategy_choices.
  - pose proof (nodes_related_preorder self (strategy_sum_only player)
                  (strategy_sum_only_refl player) (strategy_sum_only_trans player)) as Hpre.
    apply (update_strategy_preserves self (nodes_related self (strategy_sum_only player))).
    + apply nodes_related_setdefault; [apply strategy_sum_only_refl | apply strategy_sum_only_trans].
    + intros st. apply nodes_related_log; [apply strategy_sum_only_refl | apply strategy_sum_only_trans].
    + apply nodes_related_choices; [apply strategy_sum_only_refl | apply strategy_sum_only_trans].
    + intros a value i. apply nodes_related_write; [apply strategy_sum_only_refl | apply strategy_sum_only_trans |]. done.
Qed.

Lemma same_rng_log c : preserves same_rng (log c : M num unit).
Proof. done. Qed.

Lemma nodes_unchanged_cases (w w' : World num) :
  nodes_related self unchanged w w' →
  ∀ p i, lookup_node (node_map w') p i = lookup_node (node_map w) p i ∨
         (lookup_node (node_map w) p i = None ∧
          lookup_node (node_map w') p i = Some (InfoSet.new (actions self))).
Proof.
  intros Hrel p i. destruct (Hrel p i) as [Hsome Hsame].
  unfold unchanged, node_or_new in Hsame.
  destruct (lookup_node (node_map w) p i) as [node |] eqn:Hnode.
  - destruct Hsome as [node' Hnode']; [by eexists |]. rewrite Hnode' in Hsame |- *.
    simpl in Hsame. left. by rewrite Hsame.
  - destruct (lookup_node (node_map w') p i) as [node' |] eqn:Hnode'; [| by left].
    simpl in Hsame. right. by rewrite Hsame.
Qed.

(** X3. The evaluation reads the node map and only adds to it.
    [traverse_tree] and [expected_utility], whether they return or raise,
    draw no random number, leave [self.strategy] alone, and leave the node at
    every key of the node map as it was, except that one that was absent may
    have been created as a new [InfoSet]. *)
Theorem expected_utility_only_creates_nodes {card : Type} `{!EqDecision card}
    (self_state : list card → State num) :
  (∀ (state : State num) (w : World num),
     let w' := (traverse_tree self state w).2 in
     rng w' = rng w ∧ self_strategy w' = self_strategy w ∧
     ∀ p i, lookup_node (node_map w') p i = lookup_node (node_map w) p i ∨
            (lookup_node (node_map w) p i = None ∧
             lookup_node (node_map w') p i = Some (InfoSet.new (actions self)))) ∧
  (∀ cards (w : World num),
     let w' := (expected_utility self self_state cards w).2 in
     rng w' = rng w ∧ self_strategy w' = self_strategy w ∧
     ∀ p i, lookup_node (node_map w') p i = lookup_node (node_map w) p i ∨
            (lookup_node (node_map w) p i = None ∧
             lookup_node (node_map w') p i = Some (InfoSet.new (actions self)))).
Proof.
  assert (Hrefl : ∀ (p : nat) (node : InfoSet.t num), unchanged p node node) by done.
  assert (Htrans : ∀ (p : nat) (n1 n2 n3 : InfoSet.t num),
            unchanged p n1 n2 → unchanged p n2 n3 → unchanged p n1 n3).
  { unfold unchanged. congruence. }
  pose proof (nodes_related_preorder self unchanged Hrefl Htrans) as Hpre.
  pose proof (nodes_related_setdefault self unchanged Hrefl Htrans) as Hset.
  assert (Hlog : ∀ st, preserves (nodes_related self unchanged) (log (Call_traverse_tree st))).
  { intros st. by apply nodes_related_log. }
  split.
  - intros state w w'. split; [| split].
    + by apply (traverse_tree_preserves self same_rng).
    + by apply (traverse_tree_preserves self same_self_strategy).
    + apply nodes_unchanged_cases.
      by apply (traverse_tree_preserves self (nodes_related self unchanged)).
  - intros cards w w'. split; [| split].
    + by apply (expected_utility_preserves self same_rng).
    + by apply (expected_utility_preserves self same_self_strategy).
    + apply nodes_unchanged_cases.
      by apply (expected_utility_preserves self (nodes_related self unchanged)).
Qed.

Lemma for_each_Return_inv {A B} (I : B → Prop) (body : B → A → M num B) l :
  (∀ acc x w acc' w', x ∈ l → I acc → body acc x w = (Return acc', w') → I acc') →
  ∀ acc0 (w : World num) acc w',
    I acc0 → for_each body acc0 l w = (Return acc, w') → I acc.
Proof.
  induction l as [| x l IH]; intros Hstep acc0 w acc w' H0 Hrun.
  - by injection Hrun as <- <-.
  - rewrite for_each_cons, bind_run in Hrun.
    destruct (body acc0 x w) as [[acc1 | e] w1] eqn:Hbody; [| done].
    eapply IH; [| | exact Hrun].
    + intros ? ? ? ? ? ? ? ?. eapply Hstep; [by right | done..].
    + eapply Hstep; [left | done..].
Qed.

Lemma for_each_Raise_inv {A B} (I : B → Prop) (body : B → A → M num B) l :
  (∀ acc x w acc' w', x ∈ l → I acc → body acc x w = (Return acc', w') → I acc') →
  ∀ acc0 (w : World num) e w',
    I acc0 → for_each body acc0 l w = (Raise e, w') →
    ∃ acc x w0, I acc ∧ x ∈ l ∧ body acc x w0 = (Raise e, w').
Proof.
  induction l as [| x l IH]; intros Hstep acc0 w e w' H0 Hrun; [done |].
  rewrite for_each_cons, bind_run in Hrun.
  destruct (body acc0 x w) as [[acc1 | e1] w1] eqn:Hbody.
  - destruct (IH (λ acc y w2 acc' w2' Hy, Hstep acc y w2 acc' w2' (list_elem_of_further _ _ _ Hy))
                acc1 w1 e w') as (acc & y & w0 & Hacc & Hy & Hraise); [| done |].
    + eapply Hstep; [left | done..].
    + exists acc, y, w0. split; [done |]. split; [by right | done].
  - injection Hrun as <- <-. exists acc0, x, w. split; [done |]. split; [left | done].
Qed.

(** A value [traverse_tree] returns at a decision has one entry per
    player. *)
Lemma traverse_tree_decision_length turn info_set successors (w : World num) util w' :
  traverse_tree self (Decision turn info_set successors) w = (Return util, w') →
  length util = num_players self.
Proof.
  intros Hrun. rewrite traverse_tree_unfold in Hrun. erewrite bind_Return in Hrun by done.
  unfold traverse_tree_node in Hrun. apply try_except_Return in Hrun.
  rewrite bind_run in Hrun. simpl in Hrun. rewrite bind_run in Hrun.
  destruct (read_node _ _ _ _) as [[node | e] w1]; [| done].
  eapply (for_each_Return_inv (λ util, length util = num_players self)); [| | exact Hrun].
  - intros acc a w0 acc' w0' _ Hacc Hbody. cbv beta in Hbody. rewrite bind_run in Hbody.
    destruct (call_on _ a w0) as [[child | e] w2]; [| done].
    cbv beta in Hbody. rewrite bind_lift in Hbody. destruct (getitem _ a) as [p | e]; [| done].
    unfold lift in Hbody. destruct (np_iadd acc _) as [acc1 | e] eqn:Hadd; [| done].
    injection Hbody as <- <-. apply np_iadd_length in Hadd. congruence.
  - apply length_replicate.
Qed.

(** X4. The exceptions of the evaluation. [traverse_tree] raises nothing
    but [UserWarning], and only at a decision state. [expected_utility]
    raises [UserWarning], or else numpy's [ValueError] from the accumulation
    on line 410, which is outside the [try]; the latter only when the root
    state of some deal is terminal with a payoff vector that does not have
    [num_players] entries. *)
Theorem expected_utility_raises_user_warning {card : Type} `{!EqDecision card}
    (self_state : list card → State num) :
  (∀ (state : State num) (w : World num) e w',
     traverse_tree self state w = (Raise e, w') →
     e = UserWarning ∧ ∃ turn info_set successors, state = Decision turn info_set successors) ∧
  (∀ cards (w : World num) e w',
     expected_utility self self_state cards w = (Raise e, w') →
     e = UserWarning ∨
     (e = ValueError ∧
      ∃ c payoff, c ∈ all_combos self cards ∧ self_state c = Terminal payoff ∧
                  length payoff ≠ num_players self)).
Proof.
  assert (Htt : ∀ (state : State num) (w : World num) e w',
            traverse_tree self state w = (Raise e, w') →
            e = UserWarning ∧
            ∃ turn info_set successors, state = Decision turn info_set successors).
  { intros state w e w' Hrun. rewrite traverse_tree_unfold in Hrun.
    erewrite bind_Return in Hrun by done.
    destruct state as [payoff | turn info_set successors]; [done |].
    split; [| by eexists _, _, _].
    unfold traverse_tree_node, try_except_raise in Hrun.
    destruct (_ ≫= _) as [[util | e'] w1]; by simplify_eq. }
  split; [exact Htt |].
  intros cards w e w' Hrun. unfold expected_utility in Hrun. rewrite bind_run in Hrun.
  destruct (for_each _ _ _ w) as [[total | e'] w1] eqn:Hloop; [done |].
  simplify_eq.
  apply (for_each_Raise_inv (λ acc, length acc = num_players self)) in Hloop
    as (acc & c & w0 & Hacc & Hc & Hbody).
  - cbv beta in Hbody. rewrite bind_run in Hbody.
    destruct (traverse_tree self (self_state c) w0) as [[u | e'] w2] eqn:Hu.
    + right. unfold lift in Hbody. destruct (np_iadd acc u) as [acc' | e'] eqn:Hadd; [done |].
      simplify_eq. apply np_iadd_Raise in Hadd as [-> Hlen].
      split; [done |]. destruct (self_state c) as [payoff | turn info_set successors] eqn:Hst.
      * exists c, payoff. split; [done |]. split; [done |].
        rewrite traverse_tree_unfold in Hu. erewrite bind_Return in Hu by done.
        injection Hu as <- _. congruence.
      * apply traverse_tree_decision_length in Hu. congruence.
    + simplify_eq. left. by apply Htt in Hu as [-> _].
  - intros acc c w0 acc' w0' _ Hacc Hbody. cbv beta in Hbody. rewrite bind_run in Hbody.
    destruct (traverse_tree self (self_state c) w0) as [[u | e'] w2]; [| done].
    unfold lift in Hbody. destruct (np_iadd acc u) as [acc1 | e'] eqn:Hadd; [| done].
    injection Hbody as <- <-. apply np_iadd_length in Hadd. congruence.
  - apply length_replicate.
Qed.

(** X5. Training for fewer iterations than [strategy_interval] (100).
    [train] then calls neither [update_strategy] nor [discount]: every call
    it logs is a call of [mccfr] or of [traverse_tree]. The [strategy_sum]
    at every key of the node map is what it was (an absent node counted as
    new); on an object that had no node, every node ends with the
    [strategy_sum] of a new [InfoSet], in the mapping the constructor made.
    This holds whether [train] returns or raises. *)
Theorem train_below_strategy_interval {card : Type} `{!EqDecision card}
    (self_state : list card → State num) cards iterations (w : World num) :
  iterations < strategy_interval →
  let w' := (train self self_state cards iterations w).2 in
  (∃ l, calls w' = calls w ++ l ∧ Forall mccfr_or_traverse_tree l) ∧
  (∀ p i, InfoSet.strategy_sum (node_or_new self (node_map w') p i)
          = InfoSet.strategy_sum (node_or_new self (node_map w) p i) ∧
          InfoSet.strategy_sum_plain (node_or_new self (node_map w') p i)
          = InfoSet.strategy_sum_plain (node_or_new self (node_map w) p i)) ∧
  (node_map w = ∅ →
   ∀ p i node, lookup_node (node_map w') p i = Some node →
               InfoSet.strategy_sum node = InfoSet.strategy_sum (InfoSet.new (actions self)) ∧
               InfoSet.strategy_sum_plain node = false).
Proof.
  intros Hlt w'.
  assert (Hrefl : ∀ (p : nat) (node : InfoSet.t num), strategy_sum_kept p node node) by done.
  assert (Htrans : ∀ (p : nat) (n1 n2 n3 : InfoSet.t num),
            strategy_sum_kept p n1 n2 → strategy_sum_kept p n2 n3 → strategy_sum_kept p n1 n3).
  { unfold strategy_sum_kept. intros p n1 n2 n3 (? & ? & ?) (? & ? & ?).
    split; [| split]; congruence. }
  pose proof (nodes_related_preorder self strategy_sum_kept Hrefl Htrans) as Hpre.
  assert (Hrel : nodes_related self strategy_sum_kept w w').
  { apply (train_preserves self (nodes_related self strategy_sum_kept)).
    - by apply nodes_related_setdefault.
    - intros st. by apply nodes_related_log.
    - intros st. by apply nodes_related_log.
    - by apply nodes_related_choices.
    - intros w0. apply nodes_related_same; [done.. |]. unfold random.
      by destruct (random_random _).
    - intros cards0 w0. apply nodes_related_same; [done.. |]. unfold shuffle.
      by destruct (random_shuffle _ _).
    - intros player a x i0. by apply nodes_related_write.
    - exact Hlt. }
  assert (Hsums : ∀ p i, InfoSet.strategy_sum (node_or_new self (node_map w') p i)
                         = InfoSet.strategy_sum (node_or_new self (node_map w) p i) ∧
                         InfoSet.strategy_sum_plain (node_or_new self (node_map w') p i)
                         = InfoSet.strategy_sum_plain (node_or_new self (node_map w) p i)).
  { intros p i. by destruct (Hrel p i) as [_ (? & _ & ?)]. }
  split; [| split; [exact Hsums |]].
  - apply (train_preserves self (logs mccfr_or_traverse_tree)).
    + intros p i. apply logs_node_setdefault.
    + intros st. by apply logs_log.
    + intros st. by apply logs_log.
    + apply logs_choices.
    + apply logs_random.
    + intros cards0. apply logs_shuffle.
    + intros player a x i. apply logs_write_node.
    + exact Hlt.
  - intros Hempty p i node Hnode. specialize (Hsums p i).
    unfold node_or_new in Hsums. rewrite Hnode, Hempty in Hsums. exact Hsums.
Qed.
End Footprint.

(** *** The deals of expected_utility *)

Section Deals.
Context {num : Type} `{!Arith num} `{!Random num} `{!SetOrder}.
Variable self : Config.

Lemma length_bind_const {A B} (f : A → list B) (l : list A) k :
  (∀ x, x ∈ l → length (f x) = k) → length (l ≫= f) = length l * k.
Proof.
  induction l as [| x l IH]; intros Hf; [done |].
  rewrite bind_cons, length_app, IH, Hf; [simpl; lia | left |].
  intros y Hy. apply Hf. by right.
Qed.

Lemma permutations_length {C : Type} (l : list C) r :
  length (permutations l r) = arrangements (length l) r.
Proof.
  revert l. induction r as [| r IH]; intros l; [done |].
  simpl. rewrite (length_bind_const _ _ (arrangements (length l - 1) r)).
  - by rewrite length_seq.
  - intros i Hi. apply elem_of_seq in Hi.
    destruct (lookup_lt_is_Some_2 l i) as [x Hx]; [lia |]. rewrite Hx.
    rewrite length_fmap, IH, length_delete by (by eexists). done.
Qed.

Lemma permutations_NoDup {C : Type} (l : list C) r :
  NoDup l → NoDup (permutations l r).
Proof.
  revert l. induction r as [| r IH]; intros l Hnd; simpl.
  - apply NoDup_singleton.
  - apply NoDup_bind; [| | apply NoDup_seq].
    + intros i1 i2 c _ _ H1 H2.
      destruct (l !! i1) as [x1 |] eqn:Hx1; [| by apply elem_of_nil in H1].
      destruct (l !! i2) as [x2 |] eqn:Hx2; [| by apply elem_of_nil in H2].
      apply list_elem_of_fmap in H1 as (c1 & -> & _).
      apply list_elem_of_fmap in H2 as (c2 & [= <- _] & _).
      by eapply NoDup_lookup.
    + intros i _. destruct (l !! i) as [x |]; [| apply NoDup_nil_2].
      apply NoDup_fmap_2; [by intros c1 c2 [= ->] |].
      apply IH. eapply sublist_NoDup; [done | apply sublist_delete].
Qed.

Lemma remove_dups_NoDup {C : Type} `{!EqDecision C} (l : list C) :
  NoDup l → remove_dups l = l.
Proof.
  induction 1 as [| x l Hx _ IH]; [done |].
  simpl. destruct (decide_rel elem_of x l); [done |]. by rewrite IH.
Qed.

(** X6. With cards that are pairwise different [expected_utility] runs over
    [n (n-1) ... (n-r+1)] deals, for [n] cards and [r = num_cards]: the set of
    line 404 removes nothing, and this number is the divisor of line 412. *)
Theorem all_combos_count {card : Type} `{!EqDecision card} (cards : list card) :
  NoDup cards →
  length (all_combos self cards) = arrangements (length cards) (num_cards self).
Proof.
  intros Hnd. unfold all_combos. rewrite set_list_perm.
  rewrite remove_dups_NoDup by by apply permutations_NoDup.
  apply permutations_length.
Qed.


Lemma permutations_short {C : Type} (l : list C) r :
  length l < r → permutations l r = [].
Proof.
  intros Hlt. apply length_zero_iff_nil. rewrite permutations_length.
  revert l Hlt. induction r as [| r IH]; intros l Hlt; [lia |].
  simpl. destruct l as [| x l]; [done |]. simpl in *.
  rewrite Nat.sub_0_r, (IH l) by lia. lia.
Qed.
End Deals.

(** *** Pruning at its limits *)

Section Pruning.
Context {num : Type} `{!Arith num} `{!Random num} `{!SetOrder}.
Variable self : Config.

Lemma node_setdefault_present s player info_set (w : World num) node :
  lookup_node (get_store s w) player info_set = Some node →
  node_setdefault self s player info_set w = (Return (), w).
Proof.
  intros Hnode. unfold node_setdefault, modify.
  by rewrite (setdefault_present self _ _ _ _ Hnode), set_get_store.
Qed.

Lemma explore_all_pruned s curr_player info_set strategy recurse l acc (w : World num) node :
  lookup_node (get_store s w) curr_player info_set = Some node →
  (∀ a, a ∈ l → ∃ regret, InfoSet.regret_sum_getitem node a = Return regret ∧
                          ltb (of_Z regret_minimum) regret = false) →
  for_each (mccfr_explore s true curr_player info_set strategy recurse) acc l w
  = (Return acc, w).
Proof.
  intros Hnode. induction l as [| a l IH]; intros Hfloor; [done |].
  rewrite for_each_cons.
  erewrite bind_Return; [apply IH; intros b Hb; apply Hfloor; by right |].
  destruct acc as [[U E] X]. unfold mccfr_explore.
  erewrite bind_Return by (by apply read_node_Some).
  destruct (Hfloor a) as (regret & Hread & Hle); [left |].
  by rewrite bind_lift, Hread, Hle.
Qed.

Lemma regret_none_explored s curr_player info_set U E l (w : World num) :
  for_each (mccfr_regret s true curr_player info_set U E ∅) () l w = (Return (), w).
Proof.
  induction l as [| a l IH]; [done |].
  rewrite for_each_cons. erewrite bind_Return; [exact IH |].
  unfold mccfr_regret. by rewrite bool_decide_eq_false_2 by set_solver.
Qed.

(** X8. Pruning everything. With pruning on, at a node of the traversing
    player that is in the node map and where every legal action has a regret
    [node.regret_sum[a]] that is not above [regret_minimum], [mccfr] visits
    no successor, updates no regret and returns the zero vector; the world
    is as before but for the logged call. *)
Theorem mccfr_all_pruned_returns_zeros player info_set successors (w : World num) node :
  lookup_node (node_map w) player info_set = Some node →
  (∀ a, a ∈ successors.*1 →
        ∃ regret, InfoSet.regret_sum_getitem node a = Return regret ∧
                  ltb (of_Z regret_minimum) regret = false) →
  let state := Decision player info_set successors in
  mccfr self player state true w
  = (Return (np_zeros (num_players self)), (log (Call_mccfr state) w).2).
Proof.
  intros Hnode Hfloor state. unfold state. rewrite mccfr_unfold.
  erewrite bind_Return by done. set (w1 := (log _ w).2).
  assert (Hnode1 : lookup_node (get_store Node_map w1) player info_set = Some node) by done.
  unfold mccfr_node. rewrite decide_True by done.
  erewrite bind_Return by (by eapply node_setdefault_present).
  erewrite bind_Return by (by apply read_node_Some).
  erewrite bind_Return by (by eapply explore_all_pruned).
  cbv beta iota. erewrite bind_Return by apply regret_none_explored.
  done.
Qed.

Lemma explore_run_unpruned s curr_player info_set recurse l (w : World num) visits w' :
  explore_run s false curr_player info_set recurse l w visits w' → visits.*1 = l.
Proof.
  induction 1 as [| a l w node regret visits w' Hp _ _ _ _ IH | a l w cu w1 visits w' _ _ _ IH];
    [done | done |].
  rewrite fmap_cons. simpl. by rewrite IH.
Qed.

Lemma explore_run_seq_run s prune curr_player info_set recurse l (w : World num) visits w' :
  explore_run s prune curr_player info_set recurse l w visits w' →
  seq_run recurse visits.*1 w visits.*2 w'.
Proof.
  induction 1 as [| a l w node regret visits w' Hp _ _ _ _ IH
                  | a l w cu w1 visits w' _ Hrec _ IH].
  - constructor.
  - done.
  - rewrite !fmap_cons. by econstructor.
Qed.

(** X9. Without pruning, a call of [mccfr] at a node of the traversing
    player that returns has run the recursive call on the successor of every
    legal action, in order; its value is the sum of the vectors returned,
    each times [strategy[a]] for the strategy computed before the loop; and
    the second loop has updated the regret of every legal action by
    [utilities[a] - expected_value[player]]. *)
Theorem mccfr_unpruned_visits_every_action
    player info_set successors (w : World num) ev w' :
  mccfr self player (Decision player info_set successors) false w = (Return ev, w') →
  let state := Decision player info_set successors in
  let w1 := (node_setdefault self Node_map player info_set (log (Call_mccfr state) w).2).2 in
  let recurse := call_on ((λ '(a, new_state),
                             (a, mccfr self player new_state false)) <$> successors) in
  ∃ node us w2,
    lookup_node (node_map w1) player info_set = Some node ∧
    length us = length successors ∧
    seq_run recurse successors.*1 w1 us w2 ∧
    weighted_sum (dict_get (InfoSet.strategy node successors.*1))
                 (np_zeros (num_players self)) (zip successors.*1 us)
    = Return ev ∧
    let utilities := utilities_of player (list_to_map ((λ a, (a, zero)) <$> successors.*1))
                                  (zip successors.*1 us) in
    w' = set_node_map
           (alter_node (λ node, foldl (regret_step false player utilities ev ∅)
                                      node successors.*1)
                       player info_set (node_map w2)) w2 ∧
    ∀ a n, a ∈ successors.*1 →
           ∃ u v, utilities !! a = Some u ∧ ev !! player = Some v ∧
                  regret_step false player utilities ev ∅ n a
                  = InfoSet.regret_sum_setitem a (add (InfoSet.regret n a) (sub u v)) n.
Proof.
  intros Hrun state w1 recurse.
  destruct (mccfr_traversing_run self _ _ _ _ _ _ _ Hrun)
    as (node & visits & w2 & Hnode & Hvisits & Hsum & Hw' & Hreads).
  pose proof (explore_run_unpruned _ _ _ _ _ _ _ _ Hvisits) as Hall.
  pose proof (explore_run_seq_run _ _ _ _ _ _ _ _ _ Hvisits) as Hseq.
  assert (Hzip : zip successors.*1 visits.*2 = visits) by (rewrite <- Hall; apply zip_fst_snd).
  exists node, visits.*2, w2. split; [done |]. split.
  { rewrite <- (length_fmap fst successors), <- Hall. by rewrite !length_fmap. }
  split; [by rewrite <- Hall at 1 |]. rewrite Hzip. split; [done |].
  cbv zeta. split; [exact Hw' |].
  intros a n Ha. destruct (Hreads a Ha) as (u & v & Hu & Hv); [done |].
  exists u, v. split; [done |]. split; [done |].
  unfold regret_step. simpl. by rewrite Hu, Hv.
Qed.
End Pruning.

(** *** discount on a node map that lacks a player *)

Section DiscountErrors.
Context {num : Type} `{!Arith num} `{!Random num} `{!SetOrder}.
Variable self : Config.

Lemma for_each_app {A B} (body : B → A → M num B) acc l1 l2 (w : World num) :
  for_each body acc (l1 ++ l2) w
  = (for_each body acc l1 ≫= λ acc', for_each body acc' l2) w.
Proof.
  revert acc w. induction l1 as [| x l1 IH]; intros acc w; [done |].
  simpl. rewrite !bind_run. destruct (body acc x w) as [[acc1 | e] w1]; [| done].
  by rewrite IH, bind_run.
Qed.

(** X10. [discount] on a node map without an entry for the player [p],
    all players before [p] having one: the call raises [KeyError] at [p],
    after it has scaled the nodes of the players before [p], which stay
    scaled; the entries of the other players are as before. *)
Theorem discount_missing_player_raises (t p : nat) (w : World num) :
  p < num_players self →
  node_map w !! p = None →
  (∀ q, q < p → is_Some (node_map w !! q)) →
  let d : num := discount_factor t in
  ∃ w', discount self t w = (Raise KeyError, w') ∧
        (∀ q, node_map w' !! q
              = if decide (q < p)
                then (λ player_nodes : gmap string (InfoSet.t num),
                        discount_node d <$> player_nodes) <$> node_map w !! q
                else node_map w !! q) ∧
        self_strategy w' = self_strategy w ∧ rng w' = rng w ∧
        calls w' = calls w ++ [Call_discount t].
Proof.
  intros Hp Hnone Hbefore d.
  set (w0 := (log (Call_discount t) w).2).
  destruct (discount_by_players d (seq 0 p) w0) as (m & Hrun & Hm).
  { apply NoDup_seq. }
  { intros q Hq. apply Hbefore. apply elem_of_seq in Hq. lia. }
  exists (set_node_map m w0). split; [| split; [| done]].
  - unfold discount. erewrite bind_Return by done. fold w0. fold d. unfold discount_by.
    replace (num_players self) with (p + S (num_players self - S p)) by lia.
    rewrite seq_app, for_each_app. erewrite bind_Return by exact Hrun.
    simpl. rewrite bind_run. unfold discount_player at 1. erewrite bind_Return by done.
    change (node_map (set_node_map m w0)) with m. rewrite Hm.
    change (node_map w0) with (node_map w). by rewrite Hnone.
  - intros q. change (node_map (set_node_map m w0)) with m. rewrite Hm.
    change (node_map w0) with (node_map w).
    destruct (decide (q < p)) as [Hq | Hq].
    + rewrite decide_True; [done |]. apply elem_of_seq. lia.
    + rewrite decide_False; [by destruct (node_map w !! q) |].
      intros Hin. apply elem_of_seq in Hin. lia.
Qed.
End DiscountErrors.

(** *** The discount factor in exact arithmetic *)

Section DiscountFactor.
#[local] Existing Instances ExQ.arith ExQ.gen ExQ.order.
#[local] Open Scope Q_scope.

(** X11. In exact arithmetic the factor of [discount(t)], line 103, is
    [t / (t + 100)]; it is at least 0 and less than 1. *)
Theorem discount_factor_exact (t : nat) :
  discount_factor t == inject_Z (Z.of_nat t) / inject_Z (Z.of_nat t + 100) ∧
  0 <= discount_factor t ∧ discount_factor t < 1.
Proof.
  assert (Hpos : 0 < inject_Z (Z.of_nat t + 100)).
  { change 0 with (inject_Z 0). rewrite <- Zlt_Qlt. lia. }
  assert (Hnn : 0 <= inject_Z (Z.of_nat t)).
  { change 0 with (inject_Z 0). rewrite <- Zle_Qle. lia. }
  assert (Heq : discount_factor t == inject_Z (Z.of_nat t) / inject_Z (Z.of_nat t + 100)).
  { unfold discount_factor, discount_interval. simpl.
    rewrite inject_Z_plus. change (inject_Z 100) with 100. change (inject_Z (Z.of_nat 100)) with 100.
    field. intros H0. rewrite inject_Z_plus in Hpos. change (inject_Z 100) with 100 in Hpos.
    rewrite H0 in Hpos. by apply Qlt_irrefl in Hpos. }
  split; [exact Heq |]. rewrite Heq. split.
  - apply Qle_shift_div_l; [done |]. by rewrite Qmult_0_l.
  - apply Qlt_shift_div_r; [done |]. rewrite Qmult_1_l, <- Zlt_Qlt. lia.
Qed.
End DiscountFactor.

(** *** Sub-game solving *)

Section SubgameTraversals.
Context {num : Type} `{!Arith num} `{!Random num} `{!SetOrder}.
Variable self : Config.
Variable R : World num → World num → Prop.
Context `{!PreOrder R}.
Hypothesis R_getitem : ∀ p i, preserves R (strategy_getitem self p i).
Hypothesis R_choices : ∀ strategy, preserves R (choices strategy).
Hypothesis R_regret :
  ∀ a value p i, preserves R (write_node Self_strategy (InfoSet.regret_sum_setitem a value) p i).
Hypothesis R_incr :
  ∀ a value p i,
    preserves R (write_node Self_strategy (InfoSet.strategy_sum_setitem a value) p i).

Lemma subgame_mccfr_preserves player prune (tree_node : TreeNode num) :
  preserves R (subgame_mccfr self player tree_node prune).
Proof.
  induction tree_node as [state is_leaf children value IH] using TreeNode_rect'.
  destruct state as [payoff | turn info_set successors]; simpl.
  - apply preserves_ret. apply _.
  - assert (Hrec : ∀ a, preserves R
              (call_child ((λ '(a0, next_tree_node),
                 (a0, subgame_mccfr self player next_tree_node prune)) <$> children) a)).
    { intros a. apply preserves_call_child; [apply _ |].
      intros m Hm. rewrite assoc_fmap in Hm.
      destruct (assoc children a) as [c |] eqn:Ha; [| done]. injection Hm as <-.
      rewrite Forall_forall in IH. exact (IH _ (assoc_Some_elem_of _ _ _ Ha)). }
    unfold subgame_mccfr_node, mccfr_explore, mccfr_regret.
    repeat first [apply R_getitem | apply R_choices | apply R_regret | apply Hrec
                 | preserves_step].
Qed.

Lemma subgame_update_strategy_preserves player (tree_node : TreeNode num) :
  preserves R (subgame_update_strategy self player tree_node).
Proof.
  induction tree_node as [state is_leaf children value IH] using TreeNode_rect'.
  destruct state as [payoff | turn info_set successors]; simpl.
  - apply preserves_ret. apply _.
  - assert (Hrec : ∀ a, preserves R
              (call_child ((λ '(a0, next_tree_node),
                 (a0, subgame_update_strategy self player next_tree_node)) <$> children) a)).
    { intros a. apply preserves_call_child; [apply _ |].
      intros m Hm. rewrite assoc_fmap in Hm.
      destruct (assoc children a) as [c |] eqn:Ha; [| done]. injection Hm as <-.
      rewrite Forall_forall in IH. exact (IH _ (assoc_Some_elem_of _ _ _ Ha)). }
    unfold subgame_update_strategy_node.
    repeat first [apply R_getitem | apply R_choices | apply R_incr | apply Hrec
                 | preserves_step].
Qed.

Section Solve.
Context `{!RandomChoice num} `{!NumpyRandom num}.
Hypothesis R_choice : ∀ (C : Type) (seq : list C), preserves R (choice seq).
Hypothesis R_discount :
  ∀ d u player, preserves R (subgame_discount_player d u player).

Lemma subgame_solve_loop_preserves nature_children np iterations :
  preserves R (for_each (subgame_solve_iteration self nature_children) np (seq 1 iterations)).
Proof.
  apply preserves_for_each; [apply _ |]. intros np0 t _.
  unfold subgame_solve_iteration, subgame_solve_player.
  repeat first [apply R_choice | apply R_discount | apply subgame_mccfr_preserves
               | apply subgame_update_strategy_preserves | preserves_step].
Qed.
End Solve.
End SubgameTraversals.

Section SubgameSolving.
Context {num : Type} `{!Arith num} `{!Random num} `{!SetOrder}
        `{!RandomChoice num} `{!NumpyRandom num}.
Variable self : Config.

#[export] Instance same_node_map_preorder :
  PreOrder (same_node_map : World num → World num → Prop).
Proof.
  split; [done |]. intros w1 w2 w3 [N12 C12] [N23 C23]. split; congruence.
Qed.

#[export] Instance stable_preorder (I : World num → Prop) : PreOrder (stable I).
Proof. split; [intros w Hw; exact Hw | intros w1 w2 w3 H12 H23 HI; apply H23, H12, HI]. Qed.

Lemma same_node_map_store (f : World num → gmap nat (gmap string (InfoSet.t num))) :
  preserves same_node_map (modify (λ w, set_self_strategy (f w) w)).
Proof. done. Qed.

Lemma same_node_map_choices strategy :
  preserves same_node_map (choices strategy : M num action).
Proof. intros w. unfold same_node_map, choices. by destruct (random_choices _ _ _). Qed.

Lemma same_node_map_choice {C : Type} (seq : list C) : preserves same_node_map (choice seq).
Proof. intros w. unfold same_node_map, choice. by destruct (random_choice _ _). Qed.

Lemma same_node_map_getitem p i : preserves same_node_map (strategy_getitem self p i).
Proof.
  unfold strategy_getitem.
  apply preserves_bind; [apply _ | done | intros _; apply preserves_read_node; apply _].
Qed.

(** X12. Sub-game solving does not touch the trained strategy.
    [subgame_mccfr] and [subgame_update_strategy] leave [self.node_map] as it
    is, and so does [subgame_solve], which also logs no call of the
    training methods; whether they return or raise. (The node map is handed
    to the leaf value function, which is taken to be a pure function.) *)
Theorem subgame_solve_keeps_node_map {S : Type} :
  (∀ player prune tree_node (w : World num),
     node_map (subgame_mccfr self player tree_node prune w).2 = node_map w ∧
     node_map (subgame_update_strategy self player tree_node w).2 = node_map w) ∧
  (∀ nature_children (strategy : S) iterations np (w : World num),
     let w' := (subgame_solve self nature_children strategy iterations np w).2 in
     node_map w' = node_map w ∧ calls w' = calls w).
Proof.
  split.
  - intros player prune tree_node w. split.
    + apply (subgame_mccfr_preserves self same_node_map); try done.
      * apply same_node_map_getitem.
      * apply same_node_map_choices.
    + apply (subgame_update_strategy_preserves self same_node_map); try done.
      * apply same_node_map_getitem.
      * apply same_node_map_choices.
  - intros nature_children strategy iterations np w.
    assert (Hpres : preserves same_node_map
              (subgame_solve self nature_children strategy iterations np)).
    { unfold subgame_solve.
      apply preserves_bind; [apply _ | done |]. intros _.
      apply preserves_bind; [apply _ | | intros np'; repeat preserves_step].
      apply (subgame_solve_loop_preserves self same_node_map); try done.
      - apply same_node_map_getitem.
      - apply same_node_map_choices.
      - intros C seq. apply same_node_map_choice. }
    apply Hpres.
Qed.

(** X13. [subgame_solve] starts from an empty [self.strategy]: what the
    field held before and the argument [strategy] make no difference to the
    outcome. With no iteration it returns the empty map. When it returns,
    its result is the [self.strategy] it leaves. *)
Theorem subgame_solve_starts_afresh {S S' : Type}
    nature_children (strategy : S) (strategy' : S') iterations np (w : World num) m :
  subgame_solve self nature_children strategy iterations np (set_self_strategy m w)
  = subgame_solve self nature_children strategy' iterations np w ∧
  subgame_solve self nature_children strategy 0 np w
  = (Return (∅, np), set_self_strategy ∅ w) ∧
  match subgame_solve self nature_children strategy iterations np w with
  | (Return (result, _), w') => result = self_strategy w'
  | (Raise _, _) => True
  end.
Proof.
  split; [done |]. split; [done |].
  unfold subgame_solve. rewrite (bind_Return _ _ w () (set_self_strategy ∅ w)) by done.
  rewrite bind_run. by destruct (for_each _ _ _ _) as [[np1 | e] w1].
Qed.

Lemma all_unfrozen_alter f p i (m : gmap nat (gmap string (InfoSet.t num))) (w : World num) :
  (∀ node, InfoSet.is_frozen (f node) = InfoSet.is_frozen node) →
  all_unfrozen w → self_strategy w = m →
  all_unfrozen (set_self_strategy (alter_node f p i m) w).
Proof.
  intros Hf Hw <- q j node.
  change (self_strategy (set_self_strategy ?m _)) with m.
  destruct (decide ((q, j) = (p, i))) as [[= -> ->] | Hne].
  - rewrite lookup_alter_node_eq.
    destruct (lookup_node (self_strategy w) p i) as [node0 |] eqn:Hnode0; [| done].
    intros [= <-]. rewrite Hf. by eapply Hw.
  - rewrite lookup_alter_node_ne by done. apply Hw.
Qed.

Lemma all_unfrozen_write f p i :
  (∀ node, InfoSet.is_frozen (f node) = InfoSet.is_frozen node) →
  preserves (stable all_unfrozen) (write_node Self_strategy f p i).
Proof. intros Hf w Hw. by apply all_unfrozen_alter. Qed.

Lemma all_unfrozen_same (w w' : World num) :
  self_strategy w' = self_strategy w → stable all_unfrozen w w'.
Proof. intros Heq Hw p i node. rewrite Heq. apply Hw. Qed.

Lemma all_unfrozen_getitem p i :
  preserves (stable all_unfrozen) (strategy_getitem self p i).
Proof.
  unfold strategy_getitem.
  apply preserves_bind; [apply _ | | intros _; apply preserves_read_node; apply _].
  intros w Hw q j node.
  change (self_strategy (node_setdefault self Self_strategy p i w).2)
    with (setdefault self p i (self_strategy w)).
  destruct (decide ((q, j) = (p, i))) as [[= -> ->] | Hne].
  - rewrite lookup_setdefault_eq. intros [= <-].
    destruct (lookup_node (self_strategy w) p i) as [node0 |] eqn:Hnode0; [| done].
    by eapply Hw.
  - rewrite lookup_setdefault_ne by done. apply Hw.
Qed.

Lemma all_unfrozen_discount d u player :
  preserves (stable all_unfrozen) (subgame_discount_player d u player).
Proof.
  intros w Hw q j node.
  change (self_strategy (subgame_discount_player d u player w).2)
    with (<[player := discount_node d <$> default ∅ (self_strategy w !! player)]>
            (self_strategy w)).
  unfold lookup_node. destruct (decide (q = player)) as [-> | Hne].
  - rewrite lookup_insert_eq. simpl. rewrite lookup_fmap.
    destruct (self_strategy w !! player) as [pn |] eqn:Hpn; simpl; [| by rewrite lookup_empty].
    destruct (pn !! j) as [node0 |] eqn:Hnode0; [| done]. intros [= <-]. simpl.
    apply (Hw player j). unfold lookup_node. rewrite Hpn. done.
  - rewrite lookup_insert_ne by done. apply Hw.
Qed.

Lemma subgame_discount_players d (l : list nat) (w : World num) :
  NoDup l →
  ∃ m, for_each (subgame_discount_player d) () l w = (Return (), set_self_strategy m w) ∧
       ∀ q, m !! q = if decide (q ∈ l)
                     then Some (discount_node d <$> default ∅ (self_strategy w !! q))
                     else self_strategy w !! q.
Proof.
  revert w. induction l as [| p l IH]; intros w Hnd.
  - exists (self_strategy w). split; [by destruct w |].
    intros q. by rewrite decide_False by apply not_elem_of_nil.
  - apply NoDup_cons in Hnd as [Hp Hnd].
    set (w1 := set_self_strategy
                 (<[p := discount_node d <$> default ∅ (self_strategy w !! p)]>
                    (self_strategy w)) w).
    destruct (IH w1 Hnd) as (m & Hrun & Hm).
    exists m. split.
    + rewrite for_each_cons. rewrite (bind_Return _ _ w () w1) by done. exact Hrun.
    + intros q. rewrite Hm.
      change (self_strategy w1)
        with (<[p := discount_node d <$> default ∅ (self_strategy w !! p)]> (self_strategy w)).
      destruct (decide (q = p)) as [-> | Hq].
      * rewrite decide_False by done. rewrite decide_True by left.
        by rewrite lookup_insert_eq.
      * rewrite lookup_insert_ne by done.
        destruct (decide (q ∈ l)) as [Hl | Hl].
        -- rewrite decide_True; [done | by right].
        -- rewrite decide_False; [done |]. intros [-> | ?]%elem_of_cons; done.
Qed.

(** X14. The discount inside [subgame_solve] (lines 242-246) never raises:
    [self.strategy] is a [defaultdict], so a player without an entry gets an
    empty one instead of the [KeyError] of [discount]. Afterwards every
    player of the game has an entry, every node of such a player is scaled
    by the factor, and nothing else changes. *)
Theorem subgame_discount_never_raises d (w : World num) :
  ∃ w', for_each (subgame_discount_player d) () (seq 0 (num_players self)) w
        = (Return (), w') ∧
        node_map w' = node_map w ∧ rng w' = rng w ∧ calls w' = calls w ∧
        (∀ q, q < num_players self → is_Some (self_strategy w' !! q)) ∧
        (∀ q i, lookup_node (self_strategy w') q i
                = (if decide (q < num_players self) then discount_node d else id)
                    <$> lookup_node (self_strategy w) q i).
Proof.
  destruct (subgame_discount_players d (seq 0 (num_players self)) w (NoDup_seq _ _))
    as (m & Hrun & Hm).
  exists (set_self_strategy m w). split; [exact Hrun |]. do 3 (split; [done |]).
  change (self_strategy (set_self_strategy m w)) with m. split.
  - intros q Hq. rewrite Hm, decide_True by (apply elem_of_seq; lia). by eexists.
  - intros q i. unfold lookup_node. rewrite Hm.
    destruct (decide (q < num_players self)) as [Hq | Hq].
    + rewrite decide_True by (apply elem_of_seq; lia). simpl. rewrite lookup_fmap.
      destruct (self_strategy w !! q) as [pn |]; simpl; [done | by rewrite lookup_empty].
    + rewrite decide_False by (rewrite elem_of_seq; lia).
      destruct (self_strategy w !! q) as [pn |]; simpl; [| done].
      by destruct (pn !! i).
Qed.

(** X15. No method of [MonteCarloCFR] freezes a node, a new [InfoSet]
    being not frozen. [subgame_mccfr] and [subgame_update_strategy] started
    where no node of [self.strategy] is frozen leave no node frozen, and
    [subgame_solve], which starts from an empty [self.strategy], always ends
    with no node frozen. *)
Theorem subgame_solve_never_freezes {S : Type} :
  (∀ player prune tree_node (w : World num),
     all_unfrozen w →
     all_unfrozen (subgame_mccfr self player tree_node prune w).2 ∧
     all_unfrozen (subgame_update_strategy self player tree_node w).2) ∧
  (∀ nature_children (strategy : S) iterations np (w : World num),
     all_unfrozen (subgame_solve self nature_children strategy iterations np w).2).
Proof.
  assert (Hchoices : ∀ strategy, preserves (stable all_unfrozen) (choices strategy)).
  { intros strategy w. apply all_unfrozen_same. unfold choices.
    by destruct (random_choices _ _ _). }
  split.
  - intros player prune tree_node w Hw. split.
    + revert Hw. apply (subgame_mccfr_preserves self (stable all_unfrozen)); try done.
      * apply all_unfrozen_getitem.
      * intros a x p i. by apply all_unfrozen_write.
      * intros a value p i. by apply all_unfrozen_write.
    + revert Hw. apply (subgame_update_strategy_preserves self (stable all_unfrozen)); try done.
      * apply all_unfrozen_getitem.
      * intros a x p i. by apply all_unfrozen_write.
      * intros a value p i. by apply all_unfrozen_write.
  - intros nature_children strategy iterations np w.
    unfold subgame_solve. erewrite bind_Return by done.
    set (w0 := set_self_strategy ∅ w).
    assert (H0 : all_unfrozen w0) by (by intros p i node).
    assert (Hloop : all_unfrozen
              (for_each (subgame_solve_iteration self nature_children) np
                        (seq 1 iterations) w0).2).
    { revert H0. apply (subgame_solve_loop_preserves self (stable all_unfrozen)); try done.
      - apply all_unfrozen_getitem.
      - intros a x p i. by apply all_unfrozen_write.
      - intros a value p i. by apply all_unfrozen_write.
      - intros C seq w1. apply all_unfrozen_same. unfold choice.
        by destruct (random_choice _ _).
      - apply all_unfrozen_discount. }
    rewrite bind_run. by destruct (for_each _ _ _ w0) as [[np1 | e] w1].
Qed.

End SubgameSolving.

(** *** No deal at all *)

Section NoDeal.
Context {num : Type} `{!Arith num} `{!Random num} `{!SetOrder}.
Variable self : Config.

Lemma expected_utility_no_deal {card : Type} `{!EqDecision card}
    (self_state : list card → State num) cards (w : World num) :
  length cards < num_cards self →
  expected_utility self self_state cards w
  = (Return (replicate (num_players self) (div zero (of_Z 0))), w).
Proof.
  intros Hlt.
  assert (Hnone : all_combos self cards = []).
  { unfold all_combos. rewrite permutations_short by done.
    apply Permutation_nil_r. by rewrite set_list_perm. }
  unfold expected_utility. rewrite Hnone. simpl. rewrite bind_run. simpl.
  unfold np_div, np_zeros. by rewrite fmap_replicate.
Qed.
End NoDeal.

Section NoDealBinary64.
#[local] Existing Instances Ex.arith Ex.gen Ex.order.

(** X16. With fewer cards than [num_cards] there is no deal, and
    [expected_utility] divides the zero vector by 0: in binary64 it returns
    a vector of NaN, without raising and without touching the world. *)
Theorem expected_utility_too_few_cards_is_nan (self : Config)
    {card : Type} `{!EqDecision card} (self_state : list card → State float)
    cards (w : World float) :
  length cards < num_cards self →
  expected_utility self self_state cards w
  = (Return (replicate (num_players self) PrimFloat.nan), w) ∧
  PrimFloat.is_nan PrimFloat.nan = true.
Proof.
  intros Hlt. split; [| reflexivity].
  rewrite expected_utility_no_deal by done. reflexivity.
Qed.
End NoDealBinary64.

(** *** Well-formed trees *)

Section Totality.
Context {num : Type} `{!Arith num} `{!Random num} `{!SetOrder}.
Variable self : Config.

Lemma dict_get_dict_set_eq {V} k (v : V) d : dict_get (dict_set k v d) k = Return v.
Proof.
  induction d as [| [k' v'] d IH]; simpl.
  - by rewrite decide_True.
  - destruct (decide (k' = k)) as [-> | Hne]; simpl.
    + by rewrite decide_True.
    + by rewrite decide_False.
Qed.

Lemma dict_get_dict_set_ne {V} k k' (v : V) d :
  k ≠ k' → dict_get (dict_set k v d) k' = dict_get d k'.
Proof.
  intros Hne. induction d as [| [k0 v0] d IH]; simpl.
  - by rewrite decide_False.
  - destruct (decide (k0 = k)) as [-> | Hne0]; simpl.
    + by rewrite !decide_False.
    + destruct (decide (k0 = k')); [done | exact IH].
Qed.

Lemma dict_get_dict_comp {V} (f : action → V) keys a :
  a ∈ keys → dict_get (dict_comp f keys) a = Return (f a).
Proof.
  unfold dict_comp.
  assert (Hgen : ∀ d, a ∈ keys ∨ dict_get d a = Return (f a) →
                      dict_get (foldl (λ d a, dict_set a (f a) d) d keys) a = Return (f a)).
  { induction keys as [| k keys IH]; intros d [Ha | Hd]; simpl.
    - by apply elem_of_nil in Ha.
    - done.
    - apply IH. apply elem_of_cons in Ha as [-> | Ha]; [| by left].
      right. apply dict_get_dict_set_eq.
    - apply IH. right. destruct (decide (k = a)) as [-> | Hne].
      + apply dict_get_dict_set_eq.
      + by rewrite dict_get_dict_set_ne. }
  intros Ha. apply Hgen. by left.
Qed.

Lemma strategy_covers (node : InfoSet.t num) valid_actions a :
  a ∈ valid_actions → ∃ p, dict_get (InfoSet.strategy node valid_actions) a = Return p.
Proof.
  intros Ha. unfold InfoSet.strategy. destruct (ltb _ _); eexists; by apply dict_get_dict_comp.
Qed.

Lemma dict_get_elem_of {V} (d : list (action * V)) a v :
  dict_get d a = Return v → (a, v) ∈ d.
Proof.
  induction d as [| [k v'] d IH]; simpl; [done |].
  destruct (decide (k = a)) as [-> | Hne].
  - intros [= ->]. left.
  - intros Hd. right. by apply IH.
Qed.

Lemma dict_set_elem_of {V} k (v : V) d k' v' :
  (k', v') ∈ dict_set k v d → (k', v') = (k, v) ∨ (k', v') ∈ d.
Proof.
  induction d as [| [k0 v0] d IH]; simpl.
  - intros ?%list_elem_of_singleton. by left.
  - destruct (decide (k0 = k)) as [-> | Hne].
    + intros [-> | Hin]%elem_of_cons; [by left | right; by right].
    + intros [-> | Hin]%elem_of_cons; [right; left |].
      destruct (IH Hin) as [-> | Hd]; [by left | right; by right].
Qed.

Lemma dict_comp_elem_of {V} (f : action → V) keys k v :
  (k, v) ∈ dict_comp f keys → k ∈ keys ∧ v = f k.
Proof.
  unfold dict_comp.
  assert (Hgen : ∀ l d, (∀ a, a ∈ l → a ∈ keys) →
            (∀ k v, (k, v) ∈ d → k ∈ keys ∧ v = f k) →
            ∀ k v, (k, v) ∈ foldl (λ d a, dict_set a (f a) d) d l → k ∈ keys ∧ v = f k).
  { induction l as [| a l IH]; intros d Hl Hd; simpl; [exact Hd |].
    apply IH; [intros b Hb; apply Hl; by right |].
    intros k0 v0 [[= -> ->] | Hin]%dict_set_elem_of; [| by apply Hd].
    split; [apply Hl; left | done]. }
  apply Hgen; [done |]. by intros k0 v0 ?%elem_of_nil.
Qed.

Lemma utilities_init_covers (valid_actions : list action) a :
  a ∈ valid_actions →
  is_Some ((list_to_map ((λ a, (a, zero)) <$> valid_actions) : gmap action num) !! a).
Proof.
  intros Ha. destruct (_ !! a) eqn:Hlook; [by eexists |].
  apply not_elem_of_list_to_map_2 in Hlook. contradict Hlook.
  rewrite <- list_fmap_compose. by rewrite list_fmap_id.
Qed.

Lemma well_formed_successor n turn info_set successors a (new_state : State num) :
  well_formed n (Decision turn info_set successors) = true →
  assoc successors a = Some new_state →
  well_formed n new_state = true.
Proof.
  simpl. rewrite !andb_true_iff, forallb_forall. intros [_ Hall] Ha.
  apply assoc_Some_elem_of, list_elem_of_In in Ha. exact (Hall _ Ha).
Qed.

(** A node that is in the node map stays there under [mccfr]. *)
Lemma mccfr_keeps_nodes player prune (state : State num) (w : World num) p i :
  is_Some (lookup_node (node_map w) p i) →
  is_Some (lookup_node (node_map (mccfr self player state prune w).2) p i).
Proof.
  assert (Hrefl : ∀ (p : nat) (node : InfoSet.t num), (λ _ _ _, True) p node node) by done.
  assert (Htrans : ∀ (p : nat) (n1 n2 n3 : InfoSet.t num),
            (λ _ _ _, True) p n1 n2 → (λ _ _ _, True) p n2 n3 → (λ _ _ _, True) p n1 n3)
    by done.
  pose proof (nodes_related_preorder self _ Hrefl Htrans) as Hpre.
  assert (Hrel : nodes_related self (λ _ _ _, True) w (mccfr self player state prune w).2).
  { apply (mccfr_preserves self (nodes_related self (λ _ _ _, True))).
    - by apply nodes_related_setdefault.
    - intros st. by apply nodes_related_log.
    - by apply nodes_related_choices.
    - intros a x i0. by apply nodes_related_write. }
  apply Hrel.
Qed.

Lemma strategy_keys_valid (node : InfoSet.t num) valid_actions a :
  a ∈ (InfoSet.strategy node valid_actions).*1 → a ∈ valid_actions.
Proof.
  intros ([k v] & -> & Hin)%list_elem_of_fmap. unfold InfoSet.strategy in Hin.
  destruct (ltb _ _); by apply dict_comp_elem_of in Hin as [? _].
Qed.

Lemma strategy_not_empty (node : InfoSet.t num) valid_actions :
  valid_actions ≠ [] → (InfoSet.strategy node valid_actions).*1 ≠ [].
Proof.
  intros Hvalid Hnil. destruct valid_actions as [| a l]; [done |].
  destruct (strategy_covers node (a :: l) a) as [p Hp]; [left |].
  apply fmap_nil_inv in Hnil. by rewrite Hnil in Hp.
Qed.

(** *** Outcomes of the traversals on a well-formed tree

    [J] is a property of the world that the traversals keep, [E] the
    exceptions that can come out when they start in a world with [J]. *)

Section Outcomes.
Variable J : World num → Prop.
Variable E : exn → Prop.
Hypothesis sampler : sampler_sound.
Hypothesis E_value : E ValueError.
Hypothesis J_regret_sum :
  ∀ (w : World num) p i node a e,
    J w → lookup_node (node_map w) p i = Some node →
    InfoSet.regret_sum_getitem node a = Raise e → E e.
Hypothesis J_strategy_sum :
  ∀ (w : World num) p i node a e,
    J w → lookup_node (node_map w) p i = Some node →
    InfoSet.strategy_sum_getitem node a = Raise e → E e.
Hypothesis J_log : ∀ c, preserves (stable J) (log c).
Hypothesis J_setdefault : ∀ p i, preserves (stable J) (node_setdefault self Node_map p i).
Hypothesis J_choices : ∀ strategy, preserves (stable J) (choices strategy).
Hypothesis J_set_regret :
  ∀ a value p i,
    preserves (stable J) (write_node Node_map (InfoSet.regret_sum_setitem a value) p i).
Hypothesis J_set_weight :
  ∀ a value p i,
    preserves (stable J) (write_node Node_map (InfoSet.strategy_sum_setitem a value) p i).

Lemma stable_J : PreOrder (stable J).
Proof. split; [by intros w Hw | intros w1 w2 w3 H12 H23 Hw; by apply H23, H12]. Qed.

Lemma ends_bind {A B} (m : M num A) (k : A → M num B) (w : World num) Q Q' :
  ends E m w Q → (∀ a w', Q a w' → ends E (k a) w' Q') → ends E (m ≫= k) w Q'.
Proof.
  unfold ends. rewrite bind_run. destruct (m w) as [[a | e] w']; [| done].
  intros HQ Hk. by apply Hk.
Qed.

Lemma ends_lift {A B} (o : outcome A) (k : A → M num B) (w : World num) Q :
  match o with Return a => ends E (k a) w Q | Raise e => E e end →
  ends E (lift o ≫= k) w Q.
Proof. unfold ends. rewrite bind_lift. by destruct o. Qed.

Lemma ends_weaken {A} (m : M num A) (w : World num) (Q Q' : A → World num → Prop) :
  ends E m w Q → (∀ a w', Q a w' → Q' a w') → ends E m w Q'.
Proof. unfold ends. destruct (m w) as [[a | e] w']; [| done]. intros HQ HQ'. by apply HQ'. Qed.

Lemma ends_for_each {A B} (I : World num → Prop) (K : B → Prop)
    (body : B → A → M num B) l :
  (∀ acc x w, x ∈ l → K acc → I w → ends E (body acc x) w (λ acc' w', K acc' ∧ I w')) →
  ∀ acc w, K acc → I w → ends E (for_each body acc l) w (λ acc' w', K acc' ∧ I w').
Proof.
  induction l as [| x l IH]; intros Hbody acc w HK HI.
  - by split.
  - rewrite for_each_cons. eapply ends_bind; [apply Hbody; [left | done..] |].
    intros acc' w' [HK' HI']. apply IH; [| done..].
    intros acc0 y w0 Hy. apply Hbody. by right.
Qed.

Lemma ends_stable {A} (m : M num A) (w : World num) (Q : A → World num → Prop) :
  preserves (stable J) m → J w → ends E m w Q → ends E m w (λ a w', Q a w' ∧ J w').
Proof.
  intros Hm HJ. specialize (Hm w HJ). unfold ends.
  by destruct (m w) as [[a | e] w'].
Qed.

Lemma read_node_ends player info_set (w : World num) node :
  lookup_node (node_map w) player info_set = Some node →
  ends E (read_node Node_map player info_set) w (λ node' w', node' = node ∧ w' = w).
Proof. intros Hnode. unfold ends. by rewrite (read_node_Some Node_map _ _ w node Hnode). Qed.

(** The node at a key stays in the node map when a regret or a strategy
    weight is stored. *)
Lemma write_node_keeps f player info_set (w : World num) p i :
  is_Some (lookup_node (node_map w) p i) →
  is_Some (lookup_node (node_map (write_node Node_map f player info_set w).2) p i).
Proof.
  change (node_map (write_node Node_map f player info_set w).2)
    with (alter_node f player info_set (node_map w)).
  destruct (decide ((p, i) = (player, info_set))) as [[= -> ->] | Hne].
  - rewrite lookup_alter_node_eq. intros [node ->]. by eexists.
  - by rewrite lookup_alter_node_ne.
Qed.

Lemma add_regret_ends a x player info_set (w : World num) :
  J w → is_Some (lookup_node (node_map w) player info_set) →
  ends E (add_regret Node_map a x player info_set) w
       (λ _ w', J w' ∧ is_Some (lookup_node (node_map w') player info_set)).
Proof.
  intros HJ [node Hnode]. unfold ends.
  rewrite (add_regret_run _ _ _ _ _ _ node) by exact Hnode.
  destruct (InfoSet.regret_sum_getitem node a) as [value | e] eqn:Hread.
  - split.
    + exact (J_set_regret a (add value x) player info_set w HJ).
    + apply (write_node_keeps _ player info_set w). by eexists.
  - by eapply J_regret_sum.
Qed.

Lemma incr_strategy_sum_ends a player info_set (w : World num) :
  J w → is_Some (lookup_node (node_map w) player info_set) →
  ends E (incr_strategy_sum Node_map a player info_set) w (λ _ w', J w').
Proof.
  intros HJ [node Hnode]. unfold ends.
  rewrite (incr_strategy_sum_run _ _ _ _ _ node) by exact Hnode.
  destruct (InfoSet.strategy_sum_getitem node a) as [value | e] eqn:Hread.
  - exact (J_set_weight a (add value one) player info_set w HJ).
  - by eapply J_strategy_sum.
Qed.

(** The draw of an action from the strategy of a node over legal actions. *)
Lemma choices_ends (node : InfoSet.t num) valid_actions (w : World num) :
  valid_actions ≠ [] → J w →
  ends E (choices (InfoSet.strategy node valid_actions)) w
       (λ a w', a ∈ valid_actions ∧ J w' ∧ node_map w' = node_map w).
Proof.
  intros Hvalid HJ. pose proof (J_choices (InfoSet.strategy node valid_actions) w HJ) as HJ'.
  unfold ends, choices in *.
  pose proof (sampler (rng w) (InfoSet.strategy node valid_actions).*1
                (InfoSet.strategy node valid_actions).*2) as Hdraw.
  destruct (random_choices _ _ _) as [[a | e] g].
  - split; [| by split]. apply (strategy_keys_valid node). apply Hdraw.
    + by apply strategy_not_empty.
    + by rewrite !length_fmap.
  - rewrite Hdraw; [done | by apply strategy_not_empty | by rewrite !length_fmap].
Qed.

Lemma J_mccfr player prune (state : State num) :
  preserves (stable J) (mccfr self player state prune).
Proof.
  pose proof stable_J as Hpre.
  apply (mccfr_preserves self (stable J));
    [apply J_setdefault | intros st; apply J_log | apply J_choices |
     intros a value i; apply J_set_regret].
Qed.

Lemma J_update_strategy player (state : State num) :
  preserves (stable J) (update_strategy self player state).
Proof.
  pose proof stable_J as Hpre.
  apply (update_strategy_preserves self (stable J));
    [apply J_setdefault | intros st; apply J_log | apply J_choices |
     intros a value i; apply J_set_weight].
Qed.

Lemma mccfr_ends player prune (state : State num) :
  well_formed (num_players self) state = true →
  ∀ w : World num, J w →
    ends E (mccfr self player state prune) w (λ v _, length v = num_players self).
Proof.
  induction state as [payoff | turn info_set successors IH] using State_rect'; intros Hwf w HJ.
  - simpl in Hwf. apply bool_decide_eq_true in Hwf.
    unfold ends. rewrite mccfr_unfold. by erewrite bind_Return.
  - pose proof Hwf as Hwf0. simpl in Hwf. rewrite !andb_true_iff in Hwf.
    destruct Hwf as [[Hturn%bool_decide_eq_true Hne%bool_decide_eq_true] _].
    assert (Hvalid : successors.*1 ≠ []) by (by destruct successors).
    set (recurse := call_on ((λ '(a, new_state),
                      (a, mccfr self player new_state prune)) <$> successors)).
    assert (Hrec : ∀ a (w0 : World num), a ∈ successors.*1 → J w0 →
              ends E (recurse a) w0
                   (λ v w1, length v = num_players self ∧ J w1 ∧
                            ∀ p i, is_Some (lookup_node (node_map w0) p i) →
                                   is_Some (lookup_node (node_map w1) p i))).
    { intros a w0 Ha HJ0. destruct (assoc_is_Some successors a Ha) as [new_state Hst].
      rewrite Forall_forall in IH.
      pose proof (IH _ (assoc_Some_elem_of _ _ _ Hst)
                     (well_formed_successor _ _ _ _ _ _ Hwf0 Hst) w0 HJ0) as Hends.
      pose proof (J_mccfr player prune new_state w0 HJ0) as HJ1.
      pose proof (mccfr_keeps_nodes player prune new_state w0) as Hkept.
      simpl in Hends. unfold ends, recurse, call_on in *. rewrite assoc_fmap, Hst. simpl.
      by destruct (mccfr self player new_state prune w0) as [[v | e] w1]. }
    rewrite mccfr_unfold.
    eapply ends_bind; [apply (ends_stable _ _ (λ _ _, True)); [apply J_log | done | done] |].
    intros [] w0 [_ HJ0]. unfold mccfr_node. fold recurse.
    assert (Hset : ends E (node_setdefault self Node_map turn info_set) w0
                     (λ _ w1, is_Some (lookup_node (node_map w1) turn info_set) ∧ J w1)).
    { apply ends_stable; [apply J_setdefault | done |]. unfold ends. simpl.
      rewrite lookup_setdefault_eq. by eexists. }
    destruct (decide (turn = player)) as [-> | Hother].
    + eapply ends_bind; [exact Hset |]. intros [] w1 [[node Hnode] HJ1].
      eapply ends_bind; [by apply read_node_ends |].
      intros node' w1' [-> ->]. cbv zeta.
      set (strategy := InfoSet.strategy node successors.*1).
      set (I0 := λ w2 : World num,
                   J w2 ∧ is_Some (lookup_node (node_map w2) player info_set)).
      set (K := λ acc : gmap action num * list num * gset action,
                  length acc.1.2 = num_players self ∧
                  ∀ a, a ∈ successors.*1 → is_Some (acc.1.1 !! a)).
      eapply ends_bind.
      { apply (ends_for_each I0 K).
        - intros [[U V] X] a w2 Ha [HV HU] [HJ2 Hnode2]. simpl in HV, HU.
          assert (Hvisit : ∀ X' : gset action,
                    ends E (recurse a ≫= λ calculated_util,
                            lift (np_index calculated_util player) ≫= λ u,
                            lift (dict_get strategy a) ≫= λ p,
                            lift (np_iadd V (np_scale calculated_util p)) ≫= λ expected_value',
                            mret (<[a := u]> U, expected_value', X')) w2
                         (λ acc' w', K acc' ∧ I0 w')).
          { intros X'. eapply ends_bind; [by apply Hrec |].
            intros v w3 (Hlen & HJ3 & Hkept).
            destruct (lookup_lt_is_Some_2 v player) as [u Hu]; [lia |].
            destruct (strategy_covers node successors.*1 a Ha) as [p Hp].
            fold strategy in Hp. unfold ends.
            rewrite bind_lift. unfold np_index. rewrite Hu.
            rewrite bind_lift, Hp, bind_lift.
            unfold np_iadd, np_scale. rewrite decide_True by (rewrite length_fmap; lia).
            split; [| split; [done | by apply Hkept]]. split; simpl.
            - rewrite length_zip_with, length_fmap. lia.
            - intros b Hb. destruct (decide (b = a)) as [-> | Hba].
              + rewrite lookup_insert_eq. by eexists.
              + rewrite lookup_insert_ne by done. by apply HU. }
          unfold mccfr_explore. destruct prune; [| apply Hvisit].
          destruct Hnode2 as [node2 Hnode2].
          eapply ends_bind; [by apply read_node_ends |].
          intros node2' w2' [-> ->].
          destruct (InfoSet.regret_sum_getitem node2 a) as [regret | e] eqn:Hread.
          + apply ends_lift.
            destruct (ltb _ _); [apply Hvisit |].
            unfold ends. simpl. split; [by split | split; [done | by eexists]].
          + apply ends_lift. by eapply J_regret_sum.
        - split; [apply length_replicate |]. intros a Ha. simpl.
          by apply utilities_init_covers.
        - split; [done | by eexists]. }
      intros [[U V] X] w2 [[HV HU] [HJ2 Hnode2]]. simpl in HV, HU.
      destruct (lookup_lt_is_Some_2 V player) as [v Hv]; [lia |].
      eapply ends_bind.
      { apply (ends_for_each I0 (λ _ : (), True)).
        - intros [] a w4 Ha _ [HJ4 Hnode4]. destruct (HU a Ha) as [u Hu].
          assert (Hupd : ends E (lift (getitem U a) ≫= λ u,
                                 lift (np_index V player) ≫= λ v,
                                 add_regret Node_map a (sub u v) player info_set) w4
                              (λ _ w', True ∧ I0 w')).
          { unfold ends. rewrite bind_lift. unfold getitem. rewrite Hu.
            rewrite bind_lift. unfold np_index. rewrite Hv.
            pose proof (add_regret_ends a (sub u v) player info_set w4 HJ4 Hnode4) as Hadd.
            unfold ends in Hadd.
            by destruct (add_regret _ _ _ _ _ w4) as [[[] | e] w5]. }
          unfold mccfr_regret. destruct prune; [destruct (bool_decide _) |].
          * exact Hupd.
          * unfold ends. simpl. by split.
          * exact Hupd.
        - done.
        - by split. }
      intros [] w3 _. by unfold ends.
    + eapply ends_bind; [exact Hset |]. intros [] w1 [[node Hnode] HJ1].
      eapply ends_bind; [by apply read_node_ends |].
      intros node' w1' [-> ->]. cbv zeta.
      eapply ends_bind; [by apply choices_ends |].
      intros a w2 (Ha & HJ2 & _).
      eapply ends_weaken; [by apply Hrec |]. by intros v w3 (Hlen & _).
Qed.

Lemma update_strategy_ends player (state : State num) :
  well_formed (num_players self) state = true →
  ∀ w : World num, J w → ends E (update_strategy self player state) w (λ _ _, True).
Proof.
  induction state as [payoff | turn info_set successors IH] using State_rect'; intros Hwf w HJ.
  - unfold ends. rewrite update_strategy_unfold. by erewrite bind_Return.
  - pose proof Hwf as Hwf0. simpl in Hwf. rewrite !andb_true_iff in Hwf.
    destruct Hwf as [[_ Hne%bool_decide_eq_true] _].
    assert (Hvalid : successors.*1 ≠ []) by (by destruct successors).
    set (recurse := call_on ((λ '(a, new_state),
                      (a, update_strategy self player new_state)) <$> successors)).
    assert (Hrec : ∀ a (w0 : World num), a ∈ successors.*1 → J w0 →
              ends E (recurse a) w0 (λ _ w1, J w1)).
    { intros a w0 Ha HJ0. destruct (assoc_is_Some successors a Ha) as [new_state Hst].
      rewrite Forall_forall in IH.
      pose proof (IH _ (assoc_Some_elem_of _ _ _ Hst)
                     (well_formed_successor _ _ _ _ _ _ Hwf0 Hst) w0 HJ0) as Hends.
      pose proof (J_update_strategy player new_state w0 HJ0) as HJ1.
      simpl in Hends. unfold ends, recurse, call_on in *. rewrite assoc_fmap, Hst. simpl.
      by destruct (update_strategy self player new_state w0) as [[v | e] w1]. }
    rewrite update_strategy_unfold.
    eapply ends_bind; [apply (ends_stable _ _ (λ _ _, True)); [apply J_log | done | done] |].
    intros [] w0 [_ HJ0]. unfold update_strategy_node. fold recurse.
    assert (Hset : ends E (node_setdefault self Node_map turn info_set) w0
                     (λ _ w1, is_Some (lookup_node (node_map w1) turn info_set) ∧ J w1)).
    { apply ends_stable; [apply J_setdefault | done |]. unfold ends. simpl.
      rewrite lookup_setdefault_eq. by eexists. }
    destruct (decide (turn = player)) as [-> | Hother].
    + eapply ends_bind; [exact Hset |]. intros [] w1 [[node Hnode] HJ1].
      eapply ends_bind; [by apply read_node_ends |].
      intros node' w1' [-> ->]. cbv zeta.
      eapply ends_bind; [by apply choices_ends |].
      intros a w2 (Ha & HJ2 & Hmap).
      eapply ends_bind.
      { apply incr_strategy_sum_ends; [done |]. rewrite Hmap. by eexists. }
      intros [] w3 HJ3. eapply ends_weaken; [by apply Hrec | done].
    + eapply ends_bind; [exact Hset |]. intros [] w1 [_ HJ1].
      eapply ends_weaken.
      { apply (ends_for_each J (λ _ : (), True)); [| done..].
        intros [] a w2 Ha _ HJ2. eapply ends_weaken; [by apply Hrec | done]. }
      done.
Qed.
End Outcomes.

Lemma never_discounted_same (w w' : World num) :
  node_map w' = node_map w → stable never_discounted w w'.
Proof. intros Heq Hw p i node. rewrite Heq. apply Hw. Qed.

Lemma never_discounted_setdefault p i :
  preserves (stable never_discounted) (node_setdefault self Node_map p i).
Proof.
  intros w Hw q j node.
  change (node_map (node_setdefault self Node_map p i w).2)
    with (setdefault self p i (node_map w)).
  destruct (decide ((q, j) = (p, i))) as [[= -> ->] | Hne].
  - rewrite lookup_setdefault_eq. intros [= <-].
    destruct (lookup_node (node_map w) p i) as [node0 |] eqn:Hnode0; [| done].
    by eapply Hw.
  - rewrite lookup_setdefault_ne by done. apply Hw.
Qed.

Lemma never_discounted_write f p i :
  (∀ node, InfoSet.regret_sum_plain (f node) = InfoSet.regret_sum_plain node ∧
           InfoSet.strategy_sum_plain (f node) = InfoSet.strategy_sum_plain node) →
  preserves (stable never_discounted) (write_node Node_map f p i).
Proof.
  intros Hf w Hw q j node.
  change (node_map (write_node Node_map f p i w).2) with (alter_node f p i (node_map w)).
  destruct (decide ((q, j) = (p, i))) as [[= -> ->] | Hne].
  - rewrite lookup_alter_node_eq.
    destruct (lookup_node (node_map w) p i) as [node0 |] eqn:Hnode0; [| done].
    intros [= <-]. destruct (Hf node0) as [-> ->]. by eapply Hw.
  - rewrite lookup_alter_node_ne by done. apply Hw.
Qed.

Lemma getitem_or_zero_raises plain (d : gmap action num) a e :
  InfoSet.getitem_or_zero plain d a = Raise e → e = KeyError ∧ plain = true.
Proof. intros Hraise. by apply getitem_or_zero_Raise in Hraise as (-> & -> & _). Qed.

Lemma mccfr_ends_any player prune (state : State num) (w : World num) :
  sampler_sound → well_formed (num_players self) state = true →
  ends (λ e, e = ValueError ∨ e = KeyError) (mccfr self player state prune) w
       (λ v _, length v = num_players self).
Proof.
  intros Hsampler Hwf.
  apply (mccfr_ends (λ _, True) (λ e, e = ValueError ∨ e = KeyError)); try done.
  - by left.
  - intros w0 p i node a e _ _ Hr. right. by apply getitem_or_zero_raises in Hr as [-> _].
  - intros w0 p i node a e _ _ Hr. right. by apply getitem_or_zero_raises in Hr as [-> _].
Qed.

Lemma update_strategy_ends_any player (state : State num) (w : World num) :
  sampler_sound → well_formed (num_players self) state = true →
  ends (λ e, e = ValueError ∨ e = KeyError) (update_strategy self player state) w
       (λ _ _, True).
Proof.
  intros Hsampler Hwf.
  apply (update_strategy_ends (λ _, True) (λ e, e = ValueError ∨ e = KeyError)); try done.
  - by left.
  - intros w0 p i node a e _ _ Hr. right. by apply getitem_or_zero_raises in Hr as [-> _].
  - intros w0 p i node a e _ _ Hr. right. by apply getitem_or_zero_raises in Hr as [-> _].
Qed.

Lemma mccfr_ends_never_discounted player prune (state : State num) (w : World num) :
  sampler_sound → well_formed (num_players self) state = true → never_discounted w →
  ends (λ e, e = ValueError) (mccfr self player state prune) w
       (λ v _, length v = num_players self).
Proof.
  intros Hsampler Hwf Hnever.
  apply (mccfr_ends never_discounted (λ e, e = ValueError)); try done.
  - intros w0 p i node a e Hw0 Hnode Hr. apply getitem_or_zero_raises in Hr as [_ Hplain].
    destruct (Hw0 _ _ _ Hnode). congruence.
  - intros w0 p i node a e Hw0 Hnode Hr. apply getitem_or_zero_raises in Hr as [_ Hplain].
    destruct (Hw0 _ _ _ Hnode). congruence.
  - intros c w0. by apply never_discounted_same.
  - apply never_discounted_setdefault.
  - intros strategy w0. apply never_discounted_same. unfold choices.
    by destruct (random_choices _ _ _).
  - intros a value p i. by apply never_discounted_write.
  - intros a value p i. by apply never_discounted_write.
Qed.

Lemma update_strategy_ends_never_discounted player (state : State num) (w : World num) :
  sampler_sound → well_formed (num_players self) state = true → never_discounted w →
  ends (λ e, e = ValueError) (update_strategy self player state) w (λ _ _, True).
Proof.
  intros Hsampler Hwf Hnever.
  apply (update_strategy_ends never_discounted (λ e, e = ValueError)); try done.
  - intros w0 p i node a e Hw0 Hnode Hr. apply getitem_or_zero_raises in Hr as [_ Hplain].
    destruct (Hw0 _ _ _ Hnode). congruence.
  - intros w0 p i node a e Hw0 Hnode Hr. apply getitem_or_zero_raises in Hr as [_ Hplain].
    destruct (Hw0 _ _ _ Hnode). congruence.
  - intros c w0. by apply never_discounted_same.
  - apply never_discounted_setdefault.
  - intros strategy w0. apply never_discounted_same. unfold choices.
    by destruct (random_choices _ _ _).
  - intros a value p i. by apply never_discounted_write.
  - intros a value p i. by apply never_discounted_write.
Qed.

(** X17. What can go wrong on a well-formed tree. On a game tree where
    every payoff vector has [num_players] entries, every acting player is a
    player of the game and every decision has a legal action, and with a
    [random.choices] that returns a member of its population or raises
    [ValueError], [mccfr] (with or without pruning) and [update_strategy]
    started in any world return, [mccfr] a vector of [num_players] entries,
    or raise [ValueError] or [KeyError]: no index is out of range, no lookup
    of an action in a strategy or of a successor fails, no vector addition
    has operands of different shapes. On an object on which [discount] has
    not run, so that no mapping is a plain dictionary, [KeyError] is
    excluded too: the one failure left is the [ValueError] of
    [random.choices]. *)
Theorem traversals_raise_only_value_or_key_error (state : State num) :
  sampler_sound →
  well_formed (num_players self) state = true →
  ∀ player (w : World num),
    (∀ prune,
       match mccfr self player state prune w with
       | (Return v, _) => length v = num_players self
       | (Raise e, _) =>
           (e = ValueError ∨ e = KeyError) ∧ (never_discounted w → e = ValueError)
       end) ∧
    match update_strategy self player state w with
    | (Return _, _) => True
    | (Raise e, _) =>
        (e = ValueError ∨ e = KeyError) ∧ (never_discounted w → e = ValueError)
    end.
Proof.
  intros Hsampler Hwf player w. split; [intros prune |].
  - pose proof (mccfr_ends_any player prune state w Hsampler Hwf) as Hany.
    pose proof (mccfr_ends_never_discounted player prune state w Hsampler Hwf) as Hnever.
    unfold ends in Hany, Hnever.
    destruct (mccfr self player state prune w) as [[v | e] w']; [done |].
    split; [done | exact Hnever].
  - pose proof (update_strategy_ends_any player state w Hsampler Hwf) as Hany.
    pose proof (update_strategy_ends_never_discounted player state w Hsampler Hwf) as Hnever.
    unfold ends in Hany, Hnever.
    destruct (update_strategy self player state w) as [[v | e] w']; [done |].
    split; [done | exact Hnever].
Qed.
End Totality.

(** *** Visited information sets are in the node map *)

Section Registration.
Context {num : Type} `{!Arith num} `{!Random num} `{!SetOrder}.
Variable self : Config.

#[export] Instance visits_registered_preorder :
  PreOrder (visits_registered : World num → World num → Prop).
Proof.
  assert (Hmono : ∀ (w w' : World num) c,
            (∀ p i, is_Some (lookup_node (node_map w) p i) →
                    is_Some (lookup_node (node_map w') p i)) →
            registered w c → registered w' c).
  { intros w w' c Hkept. destruct c as [[| t i s] | [| t i s] | [| t i s] |]; simpl; auto. }
  split.
  - intros w. split; [done |]. exists []. by rewrite app_nil_r.
  - intros w1 w2 w3 [K12 (l1 & C12 & R12)] [K23 (l2 & C23 & R23)]. split; [by auto |].
    exists (l1 ++ l2). split; [by rewrite C23, C12, app_assoc |].
    apply Forall_app. split; [| done]. eapply Forall_impl; [exact R12 |].
    intros c. by apply Hmono.
Qed.

Lemma visits_registered_same (w w' : World num) :
  (∀ p i, is_Some (lookup_node (node_map w) p i) → is_Some (lookup_node (node_map w') p i)) →
  calls w' = calls w → visits_registered w w'.
Proof. intros Hkept Hcalls. split; [done |]. exists []. by rewrite app_nil_r. Qed.

Lemma visits_registered_setdefault p i :
  preserves visits_registered (node_setdefault self Node_map p i).
Proof.
  intros w. apply visits_registered_same; [| done]. intros q j.
  change (node_map (node_setdefault self Node_map p i w).2)
    with (setdefault self p i (node_map w)).
  destruct (decide ((q, j) = (p, i))) as [[= -> ->] | Hne].
  - rewrite lookup_setdefault_eq. by eexists.
  - by rewrite lookup_setdefault_ne.
Qed.

Lemma visits_registered_write f p i :
  preserves visits_registered (write_node Node_map f p i).
Proof.
  intros w. apply visits_registered_same; [| done]. intros q j.
  change (node_map (write_node Node_map f p i w).2) with (alter_node f p i (node_map w)).
  destruct (decide ((q, j) = (p, i))) as [[= -> ->] | Hne].
  - rewrite lookup_alter_node_eq. apply fmap_is_Some.
  - by rewrite lookup_alter_node_ne.
Qed.

Lemma visits_registered_choices strategy :
  preserves visits_registered (choices strategy : M num action).
Proof.
  intros w. unfold choices. destruct (random_choices _ _ _).
  by apply visits_registered_same.
Qed.

(** Entering a decision state: the call is logged, the node is created if
    absent, and the rest of the body runs from there. *)
Lemma visits_registered_enter {A} c turn info_set (rest : M num A) (w : World num) :
  (∀ w0, is_Some (lookup_node (node_map w0) turn info_set) → registered w0 c) →
  preserves visits_registered rest →
  visits_registered w ((log c ≫= λ _, node_setdefault self Node_map turn info_set
                              ≫= λ _, rest) w).2.
Proof.
  intros Hc Hrest.
  set (w0 := (log c w).2). set (w1 := (node_setdefault self Node_map turn info_set w0).2).
  rewrite (bind_Return _ _ w () w0) by done. rewrite (bind_Return _ _ w0 () w1) by done.
  destruct (Hrest w1) as [Kept (l & Hl & Hreg)].
  assert (K01 : ∀ p i, is_Some (lookup_node (node_map w) p i) →
                       is_Some (lookup_node (node_map w1) p i)).
  { intros p i. apply (visits_registered_setdefault turn info_set w0). }
  split; [by auto |]. exists (c :: l). split.
  - rewrite Hl. change (calls w1) with (calls w ++ [c]). by rewrite <- app_assoc.
  - constructor; [| done]. apply Hc, Kept.
    change (node_map w1) with (setdefault self turn info_set (node_map w)).
    rewrite lookup_setdefault_eq. by eexists.
Qed.

Lemma visits_registered_terminal c (w : World num) :
  (∀ w0 : World num, registered w0 c) → visits_registered w (log c w).2.
Proof.
  intros Hc. split; [done |]. exists [c]. split; [done |]. by constructor.
Qed.

Lemma mccfr_registers player prune (state : State num) :
  preserves visits_registered (mccfr self player state prune).
Proof.
  induction state as [payoff | turn info_set successors IH] using State_rect'; intros w.
  - rewrite mccfr_unfold. rewrite (bind_Return _ _ w () (log (Call_mccfr (Terminal payoff)) w).2)
      by done. by apply visits_registered_terminal.
  - set (recurse := call_on ((λ '(a, new_state),
                      (a, mccfr self player new_state prune)) <$> successors)).
    assert (Hrec : ∀ a, preserves visits_registered (recurse a)).
    { intros a. apply preserves_call_on; [apply _ |].
      intros m Hm. rewrite assoc_fmap in Hm.
      destruct (assoc successors a) as [new_state |] eqn:Ha; [| done].
      injection Hm as <-.
      rewrite Forall_forall in IH. exact (IH _ (assoc_Some_elem_of _ _ _ Ha)). }
    rewrite mccfr_unfold. unfold mccfr_node. fold recurse.
    destruct (decide (turn = player)) as [-> | Hturn].
    + apply visits_registered_enter; [done |].
      unfold mccfr_explore, mccfr_regret.
      repeat first [apply visits_registered_write | apply Hrec | preserves_step].
    + apply visits_registered_enter; [done |].
      repeat first [apply visits_registered_choices | apply Hrec | preserves_step].
Qed.

Lemma update_strategy_registers player (state : State num) :
  preserves visits_registered (update_strategy self player state).
Proof.
  induction state as [payoff | turn info_set successors IH] using State_rect'; intros w.
  - rewrite update_strategy_unfold.
    rewrite (bind_Return _ _ w () (log (Call_update_strategy (Terminal payoff)) w).2) by done.
    by apply visits_registered_terminal.
  - set (recurse := call_on ((λ '(a, new_state),
                      (a, update_strategy self player new_state)) <$> successors)).
    assert (Hrec : ∀ a, preserves visits_registered (recurse a)).
    { intros a. apply preserves_call_on; [apply _ |].
      intros m Hm. rewrite assoc_fmap in Hm.
      destruct (assoc successors a) as [new_state |] eqn:Ha; [| done].
      injection Hm as <-.
      rewrite Forall_forall in IH. exact (IH _ (assoc_Some_elem_of _ _ _ Ha)). }
    rewrite update_strategy_unfold. unfold update_strategy_node. fold recurse.
    destruct (decide (turn = player)) as [-> | Hturn].
    + apply visits_registered_enter; [done |].
      repeat first [apply visits_registered_choices | apply visits_registered_write
                   | apply Hrec | preserves_step].
    + apply visits_registered_enter; [done |].
      repeat first [apply Hrec | preserves_step].
Qed.

Lemma try_except_raise_world {A} (m : M num A) e (w : World num) :
  (try_except_raise m e w).2 = (m w).2.
Proof. unfold try_except_raise. by destruct (m w) as [[a | e'] w']. Qed.

Lemma traverse_tree_registers (state : State num) :
  preserves visits_registered (traverse_tree self state).
Proof.
  induction state as [payoff | turn info_set successors IH] using State_rect'; intros w.
  - rewrite traverse_tree_unfold.
    rewrite (bind_Return _ _ w () (log (Call_traverse_tree (Terminal payoff)) w).2) by done.
    by apply visits_registered_terminal.
  - set (recurse := call_on ((λ '(a, new_state),
                      (a, traverse_tree self new_state)) <$> successors)).
    assert (Hrec : ∀ a, preserves visits_registered (recurse a)).
    { intros a. apply preserves_call_on; [apply _ |].
      intros m Hm. rewrite assoc_fmap in Hm.
      destruct (assoc successors a) as [new_state |] eqn:Ha; [| done].
      injection Hm as <-.
      rewrite Forall_forall in IH. exact (IH _ (assoc_Some_elem_of _ _ _ Ha)). }
    rewrite traverse_tree_unfold. unfold traverse_tree_node. fold recurse.
    set (c := Call_traverse_tree (Decision turn info_set successors)).
    rewrite (bind_Return _ _ w () (log c w).2) by done. rewrite try_except_raise_world.
    apply (visits_registered_enter c turn info_set
             (node ← read_node Node_map turn info_set;
              for_each (λ util a, child ← recurse a;
                                  p ← lift (getitem (InfoSet.avg_strategy node) a);
                                  lift (np_iadd util (np_scale child p)))
                       (np_zeros (num_players self)) successors.*1) w); [done |].
    repeat first [apply Hrec | preserves_step].
Qed.

(** X18. Every information set a traversal visits is in the node map
    afterwards. For [mccfr], [update_strategy] and [traverse_tree], whether
    they return or raise: no node is removed, and every decision state on
    which the traversal was called during the run has a node at its
    information set in the final node map. *)
Theorem traversals_register_visited_information_sets :
  ∀ player prune (state : State num) (w : World num),
    let registers (w' : World num) :=
      (∀ p i, is_Some (lookup_node (node_map w) p i) →
              is_Some (lookup_node (node_map w') p i)) ∧
      ∃ l, calls w' = calls w ++ l ∧
           ∀ turn info_set successors,
             (Call_mccfr (Decision turn info_set successors) ∈ l ∨
              Call_update_strategy (Decision turn info_set successors) ∈ l ∨
              Call_traverse_tree (Decision turn info_set successors) ∈ l) →
             is_Some (lookup_node (node_map w') turn info_set) in
    registers (mccfr self player state prune w).2 ∧
    registers (update_strategy self player state w).2 ∧
    registers (traverse_tree self state w).2.
Proof.
  intros player prune state w registers.
  assert (Hreg : ∀ w', visits_registered w w' → registers w').
  { intros w' [Hkept (l & Hl & Hall)]. split; [done |]. exists l. split; [done |].
    rewrite Forall_forall in Hall. intros turn info_set successors [Hin | [Hin | Hin]];
      exact (Hall _ Hin). }
  split; [| split]; apply Hreg;
    [apply mccfr_registers | apply update_strategy_registers | apply traverse_tree_registers].
Qed.
End Registration.

(** *** Leaves of the sub-game tree *)

Section Leaves.
Context {num : Type} `{!Arith num} `{!Random num} `{!SetOrder}.
Variable self : Config.

Lemma bind_ext {A B} (m m' : M num A) (k k' : A → M num B) (w : World num) :
  m w = m' w → (∀ a w', k a w' = k' a w') → (m ≫= k) w = (m' ≫= k') w.
Proof. intros Hm Hk. rewrite !bind_run, Hm. by destruct (m' w) as [[a | e] w']. Qed.

Lemma mccfr_explore_ext s prune curr_player info_set strategy recurse recurse' acc a
    (w : World num) :
  (∀ w', recurse a w' = recurse' a w') →
  mccfr_explore s prune curr_player info_set strategy recurse acc a w
  = mccfr_explore s prune curr_player info_set strategy recurse' acc a w.
Proof.
  intros Hrec. unfold mccfr_explore. destruct acc as [[U E] X].
  assert (Hvisit : ∀ (X' : gset action) w',
    (recurse a ≫= λ calculated_util,
     lift (np_index calculated_util curr_player) ≫= λ u,
     lift (dict_get strategy a) ≫= λ p,
     lift (np_iadd E (np_scale calculated_util p)) ≫= λ expected_value',
     mret (<[a := u]> U, expected_value', X')) w'
    = (recurse' a ≫= λ calculated_util,
       lift (np_index calculated_util curr_player) ≫= λ u,
       lift (dict_get strategy a) ≫= λ p,
       lift (np_iadd E (np_scale calculated_util p)) ≫= λ expected_value',
       mret (<[a := u]> U, expected_value', X')) w').
  { intros X' w'. by rewrite !bind_run, Hrec. }
  destruct prune; [| apply Hvisit].
  apply bind_ext; [done |]. intros node w'. apply bind_ext; [done |]. intros regret w''.
  destruct (ltb _ _); [apply Hvisit | done].
Qed.

Lemma subgame_mccfr_node_ext player prune curr_player info_set valid_actions is_leaf value
    recurse recurse' (w : World num) :
  (is_leaf = false → ∀ a w', recurse a w' = recurse' a w') →
  subgame_mccfr_node self player prune curr_player info_set valid_actions is_leaf value recurse w
  = subgame_mccfr_node self player prune curr_player info_set valid_actions is_leaf value
      recurse' w.
Proof.
  intros Hrec. unfold subgame_mccfr_node.
  destruct (decide (curr_player = player)); (apply bind_ext; [done |]); intros node w1;
    destruct (negb (InfoSet.is_frozen node)); try done.
  - destruct is_leaf; [done |]. simpl. apply bind_ext; [| done].
    apply for_each_ext. intros acc a w2 _. apply mccfr_explore_ext. by apply Hrec.
  - apply bind_ext; [done |]. intros a w2. destruct is_leaf; [done |]. by apply Hrec.
Qed.

Lemma subgame_update_strategy_node_ext player curr_player info_set valid_actions is_leaf
    recurse recurse' (w : World num) :
  (is_leaf = false → ∀ a w', recurse a w' = recurse' a w') →
  subgame_update_strategy_node self player curr_player info_set valid_actions is_leaf recurse w
  = subgame_update_strategy_node self player curr_player info_set valid_actions is_leaf
      recurse' w.
Proof.
  intros Hrec. unfold subgame_update_strategy_node.
  destruct (decide (curr_player = player)); (apply bind_ext; [done |]); intros node w1;
    destruct (negb (InfoSet.is_frozen node)); try done; destruct is_leaf; try done.
  - apply bind_ext; [done |]. intros a w2. apply bind_ext; [done |]. intros _ w3.
    by apply Hrec.
  - apply for_each_ext. intros [] a w2 _. by apply Hrec.
Qed.

Lemma assoc_trim (children : list (action * TreeNode num)) a :
  assoc ((λ '(a, child), (a, trim child)) <$> children) a = trim <$> assoc children a.
Proof. apply assoc_fmap. Qed.

(** X19. Sub-game solving never looks below a leaf: [subgame_mccfr] and
    [subgame_update_strategy] behave on a tree as on the tree whose leaves
    have lost their children, in every world. *)
Theorem subgame_traversals_stop_at_leaves player prune (tree_node : TreeNode num)
    (w : World num) :
  subgame_mccfr self player tree_node prune w
  = subgame_mccfr self player (trim tree_node) prune w ∧
  subgame_update_strategy self player tree_node w
  = subgame_update_strategy self player (trim tree_node) w.
Proof.
  revert w. induction tree_node as [state is_leaf children value IH] using TreeNode_rect'.
  intros w. destruct state as [payoff | turn info_set successors]; [done |].
  rewrite Forall_forall in IH. split; simpl.
  - apply subgame_mccfr_node_ext. intros -> a w'. unfold call_child.
    rewrite !assoc_fmap. destruct (assoc children a) as [child |] eqn:Ha; [| done].
    simpl. apply (IH _ (assoc_Some_elem_of _ _ _ Ha)).
  - apply subgame_update_strategy_node_ext. intros -> a w'. unfold call_child.
    rewrite !assoc_fmap. destruct (assoc children a) as [child |] eqn:Ha; [| done].
    simpl. apply (IH _ (assoc_Some_elem_of _ _ _ Ha)).
Qed.
End Leaves.

(** *** Zero-sum games in exact arithmetic *)

Section ZeroSum.
#[local] Existing Instances ExQ.arith.
Context `{!Random Q} `{!SetOrder}.
Variable self : Config.
#[local] Open Scope Q_scope.

Lemma vsum_zeros n : vsum (np_zeros n) == 0.
Proof.
  unfold np_zeros. induction n as [| n IH]; simpl; [reflexivity |].
  rewrite IH. reflexivity.
Qed.

Lemma vsum_scale v p : vsum (np_scale v p) == vsum v * p.
Proof.
  change (np_scale v p) with ((λ x : Q, Qmult x p) <$> v).
  induction v as [| x v IH]; [rewrite fmap_nil; cbn [vsum foldr]; ring |].
  rewrite fmap_cons. cbn [vsum foldr]. fold (vsum ((λ x : Q, Qmult x p) <$> v)). fold (vsum v).
  rewrite IH. ring.
Qed.

Lemma vsum_zip_with (acc v : list Q) :
  length v = length acc → vsum (zip_with Qplus acc v) == vsum acc + vsum v.
Proof.
  revert v. induction acc as [| x acc IH]; intros [| y v] Hlen; try done.
  cbn [zip_with vsum foldr]. fold (vsum (zip_with Qplus acc v)). fold (vsum acc).
  fold (vsum v). rewrite IH by (simpl in Hlen; lia). ring.
Qed.

Lemma vsum_broadcast (acc : list Q) x :
  vsum ((λ y, y + x) <$> acc) == vsum acc + inject_Z (Z.of_nat (length acc)) * x.
Proof.
  induction acc as [| y acc IH]; [rewrite fmap_nil; cbn [vsum foldr length]; ring |].
  rewrite fmap_cons. cbn [vsum foldr length]. fold (vsum ((λ y, y + x) <$> acc)).
  fold (vsum acc). rewrite IH, Nat2Z.inj_succ, <- Z.add_1_r, inject_Z_plus. simpl. ring.
Qed.

Lemma np_iadd_zero_sum (acc v acc' : list Q) :
  np_iadd acc v = Return acc' → vsum acc == 0 → vsum v == 0 → vsum acc' == 0.
Proof.
  unfold np_iadd. intros Hadd Hacc Hv.
  destruct (decide (length v = length acc)) as [Hlen | Hlen].
  - injection Hadd as <-. change (@add Q ExQ.arith) with Qplus.
    rewrite vsum_zip_with, Hacc, Hv by done. ring.
  - destruct v as [| x [| y v]]; [done | | done]. injection Hadd as <-.
    change (@add Q ExQ.arith) with Qplus. rewrite vsum_broadcast, Hacc.
    simpl in Hv. assert (x == 0) as -> by (rewrite <- Hv; ring). ring.
Qed.

Lemma weighted_sum_zero_sum (strategy : action → outcome Q) E visits E' :
  weighted_sum strategy E visits = Return E' →
  vsum E == 0 → Forall (λ v, vsum v.2 == 0) visits → vsum E' == 0.
Proof.
  revert E. induction visits as [| [a cu] visits IH]; intros E Hsum HE Hall; simpl in Hsum.
  - injection Hsum as <-. done.
  - apply Forall_cons in Hall as [Hcu Hall]. simpl in Hcu.
    destruct (strategy a) as [p | e]; [| done].
    destruct (np_iadd E (np_scale cu p)) as [E1 | e] eqn:Hadd; [| done].
    apply (IH E1); [done | | done].
    eapply np_iadd_zero_sum; [exact Hadd | done |].
    change (@mul Q ExQ.arith) with Qmult. rewrite vsum_scale, Hcu. ring.
Qed.

Lemma zero_sum_successor turn info_set successors a (new_state : State Q) :
  zero_sum (Decision turn info_set successors) = true →
  assoc successors a = Some new_state → zero_sum new_state = true.
Proof.
  simpl. rewrite forallb_forall. intros Hall Ha.
  apply assoc_Some_elem_of, list_elem_of_In in Ha. exact (Hall _ Ha).
Qed.

Lemma explore_run_Forall (P : list Q → Prop) s prune curr_player info_set recurse l
    (w : World Q) visits w' :
  explore_run s prune curr_player info_set recurse l w visits w' →
  (∀ a w0 v w1, a ∈ l → recurse a w0 = (Return v, w1) → P v) →
  Forall (λ v, P v.2) visits.
Proof.
  induction 1 as [| a l w node regret visits w' Hp _ _ _ _ IH
                  | a l w cu w1 visits w' _ Hrec _ IH];
    intros HP.
  - constructor.
  - apply IH. intros b w0 v w2 Hb. apply HP. by right.
  - constructor; [eapply HP; [left | exact Hrec] |].
    apply IH. intros b w0 v w2 Hb. apply HP. by right.
Qed.

Lemma seq_run_Forall {A} (P : list Q → Prop) (f : A → M Q (list Q)) l (w : World Q) us w' :
  seq_run f l w us w' →
  (∀ a w0 v w1, a ∈ l → f a w0 = (Return v, w1) → P v) →
  Forall P us.
Proof.
  induction 1 as [| x l w b w1 bs w' Hx _ IH]; intros HP; [constructor |].
  constructor; [eapply HP; [left | exact Hx] |].
  apply IH. intros a w0 v w2 Ha. apply HP. by right.
Qed.

Lemma mccfr_zero_sum player prune (state : State Q) :
  zero_sum state = true →
  ∀ (w : World Q) v w', mccfr self player state prune w = (Return v, w') → vsum v == 0.
Proof.
  induction state as [payoff | turn info_set successors IH] using State_rect';
    intros Hzero w v w' Hrun.
  - rewrite mccfr_unfold in Hrun. erewrite bind_Return in Hrun by done.
    injection Hrun as <- _. simpl in Hzero. by apply Qeq_bool_eq.
  - set (recurse := call_on ((λ '(a, new_state),
                      (a, mccfr self player new_state prune)) <$> successors)).
    assert (Hrec : ∀ a w0 v0 w1, recurse a w0 = (Return v0, w1) → vsum v0 == 0).
    { intros a w0 v0 w1. unfold recurse, call_on. rewrite assoc_fmap.
      destruct (assoc successors a) as [new_state |] eqn:Ha; [| done]. simpl.
      rewrite Forall_forall in IH.
      apply (IH _ (assoc_Some_elem_of _ _ _ Ha)).
      by eapply zero_sum_successor. }
    destruct (decide (turn = player)) as [-> | Hturn].
    + destruct (mccfr_traversing_run self _ _ _ _ _ _ _ Hrun)
        as (node & visits & w2 & _ & Hvisits & Hsum & _).
      eapply weighted_sum_zero_sum; [exact Hsum | apply vsum_zeros |].
      apply (explore_run_Forall (λ v, vsum v == 0) _ _ _ _ _ _ _ _ _ Hvisits).
      intros a w0 v0 w1 _. apply Hrec.
    + rewrite mccfr_unfold in Hrun. erewrite bind_Return in Hrun by done.
      unfold mccfr_node in Hrun. rewrite decide_False in Hrun by done.
      erewrite bind_Return in Hrun by done. rewrite bind_run in Hrun.
      destruct (read_node _ _ _ _) as [[node | e] w1]; [| done].
      rewrite bind_run in Hrun. destruct (choices _ w1) as [[a | e] w2]; [| done].
      by eapply Hrec.
Qed.

Lemma traverse_tree_zero_sum (state : State Q) :
  zero_sum state = true →
  ∀ (w : World Q) v w', traverse_tree self state w = (Return v, w') → vsum v == 0.
Proof.
  induction state as [payoff | turn info_set successors IH] using State_rect';
    intros Hzero w v w' Hrun.
  - rewrite traverse_tree_unfold in Hrun. erewrite bind_Return in Hrun by done.
    injection Hrun as <- _. simpl in Hzero. by apply Qeq_bool_eq.
  - rewrite traverse_tree_unfold in Hrun. erewrite bind_Return in Hrun by done.
    unfold traverse_tree_node in Hrun. apply try_except_Return in Hrun.
    erewrite bind_Return in Hrun by done. rewrite bind_run in Hrun.
    destruct (read_node _ _ _ _) as [[node | e] w1]; [| done].
    apply traverse_loop_run in Hrun as (us & Hus & Hsum).
    eapply weighted_sum_zero_sum; [exact Hsum | apply vsum_zeros |].
    assert (Hall : Forall (λ v, vsum v == 0) us).
    { apply (seq_run_Forall (λ v, vsum v == 0) _ _ _ _ _ Hus). intros a w0 v0 w2 _.
      unfold call_on. rewrite assoc_fmap.
      destruct (assoc successors a) as [new_state |] eqn:Ha; [| done]. simpl.
      rewrite Forall_forall in IH.
      apply (IH _ (assoc_Some_elem_of _ _ _ Ha)). by eapply zero_sum_successor. }
    apply seq_run_length in Hus. clear -Hall Hus.
    revert us Hall Hus. generalize (successors.*1). intros l.
    induction l as [| a l IHl]; intros [| u us] Hall Hlen; simpl in *; try done.
    apply Forall_cons in Hall as [Hu Hall]. constructor; [done |].
    apply IHl; [done | lia].
Qed.

(** X20. Zero-sum games in exact arithmetic. When every payoff vector of
    the tree sums to zero, so does every vector [mccfr] returns (with or
    without pruning), every vector [traverse_tree] returns, and the expected
    utility [expected_utility] returns. *)
Theorem zero_sum_game_values_sum_to_zero {card : Type} `{!EqDecision card}
    (self_state : list card → State Q) :
  (∀ player prune state (w : World Q) v w',
     zero_sum state = true →
     mccfr self player state prune w = (Return v, w') → vsum v == 0) ∧
  (∀ state (w : World Q) v w',
     zero_sum state = true →
     traverse_tree self state w = (Return v, w') → vsum v == 0) ∧
  (∀ cards (w : World Q) v w',
     (∀ c, zero_sum (self_state c) = true) →
     expected_utility self self_state cards w = (Return v, w') → vsum v == 0).
Proof.
  split; [| split].
  - intros player prune state w v w' Hzero. by apply mccfr_zero_sum.
  - intros state w v w' Hzero. by apply traverse_tree_zero_sum.
  - intros cards w v w' Hzero Hrun. unfold expected_utility in Hrun.
    rewrite bind_run in Hrun.
    destruct (for_each _ _ _ w) as [[total | e] w1] eqn:Hloop; [| done].
    injection Hrun as <- _.
    assert (Htotal : vsum total == 0).
    { eapply (for_each_Return_inv (λ acc : list Q, vsum acc == 0)); [| | exact Hloop].
      - intros acc c w0 acc' w0' _ Hacc Hbody. cbv beta in Hbody. rewrite bind_run in Hbody.
        destruct (traverse_tree self (self_state c) w0) as [[u | e] w2] eqn:Hu; [| done].
        unfold lift in Hbody. destruct (np_iadd acc u) as [acc1 | e] eqn:Hadd; [| done].
        injection Hbody as <- _. eapply np_iadd_zero_sum; [exact Hadd | done |].
        by eapply traverse_tree_zero_sum.
      - apply vsum_zeros. }
    set (n := of_Z (Z.of_nat (length (all_combos self cards)))).
    assert (Hdiv : ∀ l : list Q, vsum (np_div l n) == vsum l / n).
    { intros l. change (np_div l n) with ((λ x : Q, Qdiv x n) <$> l).
      induction l as [| x l IHl]; [rewrite fmap_nil; cbn [vsum foldr]; unfold Qdiv; ring |].
      rewrite fmap_cons. cbn [vsum foldr]. fold (vsum ((λ x : Q, Qdiv x n) <$> l)).
      fold (vsum l). rewrite IHl. unfold Qdiv. ring. }
    transitivity (vsum total / n); [apply Hdiv |]. rewrite Htotal. unfold Qdiv. ring.
Qed.
End ZeroSum.

(** *** The command line *)

Section CommandLine.
Import Main.
#[local] Open Scope Z_scope.

(** X21. The settings [main.py] builds. Whatever the arguments, when the
    script trains on a game there are 2 or 3 players, [num_cards] is
    [num_players + num_rounds - 1], it is positive and at most the number of
    cards of the deck, which are pairwise different, and [raise_size] has one
    entry per betting round. MCCFR runs only when [--cfr] is none of 0, 1
    and 2 and [--mccfr] is 1 or 2, with [--mccfr + 1] players. *)
Theorem main_deals_fit_the_deck (a : args) :
  (∀ s cards, game_of (main a) = Some (s, cards) →
     (num_players s = 2 ∨ num_players s = 3) ∧
     num_cards s = num_players s + num_rounds s - 1 ∧
     0 < num_cards s ≤ Z.of_nat (length cards) ∧
     Z.of_nat (length (raise_size s)) = num_rounds s ∧
     NoDup cards) ∧
  (∀ s cards it, main a = MonteCarloCFR_train s cards it →
     cfr a ≠ Some 0 ∧ cfr a ≠ Some 1 ∧ cfr a ≠ Some 2 ∧
     (mccfr a = Some 1 ∨ mccfr a = Some 2) ∧
     num_players s = default 0 (mccfr a) + 1).
Proof.
  assert (Hsetup : ∀ players s cards,
            (players = 2 ∨ players = 3) → setup players a = (s, cards) →
            (num_players s = 2 ∨ num_players s = 3) ∧
            num_players s = players ∧
            num_cards s = num_players s + num_rounds s - 1 ∧
            0 < num_cards s ≤ Z.of_nat (length cards) ∧
            Z.of_nat (length (raise_size s)) = num_rounds s ∧
            NoDup cards).
  { intros players s cards Hp. unfold setup.
    destruct (decide (args_game a = 1)), Hp as [-> | ->]; simpl;
      intros [= <- <-]; simpl; repeat split; try lia; try (by left); try (by right);
      apply (bool_decide_unpack _); by vm_compute. }
  split.
  - intros s cards. unfold main.
    repeat destruct (decide _); try done;
      (destruct (setup _ a) as [s0 cards0] eqn:Hs; simpl; intros [= <- <-];
       (edestruct Hsetup as (? & ? & ? & ? & ? & ?); [| exact Hs |]; [auto | done])).
  - intros s cards it. unfold main.
    repeat destruct (decide _); try done;
      (destruct (setup _ a) as [s0 cards0] eqn:Hs; intros [= <- <- <-];
       (edestruct Hsetup as (_ & Hn & _); [| exact Hs |]; [auto |];
        repeat split; try done; try (by left); try (by right); by rewrite Hn, e)).
Qed.
End CommandLine.

(** *** The replayed generator returns a member of the population or
    raises [ValueError] *)

Section ReplaySampler.
Context {num : Type} `{!Arith num}.

Lemma accumulate_length (acc : option num) ws : length (accumulate acc ws) = length ws.
Proof. revert acc. induction ws as [| x ws IH]; intros acc; simpl; [done | by rewrite IH]. Qed.

Lemma bisect_le (a : list num) x hi : bisect a x hi ≤ hi.
Proof.
  revert hi. induction a as [| y a IH]; intros [| hi]; simpl; try lia.
  case_match; [lia |]. specialize (IH hi). lia.
Qed.

(** CPython's [random.choices] on a tape of uniforms: with a population
    that is not empty and as many weights, it returns a member of the
    population or raises [ValueError]. *)
Lemma replay_sampler_sound : @sampler_sound num (replay num).
Proof.
  intros g population weights Hne Hlen.
  change (random_choices g population weights) with (tape_choices g population weights).
  unfold tape_choices. rewrite accumulate_length, decide_True by done.
  destruct (last (accumulate None weights)) as [s |] eqn:Hlast.
  - destruct (leb (add s zero) zero); [done |].
    destruct (isfinite (add s zero)); simpl; [| done].
    destruct (tape_random g) as [x g'].
    set (idx := bisect _ _ _).
    assert (Hidx : idx < length population).
    { pose proof (bisect_le (accumulate None weights) (mul x (add s zero))
                    (length population - 1)) as Hle.
      fold idx in Hle. destruct population; [done |]. simpl in *. lia. }
    destruct (lookup_lt_is_Some_2 _ _ Hidx) as [a Ha]. rewrite Ha.
    by eapply list_elem_of_lookup_2.
  - apply last_None in Hlast. apply (f_equal length) in Hlast.
    rewrite accumulate_length, Hlen in Hlast. by destruct population.
Qed.
End ReplaySampler.

(** *** The further properties on concrete inputs *)

Section FurtherOnBinary64.
#[local] Existing Instances Ex.arith Ex.gen Ex.order Edge.choice_gen Edge.np_gen.
#[local] Open Scope float_scope.

Lemma train_below_strategy_interval_witness :
  (1 < strategy_interval)%nat ∧
  let w := Ex.fresh [0.25] [] in
  let w' := (train Ex.cfg (λ _ : list nat, Ex.root) [1; 2; 3]%nat 1 w).2 in
  (∃ l, calls w' = calls w ++ l ∧ Forall mccfr_or_traverse_tree l) ∧
  (∀ p i, InfoSet.strategy_sum (node_or_new Ex.cfg (node_map w') p i)
          = InfoSet.strategy_sum (node_or_new Ex.cfg (node_map w) p i) ∧
          InfoSet.strategy_sum_plain (node_or_new Ex.cfg (node_map w') p i)
          = InfoSet.strategy_sum_plain (node_or_new Ex.cfg (node_map w) p i)) ∧
  (node_map w = ∅ →
   ∀ p i node, lookup_node (node_map w') p i = Some node →
               InfoSet.strategy_sum node = InfoSet.strategy_sum (InfoSet.new (actions Ex.cfg)) ∧
               InfoSet.strategy_sum_plain node = false).
Proof.
  assert (H : (1 < strategy_interval)%nat) by (unfold strategy_interval; lia).
  split; [exact H |].
  exact (train_below_strategy_interval Ex.cfg (λ _ : list nat, Ex.root) [1; 2; 3]%nat 1
           (Ex.fresh [0.25] []) H).
Defined.

Lemma all_combos_count_witness :
  NoDup [1; 2; 3]%nat ∧
  length (all_combos Ex.cfg [1; 2; 3]%nat) = arrangements 3 2 ∧ arrangements 3 2 = 6%nat.
Proof.
  assert (H : NoDup [1; 2; 3]%nat) by (apply (bool_decide_unpack _); by vm_compute).
  split; [exact H |]. split; [| reflexivity].
  exact (all_combos_count Ex.cfg [1; 2; 3]%nat H).
Defined.


Lemma mccfr_all_pruned_returns_zeros_witness :
  lookup_node (node_map Edge.all_floored) 0%nat "K" = Some Edge.all_floor_node ∧
  (∀ a, a ∈ ["P"; "B"]%string →
        ∃ regret, InfoSet.regret_sum_getitem Edge.all_floor_node a = Return regret ∧
                  ltb (of_Z regret_minimum) regret = false) ∧
  mccfr Ex.cfg 0 Ex.root true Edge.all_floored
  = (Return [0; 0], (log (Call_mccfr Ex.root) Edge.all_floored).2).
Proof.
  assert (H : ∀ a, a ∈ ["P"; "B"]%string →
                   ∃ regret, InfoSet.regret_sum_getitem Edge.all_floor_node a = Return regret ∧
                             ltb (of_Z regret_minimum) regret = false).
  { intros a Ha.
    repeat (apply elem_of_cons in Ha as [-> | Ha]; [eexists; split; by vm_compute |]).
    by apply elem_of_nil in Ha. }
  split; [reflexivity |]. split; [exact H |].
  exact (mccfr_all_pruned_returns_zeros Ex.cfg 0%nat "K"%string
           [("P"%string, Ex.after_pass); ("B"%string, Terminal [2; -2])] Edge.all_floored
           Edge.all_floor_node eq_refl H).
Defined.

Lemma mccfr_unpruned_visits_every_action_witness :
  (∃ w', mccfr Ex.cfg 0 Ex.root false (Ex.fresh [0.25] []) = (Return [1.5; -1.5], w')) ∧
  let successors := [("P"%string, Ex.after_pass); ("B"%string, Terminal [2; -2])] in
  let state := Decision 0 "K" successors in
  let w := Ex.fresh [0.25] [] in
  let w1 := (node_setdefault Ex.cfg Node_map 0 "K" (log (Call_mccfr state) w).2).2 in
  let recurse := call_on ((λ '(a, new_state),
                             (a, mccfr Ex.cfg 0 new_state false)) <$> successors) in
  ∃ node us w2,
    lookup_node (node_map w1) 0%nat "K" = Some node ∧
    length us = length successors ∧
    seq_run recurse successors.*1 w1 us w2 ∧
    weighted_sum (dict_get (InfoSet.strategy node successors.*1))
                 (np_zeros (num_players Ex.cfg)) (zip successors.*1 us)
    = Return [1.5; -1.5].
Proof.
  assert (H : ∃ w', mccfr Ex.cfg 0 Ex.root false (Ex.fresh [0.25] [])
                    = (Return [1.5; -1.5], w'))
    by (eexists; vm_compute; reflexivity).
  split; [exact H |]. destruct H as [w' H]. cbv zeta.
  destruct (mccfr_unpruned_visits_every_action Ex.cfg 0%nat "K"%string _
              (Ex.fresh [0.25] []) [1.5; -1.5] w' H)
    as (node & us & w2 & Hnode & Hlen & Hrun & Hsum & _).
  by exists node, us, w2.
Defined.

Lemma discount_missing_player_raises_witness :
  (1 < num_players Ex.cfg)%nat ∧
  node_map Ex.floored !! 1%nat = None ∧
  (∀ q, (q < 1)%nat → is_Some (node_map Ex.floored !! q)) ∧
  ∃ w', discount Ex.cfg 100 Ex.floored = (Raise KeyError, w') ∧
        (∀ q, node_map w' !! q
              = if decide (q < 1)%nat
                then (λ player_nodes : gmap string (InfoSet.t float),
                        discount_node (discount_factor 100) <$> player_nodes)
                       <$> node_map Ex.floored !! q
                else node_map Ex.floored !! q) ∧
        self_strategy w' = self_strategy Ex.floored ∧ rng w' = rng Ex.floored ∧
        calls w' = calls Ex.floored ++ [Call_discount 100].
Proof.
  assert (H1 : (1 < num_players Ex.cfg)%nat) by (simpl; lia).
  assert (H2 : node_map Ex.floored !! 1%nat = None) by reflexivity.
  assert (H3 : ∀ q, (q < 1)%nat → is_Some (node_map Ex.floored !! q)).
  { intros q Hq. assert (q = 0%nat) as -> by lia. by eexists. }
  split; [exact H1 |]. split; [exact H2 |]. split; [exact H3 |].
  exact (discount_missing_player_raises Ex.cfg 100 1 Ex.floored H1 H2 H3).
Defined.

Lemma expected_utility_too_few_cards_is_nan_witness :
  (length [1%nat] < num_cards Ex.cfg)%nat ∧
  expected_utility Ex.cfg (λ _ : list nat, Ex.root) [1%nat] (Ex.fresh [] [])
  = (Return [PrimFloat.nan; PrimFloat.nan], Ex.fresh [] []).
Proof.
  assert (H : (length [1%nat] < num_cards Ex.cfg)%nat) by (simpl; lia).
  split; [exact H |].
  exact (proj1 (expected_utility_too_few_cards_is_nan Ex.cfg (λ _ : list nat, Ex.root)
                  [1%nat] (Ex.fresh [] []) H)).
Defined.

Lemma expected_utility_raises_user_warning_witness :
  (∃ w', expected_utility Ex.cfg (λ _ : list nat, Edge.misshapen) [1; 2; 3]%nat (Ex.fresh [] [])
         = (Raise ValueError, w')) ∧
  (ValueError = UserWarning ∨
   (ValueError = ValueError ∧
    ∃ c payoff, c ∈ all_combos Ex.cfg [1; 2; 3]%nat ∧ Edge.misshapen = Terminal payoff ∧
                length payoff ≠ num_players Ex.cfg)).
Proof.
  assert (H : ∃ w', expected_utility Ex.cfg (λ _ : list nat, Edge.misshapen) [1; 2; 3]%nat
                      (Ex.fresh [] []) = (Raise ValueError, w'))
    by (eexists; vm_compute; reflexivity).
  split; [exact H |]. destruct H as [w' H].
  exact (proj2 (expected_utility_raises_user_warning Ex.cfg (λ _ : list nat, Edge.misshapen))
           _ _ _ _ H).
Defined.

Lemma subgame_solve_never_freezes_witness :
  all_unfrozen (Ex.fresh [0.25] []) ∧
  all_unfrozen (subgame_mccfr Ex.cfg 0 Ex.leaf false (Ex.fresh [0.25] [])).2 ∧
  all_unfrozen (subgame_update_strategy Ex.cfg 0 Ex.leaf (Ex.fresh [0.25] [])).2.
Proof.
  assert (H : all_unfrozen (Ex.fresh [0.25] [])) by (by intros p i node).
  split; [exact H |].
  exact (proj1 (subgame_solve_never_freezes Ex.cfg (S := unit)) 0%nat false Ex.leaf
           (Ex.fresh [0.25] []) H).
Defined.

Lemma traversals_raise_only_value_or_key_error_witness :
  sampler_sound ∧
  well_formed (num_players Ex.cfg) Ex.root = true ∧
  let w := Ex.fresh [0.25] [] in
  (∀ prune,
     match mccfr Ex.cfg 0 Ex.root prune w with
     | (Return v, _) => length v = num_players Ex.cfg
     | (Raise e, _) =>
         (e = ValueError ∨ e = KeyError) ∧ (never_discounted w → e = ValueError)
     end) ∧
  match update_strategy Ex.cfg 0 Ex.root w with
  | (Return _, _) => True
  | (Raise e, _) =>
      (e = ValueError ∨ e = KeyError) ∧ (never_discounted w → e = ValueError)
  end.
Proof.
  split; [exact replay_sampler_sound |]. split; [reflexivity |].
  exact (traversals_raise_only_value_or_key_error Ex.cfg Ex.root replay_sampler_sound
           eq_refl 0%nat (Ex.fresh [0.25] [])).
Defined.

(** The [ValueError] of [random.choices] on binary64: with two regrets whose
    sum overflows, regret matching gives the strategy [0;0], whose total is
    not greater than zero. *)
Lemma update_strategy_overflow_raises_value_error :
  never_discounted Edge.overflowed ∧
  InfoSet.strategy Edge.huge_node ["P"; "B"]%string = [("P"%string, 0); ("B"%string, 0)] ∧
  ∃ w', update_strategy Ex.cfg 0 Ex.root Edge.overflowed = (Raise ValueError, w').
Proof.
  split; [| split; [by vm_compute | eexists; by vm_compute]].
  intros p i node Hnode. unfold Edge.overflowed in Hnode. simpl in Hnode.
  unfold lookup_node in Hnode.
  destruct (decide (p = 0%nat)) as [-> | Hp].
  - rewrite lookup_singleton_eq in Hnode. simpl in Hnode.
    destruct (decide (i = "K"%string)) as [-> | Hi].
    + rewrite lookup_singleton_eq in Hnode. by injection Hnode as <-.
    + by rewrite lookup_singleton_ne in Hnode.
  - by rewrite lookup_singleton_ne in Hnode.
Qed.

Lemma main_deals_fit_the_deck_witness :
  ∃ s cards,
    Main.main Edge.kuhn_mccfr = Main.MonteCarloCFR_train s cards (Some 1000%Z) ∧
    Main.cfr Edge.kuhn_mccfr ≠ Some 0%Z ∧ Main.cfr Edge.kuhn_mccfr ≠ Some 1%Z ∧
    Main.cfr Edge.kuhn_mccfr ≠ Some 2%Z ∧
    (Main.mccfr Edge.kuhn_mccfr = Some 1%Z ∨ Main.mccfr Edge.kuhn_mccfr = Some 2%Z) ∧
    Main.num_players s = (default 0 (Main.mccfr Edge.kuhn_mccfr) + 1)%Z.
Proof.
  eexists _, _. split; [reflexivity |].
  exact (proj2 (main_deals_fit_the_deck Edge.kuhn_mccfr) _ _ _ eq_refl).
Defined.
End FurtherOnBinary64.

Section FurtherOnRationals.
#[local] Existing Instances ExQ.arith ExQ.gen ExQ.order.
#[local] Open Scope Q_scope.

Lemma zero_sum_game_values_sum_to_zero_witness :
  zero_sum EdgeQ.root = true ∧
  ∃ v w', traverse_tree Ex.cfg EdgeQ.root (EdgeQ.fresh [] []) = (Return v, w') ∧
          vsum v == 0.
Proof.
  split; [reflexivity |].
  assert (H : ∃ v w', traverse_tree Ex.cfg EdgeQ.root (EdgeQ.fresh [] []) = (Return v, w'))
    by (eexists _, _; vm_compute; reflexivity).
  destruct H as (v & w' & H). exists v, w'. split; [exact H |].
  exact (proj1 (proj2 (zero_sum_game_values_sum_to_zero Ex.cfg (λ _ : list nat, EdgeQ.root)))
           EdgeQ.root _ _ _ eq_refl H).
Defined.
End FurtherOnRationals.
